(** * The control core of mle: key resolution, event-loop dispatch, macros,
      prompts, tab completion and the async multiplexer

    A shallow embedding of the functions of the editor's core and of the
    utilities it calls ([util_timeval_is_gt], [util_get_bracket_pair],
    [util_escape_shell_arg], [util_shell_exec]), followed by the
    properties the specification states about them.

    Conventions of the embedding.
    - A C pointer is an [option ptr]: [None] is NULL, [Some p] an address.
      Objects that the code compares by address or shares between owners
      (trie nodes, views, macros) live in a store, a [gmap] from addresses.
    - A C [int] that the code only uses as a truth value assigned 0 or 1 is
      a [bool]; other integers are [Z].
    - An array with its length field ([numeric]/[numeric_len],
      [numeric_params]/[numeric_params_len], [wildcard_params]/
      [wildcard_params_len], [inputs]/[inputs_len]) is the list of its
      first [len] cells; the length field is the length of the list.
    - A uthash table ([children], [func_map]) is a [gmap] over its key.
    - What lives outside the core (termbox events, libc streams, the
      command functions, the shell) enters as explicit inputs or as the
      fields of a class of collaborators. *)

From stdpp Require Import gmap list strings.
From Stdlib Require Import ZArith Lia.

Open Scope Z_scope.

(** ** Data model *)

Definition ptr := positive.

(** [kinput_t]: one keystroke [(mod, ch, key)].  The field [mod] is spelled
    [kmod]. *)
Record kinput_t := Kinput { kmod : Z; ch : Z; key : Z }.

Global Instance kinput_eq_dec : EqDecision kinput_t.
Proof. solve_decision. Defined.

Global Instance kinput_countable : Countable kinput_t :=
  inj_countable' (fun k => (kmod k, ch k, key k))
                 (fun t => Kinput t.1.1 t.1.2 t.2)
                 (fun k => match k with Kinput _ _ _ => eq_refl end).

(** The two result values of the core. *)
Inductive mle_rc := MLE_OK | MLE_ERR.

Global Instance mle_rc_eq_dec : EqDecision mle_rc.
Proof. solve_decision. Defined.

(** A [cmd_func_t] is a C function pointer.  The core compares command
    functions with two of its own; every other command is external. *)
Inductive cmd_func_t :=
  | fn_cmd_insert_data
  | fn_editor_prompt_input_complete
  | fn_extern (id : N).

Global Instance cmd_func_eq_dec : EqDecision cmd_func_t.
Proof. solve_decision. Defined.

(** [cmd_funcref_t]: the late-bound command handle.  The registry
    [func_map] holds one handle per name and every handle a keymap points to
    is an entry of it ([editor_register_cmd]), so a [cmd_funcref_t*] is
    modelled by the name it is registered under. *)
Definition funcref_p := string.

Record cmd_funcref_t := Funcref {
  fname : string;
  func : option cmd_func_t
}.

(** [kbinding_t]: a trie node.  Its field [input] is spelled
    [binding_input]. *)
Record kbinding_t := Kbinding {
  binding_input : kinput_t;
  children : gmap kinput_t ptr;
  funcref : option funcref_p;
  static_param : option string
}.

(** [kmap_t]: a keymap; [bindings] is the address of its root node. *)
Record kmap_t := Kmap {
  kname : string;
  bindings : ptr;
  default_funcref : option funcref_p;
  allow_fallthru : Z
}.

(** Modelled from the spec: the keymap stack of a view.  [kmap_node_t] and
    [bview_push_kmap] are declared outside the files of the core; by the
    specification the stack is an ordered sequence whose tail, the most
    recently pushed keymap, is consulted first.  A [kmap_node_t*] is the
    list of the keymaps from that node downwards: its head is
    [kmap_node->kmap], its rest is [kmap_node->prev], and the empty list is
    NULL. *)
Definition kmap_node_t := list kmap_t.

(** [loop_context_t]. *)
Record loop_context_t := LoopCtx {
  invoker : option ptr;
  numeric : list Z;
  numeric_node : option ptr;
  numeric_params : list Z;
  wildcard_params : list Z;
  binding_node : option ptr;
  need_more_input : bool;
  should_exit : bool;
  prompt_answer : option string;
  last_cmd : option funcref_p;
  tab_complete_term : list Z;
  tab_complete_index : Z
}.

Definition numeric_len (lc : loop_context_t) : Z := Z.of_nat (length (numeric lc)).
Definition numeric_params_len (lc : loop_context_t) : Z :=
  Z.of_nat (length (numeric_params lc)).
Definition wildcard_params_len (lc : loop_context_t) : Z :=
  Z.of_nat (length (wildcard_params lc)).

(** [memset(&loop_ctx, 0, sizeof(loop_context_t))] *)
Definition loop_ctx_zero : loop_context_t :=
  LoopCtx None [] None [] [] None false false None None [] 0.

(** Field assignments [loop_ctx->f = v]. *)
Definition set_invoker (v : option ptr) (lc : loop_context_t) :=
  LoopCtx v (numeric lc) (numeric_node lc) (numeric_params lc)
    (wildcard_params lc) (binding_node lc) (need_more_input lc)
    (should_exit lc) (prompt_answer lc) (last_cmd lc)
    (tab_complete_term lc) (tab_complete_index lc).
Definition set_numeric (v : list Z) (lc : loop_context_t) :=
  LoopCtx (invoker lc) v (numeric_node lc) (numeric_params lc)
    (wildcard_params lc) (binding_node lc) (need_more_input lc)
    (should_exit lc) (prompt_answer lc) (last_cmd lc)
    (tab_complete_term lc) (tab_complete_index lc).
Definition set_numeric_node (v : option ptr) (lc : loop_context_t) :=
  LoopCtx (invoker lc) (numeric lc) v (numeric_params lc)
    (wildcard_params lc) (binding_node lc) (need_more_input lc)
    (should_exit lc) (prompt_answer lc) (last_cmd lc)
    (tab_complete_term lc) (tab_complete_index lc).
Definition set_numeric_params (v : list Z) (lc : loop_context_t) :=
  LoopCtx (invoker lc) (numeric lc) (numeric_node lc) v
    (wildcard_params lc) (binding_node lc) (need_more_input lc)
    (should_exit lc) (prompt_answer lc) (last_cmd lc)
    (tab_complete_term lc) (tab_complete_index lc).
Definition set_wildcard_params (v : list Z) (lc : loop_context_t) :=
  LoopCtx (invoker lc) (numeric lc) (numeric_node lc) (numeric_params lc)
    v (binding_node lc) (need_more_input lc)
    (should_exit lc) (prompt_answer lc) (last_cmd lc)
    (tab_complete_term lc) (tab_complete_index lc).
Definition set_binding_node (v : option ptr) (lc : loop_context_t) :=
  LoopCtx (invoker lc) (numeric lc) (numeric_node lc) (numeric_params lc)
    (wildcard_params lc) v (need_more_input lc)
    (should_exit lc) (prompt_answer lc) (last_cmd lc)
    (tab_complete_term lc) (tab_complete_index lc).
Definition set_need_more_input (v : bool) (lc : loop_context_t) :=
  LoopCtx (invoker lc) (numeric lc) (numeric_node lc) (numeric_params lc)
    (wildcard_params lc) (binding_node lc) v
    (should_exit lc) (prompt_answer lc) (last_cmd lc)
    (tab_complete_term lc) (tab_complete_index lc).
Definition set_last_cmd (v : option funcref_p) (lc : loop_context_t) :=
  LoopCtx (invoker lc) (numeric lc) (numeric_node lc) (numeric_params lc)
    (wildcard_params lc) (binding_node lc) (need_more_input lc)
    (should_exit lc) (prompt_answer lc) v
    (tab_complete_term lc) (tab_complete_index lc).
Definition set_tab_complete_term (v : list Z) (lc : loop_context_t) :=
  LoopCtx (invoker lc) (numeric lc) (numeric_node lc) (numeric_params lc)
    (wildcard_params lc) (binding_node lc) (need_more_input lc)
    (should_exit lc) (prompt_answer lc) (last_cmd lc)
    v (tab_complete_index lc).
Definition set_tab_complete_index (v : Z) (lc : loop_context_t) :=
  LoopCtx (invoker lc) (numeric lc) (numeric_node lc) (numeric_params lc)
    (wildcard_params lc) (binding_node lc) (need_more_input lc)
    (should_exit lc) (prompt_answer lc) (last_cmd lc)
    (tab_complete_term lc) v.

(** The constants and sentinels that the core takes from [mle.h] and from
    the C library.  Their values are not fixed by the files of the core, so
    every definition below is parametric in them. *)
Class mle_h := MleH {
  MLE_LOOP_CTX_MAX_NUMERIC_LEN : Z;
  MLE_LOOP_CTX_MAX_NUMERIC_PARAMS : Z;
  MLE_LOOP_CTX_MAX_WILDCARD_PARAMS : Z;
  MLE_LOOP_CTX_MAX_COMPLETE_TERM_SIZE : Z;
  MLE_KINPUT_NUMERIC : kinput_t;
  MLE_KINPUT_WILDCARD : kinput_t;
  ULONG_MAX : Z
}.

(** ** Dispatch resolver *)

(** [input->ch >= '0' && input->ch <= '9'] *)
Definition is_digit_ch (c : Z) : bool := (48 <=? c) && (c <=? 57).

(** The value of a string of decimal digits, most significant first. *)
Definition parse_decimal (s : list Z) : Z :=
  fold_left (fun acc c => 10 * acc + (c - 48)) s 0.

(** [strtoul(s, NULL, 10)] on the numeric buffer: the buffer holds decimal
    digits only; the C function reads the longest prefix of digits and
    saturates at [ULONG_MAX]. *)
Fixpoint digit_prefix (s : list Z) : list Z :=
  match s with
  | c :: r => if is_digit_ch c then c :: digit_prefix r else []
  | [] => []
  end.

Definition strtoul `{mle_h} (s : list Z) : Z :=
  Z.min (parse_decimal (digit_prefix s)) ULONG_MAX.

(** [node->children] read through a possibly null or dangling address: the
    model reads an empty table there (the C code would fault). *)
Definition node_children (h : gmap ptr kbinding_t) (node : option ptr)
  : gmap kinput_t ptr :=
  match node with
  | Some p => match h !! p with Some n => children n | None => ∅ end
  | None => ∅
  end.

(** [_editor_get_kbinding_node]: one lookup at [node].  Returns the binding
    found (or NULL), the value left in [*ret_again] (the caller zeroes it
    before the call), and the loop context. *)
Definition _editor_get_kbinding_node `{mle_h} (h : gmap ptr kbinding_t)
    (node : option ptr) (inp : kinput_t) (lc : loop_context_t) (is_peek : bool)
  : option ptr * bool * loop_context_t :=
  let numeric_phase : (option ptr * bool * loop_context_t)
                      + (option ptr * loop_context_t) :=
    if is_peek then inr (node, lc) else
    (* Look for numeric *)
    let look : option (option ptr * bool) * loop_context_t :=
      if is_digit_ch (ch inp) then
        let lc1 :=
          match numeric_node lc with
          | None => set_numeric_node (node_children h node !! MLE_KINPUT_NUMERIC) lc
          | Some _ => lc
          end in
        match numeric_node lc1 with
        | Some _ =>
            if numeric_len lc1 <? MLE_LOOP_CTX_MAX_NUMERIC_LEN
            then (Some (node, true), set_numeric (numeric lc1 ++ [ch inp]) lc1)
            else (Some (None, false), lc1)
        | None => (None, lc1)
        end
      else (None, lc) in
    match look with
    | (Some (b, again), lc1) => inl (b, again, lc1)
    | (None, lc1) =>
        (* Parse/reset numeric buffer *)
        if 0 <? numeric_len lc1 then
          if numeric_params_len lc1 <? MLE_LOOP_CTX_MAX_NUMERIC_PARAMS then
            inr (numeric_node lc1,
                 set_numeric_node None
                   (set_numeric []
                      (set_numeric_params
                         (numeric_params lc1 ++ [strtoul (numeric lc1)]) lc1)))
          else
            inl (None, false, set_numeric_node None (set_numeric [] lc1))
        else inr (node, lc1)
    end in
  match numeric_phase with
  | inl r => r
  | inr (node1, lc1) =>
      (* Look for input *)
      match node_children h node1 !! inp with
      | Some b => (Some b, false, lc1)
      | None =>
          if is_peek then (None, false, lc1) else
          (* Look for wildcard *)
          match node_children h node1 !! MLE_KINPUT_WILDCARD with
          | Some b =>
              if wildcard_params_len lc1 <? MLE_LOOP_CTX_MAX_WILDCARD_PARAMS
              then (Some b, false,
                    set_wildcard_params (wildcard_params lc1 ++ [ch inp]) lc1)
              else (None, false, lc1)
          | None => (None, false, lc1)
          end
      end
  end.

(** The [while (kmap_node)] loop of [_editor_get_command].  [sp] is
    [ctx->static_param]. *)
Fixpoint get_command_loop `{mle_h} (h : gmap ptr kbinding_t) (inp : kinput_t)
    (is_peek : bool) (kmap_node : kmap_node_t) (node : option ptr)
    (is_top : bool) (lc : loop_context_t) (sp : option string)
  : option funcref_p * loop_context_t * option string :=
  match kmap_node with
  | [] => (None, lc, sp) (* No more kmaps *)
  | km :: prev =>
      let node := if is_top then Some (bindings km) else node in
      match _editor_get_kbinding_node h node inp lc is_peek with
      | (Some binding, again, lc1) =>
          if again then
            (* Need more input on current node *)
            (None,
             if is_peek then lc1
             else set_binding_node (Some binding) (set_need_more_input true lc1),
             sp)
          else
            match h !! binding with
            | Some b =>
                match funcref b with
                | Some f =>
                    (* Found leaf! *)
                    (Some f, lc1, if is_peek then sp else static_param b)
                | None =>
                    if bool_decide (children b = ∅) then (None, lc1, sp)
                    else
                      (* Need more input on next node *)
                      (None,
                       if is_peek then lc1
                       else set_binding_node (Some binding)
                              (set_need_more_input true lc1),
                       sp)
                end
            | None => (None, lc1, sp)
            end
      | (None, _, lc1) =>
          if bool_decide (node = Some (bindings km)) then
            (* Binding not found at top level *)
            match default_funcref km with
            | Some d => (Some d, lc1, sp) (* Fallback to default *)
            | None =>
                if bool_decide (allow_fallthru km = 0)
                then (None, lc1, sp) (* Fallback not allowed *)
                else get_command_loop h inp is_peek prev node true lc1 sp
            end
          else (None, lc1, sp) (* Binding not found *)
      end
  end.

(** [_editor_get_command]: [kmap_tail] is [editor->active->kmap_tail],
    [ctx_input] is [ctx->input].  Returns the command reference (or NULL),
    the loop context and [ctx->static_param]. *)
Definition _editor_get_command `{mle_h} (h : gmap ptr kbinding_t)
    (kmap_tail : kmap_node_t) (ctx_input : kinput_t)
    (opt_peek_input : option kinput_t) (lc : loop_context_t)
    (sp : option string)
  : option funcref_p * loop_context_t * option string :=
  let is_peek := match opt_peek_input with Some _ => true | None => false end in
  let inp := match opt_peek_input with Some i => i | None => ctx_input end in
  let node := binding_node lc in
  let is_top := match node with None => true | Some _ => false end in
  let lc0 := set_binding_node None (set_need_more_input false lc) in
  get_command_loop h inp is_peek kmap_tail node is_top lc0 sp.

(** ** Event-loop dispatch *)

(** What [tb_poll_event] and [tb_peek_event] report, in the order the
    terminal produces it.  [TbQuiet] stands for an instant at which nothing
    is ready: a peek with timeout 0 returns 0 there, a blocking poll waits
    past it. *)
Inductive tb_event :=
  | TbError
  | TbQuiet
  | TbResize (w h : Z)
  | TbKey (k : kinput_t).

(** [cmd_context_t].  Its field [static_param] is spelled
    [ctx_static_param]; [pastebuf] is the list of its first [pastebuf_len]
    cells (the capacity [pastebuf_size] is not modelled), and [cursor],
    [bview] and [udata] belong to the views. *)
Record cmd_context_t := CmdCtx {
  input : kinput_t;
  ctx_static_param : option string;
  is_user_input : bool;
  pastebuf : list kinput_t;
  has_pastebuf_leftover : bool;
  pastebuf_leftover : kinput_t
}.

Definition set_ctx_static_param (v : option string) (c : cmd_context_t) :=
  CmdCtx (input c) v (is_user_input c) (pastebuf c)
    (has_pastebuf_leftover c) (pastebuf_leftover c).
Definition set_pastebuf (v : list kinput_t) (c : cmd_context_t) :=
  CmdCtx (input c) (ctx_static_param c) (is_user_input c) v
    (has_pastebuf_leftover c) (pastebuf_leftover c).
Definition set_pastebuf_leftover (v : kinput_t) (c : cmd_context_t) :=
  CmdCtx (input c) (ctx_static_param c) (is_user_input c) (pastebuf c)
    true v.
Definition set_input (k : kinput_t) (user : bool) (c : cmd_context_t) :=
  CmdCtx k (ctx_static_param c) user (pastebuf c)
    (has_pastebuf_leftover c) (pastebuf_leftover c).

(** The state one turn of [_editor_loop] works on: the trie store and the
    keymap stack of the active view, the command registry, the terminal,
    the command context, the loop context, and the rest of the editor
    ([W]: views, buffers, cursors), which only commands touch. *)
Record loop_state (W : Type) := LoopState {
  st_kbindings : gmap ptr kbinding_t;
  st_kmap_tail : kmap_node_t;
  st_func_map : gmap string cmd_funcref_t;
  st_tty : list tb_event;
  st_ctx : cmd_context_t;
  st_loop_ctx : loop_context_t;
  st_world : W
}.
Arguments LoopState {W}.
Arguments st_kbindings {W}.
Arguments st_kmap_tail {W}.
Arguments st_func_map {W}.
Arguments st_tty {W}.
Arguments st_ctx {W}.
Arguments st_loop_ctx {W}.
Arguments st_world {W}.

(** The command functions are collaborators: [cmd_call fn st] is the effect
    of the C call [cmd_fn(&cmd_ctx)]. *)
Class commands (W : Type) := Commands {
  cmd_call : cmd_func_t -> loop_state W -> loop_state W
}.

(** [_editor_resolve_funcref]: returns [ref->func], looked up by name and
    memoized when it was still NULL. *)
Definition _editor_resolve_funcref (fm : gmap string cmd_funcref_t)
    (ref : funcref_p) : option cmd_func_t * gmap string cmd_funcref_t :=
  match fm !! ref with
  | Some r =>
      match func r with
      | Some f => (Some f, fm)
      | None =>
          match fm !! fname r with
          | Some resolved =>
              (func resolved, <[ref := Funcref (fname r) (func resolved)]> fm)
          | None => (None, fm)
          end
      end
  | None => (None, fm)
  end.

(** [funcref && funcref->func == cmd_insert_data] *)
Definition is_insert_data (fm : gmap string cmd_funcref_t)
    (ref : option funcref_p) : bool :=
  match ref with
  | Some r =>
      match fm !! r with
      | Some fr => bool_decide (func fr = Some fn_cmd_insert_data)
      | None => false
      end
  | None => false
  end.

(** [_editor_ingest_paste]: the peek loop, started with an empty paste
    buffer.  Every iteration consumes one report of the terminal.  The
    redraw on a resize acts on the views only. *)
Fixpoint ingest_paste_loop `{mle_h} (h : gmap ptr kbinding_t)
    (kmap_tail : kmap_node_t) (fm : gmap string cmd_funcref_t)
    (tty : list tb_event) (ctx : cmd_context_t) (lc : loop_context_t)
  : list tb_event * cmd_context_t * loop_context_t :=
  match tty with
  | [] => (tty, ctx, lc) (* Timeout *)
  | TbError :: tty' => (tty', ctx, lc) (* Error *)
  | TbQuiet :: tty' => (tty', ctx, lc) (* Timeout *)
  | TbResize _ _ :: tty' => (tty', ctx, lc) (* Resize *)
  | TbKey k :: tty' =>
      match _editor_get_command h kmap_tail (input ctx) (Some k) lc
              (ctx_static_param ctx) with
      | (fr, lc1, sp1) =>
          let ctx1 := set_ctx_static_param sp1 ctx in
          if is_insert_data fm fr then
            (* Insert data; keep ingesting *)
            ingest_paste_loop h kmap_tail fm tty'
              (set_pastebuf (pastebuf ctx1 ++ [k]) ctx1) lc1
          else
            (* Not insert data; set leftover and stop ingesting *)
            (tty', set_pastebuf_leftover k ctx1, lc1)
      end
  end.

Definition _editor_ingest_paste `{mle_h} (h : gmap ptr kbinding_t)
    (kmap_tail : kmap_node_t) (fm : gmap string cmd_funcref_t)
    (tty : list tb_event) (ctx : cmd_context_t) (lc : loop_context_t)
  : list tb_event * cmd_context_t * loop_context_t :=
  ingest_paste_loop h kmap_tail fm tty (set_pastebuf [] ctx) lc.

(** What one turn of the loop did with its input. *)
Inductive dispatch_outcome :=
  | Executed (cmd_ref : funcref_p) (cmd_fn : cmd_func_t)
             (ctx_at_call : cmd_context_t) (lc_at_call : loop_context_t)
  | Unresolved (cmd_ref : funcref_p)
  | NeedMoreInput
  | Unbound.

(** The assignments of [_editor_loop] that follow [cmd_fn(&cmd_ctx)]. *)
Definition loop_after_cmd (cmd_ref : funcref_p) (lc : loop_context_t)
  : loop_context_t :=
  set_last_cmd (Some cmd_ref)
    (set_numeric_params [] (set_wildcard_params [] (set_binding_node None lc))).

(** The dispatch part of the body of [_editor_loop]: from the call of
    [_editor_get_command] to the end of the iteration. *)
Definition editor_loop_dispatch `{mle_h} {W} `{commands W} (st : loop_state W)
  : dispatch_outcome * loop_state W :=
  let h := st_kbindings st in
  let kt := st_kmap_tail st in
  let ctx := st_ctx st in
  match _editor_get_command h kt (input ctx) None (st_loop_ctx st)
          (ctx_static_param ctx) with
  | (Some cmd_ref, lc1, sp1) =>
      (* Found command in kmap trie, now resolve *)
      let ctx1 := set_ctx_static_param sp1 ctx in
      match _editor_resolve_funcref (st_func_map st) cmd_ref with
      | (Some cmd_fn, fm1) =>
          (* Resolved, now execute *)
          let '(tty2, ctx2, lc2) :=
            if is_user_input ctx1 && bool_decide (cmd_fn = fn_cmd_insert_data)
            then _editor_ingest_paste h kt fm1 (st_tty st) ctx1 lc1
            else (st_tty st, ctx1, lc1) in
          let st3 :=
            cmd_call cmd_fn (LoopState h kt fm1 tty2 ctx2 lc2 (st_world st)) in
          (Executed cmd_ref cmd_fn ctx2 lc2,
           LoopState (st_kbindings st3) (st_kmap_tail st3) (st_func_map st3)
             (st_tty st3) (st_ctx st3)
             (loop_after_cmd cmd_ref (st_loop_ctx st3)) (st_world st3))
      | (None, fm1) =>
          (Unresolved cmd_ref,
           LoopState h kt fm1 (st_tty st) ctx1 lc1 (st_world st))
      end
  | (None, lc1, sp1) =>
      let ctx1 := set_ctx_static_param sp1 ctx in
      if need_more_input lc1 then
        (* Need more input to find *)
        (NeedMoreInput,
         LoopState h kt (st_func_map st) (st_tty st) ctx1 lc1 (st_world st))
      else
        (* Not found, bad command *)
        (Unbound,
         LoopState h kt (st_func_map st) (st_tty st) ctx1
           (set_binding_node None lc1) (st_world st))
  end.

(** One turn of the loop whose acquired input is [k] (no async work, no
    macro toggle), and a run of such turns. *)
Definition editor_loop_turn `{mle_h} {W} `{commands W} (k : kinput_t)
    (user : bool) (st : loop_state W) : dispatch_outcome * loop_state W :=
  editor_loop_dispatch
    (LoopState (st_kbindings st) (st_kmap_tail st) (st_func_map st) (st_tty st)
       (set_input k user (st_ctx st)) (st_loop_ctx st) (st_world st)).

Fixpoint editor_loop_turns `{mle_h} {W} `{commands W} (ks : list kinput_t)
    (user : bool) (st : loop_state W)
  : list dispatch_outcome * loop_state W :=
  match ks with
  | [] => ([], st)
  | k :: ks' =>
      let '(o, st1) := editor_loop_turn k user st in
      let '(os, st2) := editor_loop_turns ks' user st1 in
      (o :: os, st2)
  end.

(** ** Macro engine and input acquisition *)

(** [kmacro_t].  [inputs] is NULL ([None]) until the first keystroke is
    recorded; otherwise it holds the first [inputs_len] cells. *)
Record kmacro_t := Kmacro {
  macro_name : option string;
  inputs : option (list kinput_t);
  inputs_cap : Z
}.

Definition macro_inputs (m : kmacro_t) : list kinput_t :=
  match inputs m with Some l => l | None => [] end.
Definition inputs_len (m : kmacro_t) : Z := Z.of_nat (length (macro_inputs m)).

(** [_editor_record_macro_input] *)
Definition _editor_record_macro_input (macro : kmacro_t) (inp : kinput_t)
  : kmacro_t :=
  match inputs macro with
  | None => Kmacro (macro_name macro) (Some [inp]) 8
  | Some l =>
      let cap := if inputs_cap macro <? inputs_len macro + 1
                 then inputs_len macro + 8 else inputs_cap macro in
      Kmacro (macro_name macro) (Some (l ++ [inp])) cap
  end.

(** The part of the editor and of the command context that
    [editor_get_input] works on.  Macros are shared objects: [macros] is
    their store, [macro_record] and [macro_apply] are addresses in it. *)
Record input_state := InputState {
  macros : gmap ptr kmacro_t;
  macro_record : option ptr;
  is_recording_macro : bool;
  macro_apply : option ptr;
  macro_apply_input_index : nat;
  tty : list tb_event;
  ictx : cmd_context_t
}.

(** The polling loop of [_editor_get_user_input]: errors and resizes are
    skipped (the resize redraws the views).  [None]: the terminal never
    delivers a key, the call blocks for ever. *)
Fixpoint poll_event (tty : list tb_event) : option (kinput_t * list tb_event) :=
  match tty with
  | [] => None
  | TbKey k :: tty' => Some (k, tty')
  | _ :: tty' => poll_event tty'
  end.

(** [_editor_get_user_input] *)
Definition _editor_get_user_input (tty : list tb_event) (ctx : cmd_context_t)
  : option (list tb_event * cmd_context_t) :=
  (* Reset pastebuf *)
  let ctx := set_pastebuf [] ctx in
  if has_pastebuf_leftover ctx then
    Some (tty,
          CmdCtx (pastebuf_leftover ctx) (ctx_static_param ctx)
            (is_user_input ctx) (pastebuf ctx) false (pastebuf_leftover ctx))
  else
    match poll_event tty with
    | Some (k, tty') =>
        Some (tty',
              CmdCtx k (ctx_static_param ctx) (is_user_input ctx) (pastebuf ctx)
                (has_pastebuf_leftover ctx) (pastebuf_leftover ctx))
    | None => None
    end.

Definition set_is_user_input (v : bool) (c : cmd_context_t) :=
  CmdCtx (input c) (ctx_static_param c) v (pastebuf c)
    (has_pastebuf_leftover c) (pastebuf_leftover c).

(** The inputs of the macro being replayed, if any. *)
Definition apply_inputs (s : input_state) : list kinput_t :=
  match macro_apply s with
  | Some m => match macros s !! m with Some k => macro_inputs k | None => [] end
  | None => []
  end.

(** [editor_get_input]: get input from either macro or user, then record
    it.  The cell [inputs[i]] exists exactly when [i < inputs_len], so the
    test of the replay branch is the success of the lookup.  [None] when
    the terminal blocks for ever. *)
Definition editor_get_input (s : input_state) : option input_state :=
  let ctx0 := set_is_user_input false (ictx s) in
  let from_user (idx : nat) :=
    match _editor_get_user_input (tty s) ctx0 with
    | Some (tty', ctx1) => Some (None, idx, tty', set_is_user_input true ctx1)
    | None => None
    end in
  let acquired : option (option ptr * nat * list tb_event * cmd_context_t) :=
    match macro_apply s with
    | Some m =>
        match apply_inputs s !! macro_apply_input_index s with
        | Some k =>
            (* Get input from macro *)
            Some (Some m, S (macro_apply_input_index s), tty s,
                  set_input k false ctx0)
        | None =>
            (* Clear macro, get user input *)
            from_user O
        end
    | None => from_user (macro_apply_input_index s)
    end in
  match acquired with
  | Some (ma, idx, tty', ctx1) =>
      let macros' :=
        match is_recording_macro s, macro_record s with
        | true, Some r =>
            (* Record macro input *)
            match macros s !! r with
            | Some m => <[r := _editor_record_macro_input m (input ctx1)]> (macros s)
            | None => macros s
            end
        | _, _ => macros s
        end in
      Some (InputState macros' (macro_record s) (is_recording_macro s)
              ma idx tty' ctx1)
  | None => None
  end.

(** [n] successive calls of [editor_get_input]. *)
Fixpoint editor_get_inputs (n : nat) (s : input_state) : option input_state :=
  match n with
  | O => Some s
  | S n' =>
      match editor_get_input s with
      | Some s' => editor_get_inputs n' s'
      | None => None
      end
  end.

(** The keystrokes recorded so far in the macro being recorded. *)
Definition recorded (s : input_state) : list kinput_t :=
  match macro_record s with
  | Some r => match macros s !! r with Some m => macro_inputs m | None => [] end
  | None => []
  end.

(** ** Views, the active view and prompts *)

(** The view types that the core names. *)
Inductive bview_type :=
  | MLE_BVIEW_TYPE_EDIT
  | MLE_BVIEW_TYPE_STATUS
  | MLE_BVIEW_TYPE_PROMPT.

Global Instance bview_type_eq_dec : EqDecision bview_type.
Proof. solve_decision. Defined.

(** [bview_t], the fields the core reads and writes.  [kmap_tail] is the
    keymap stack; [buffer_data] is the text of the view's buffer;
    rectangles, viewports and cursors are not modelled. *)
Record bview_t := Bview {
  btype : bview_type;
  split_parent : option ptr;
  split_child : option ptr;
  kmap_tail : kmap_node_t;
  prompt_str : option string;
  listeners : list N;
  buffer_data : list Z
}.

(** [editor_t], the fields that concern views.  [bviews] is the store of
    the view objects; [all_bviews] is the circular list read from its head
    along [all_next]; [top_bviews] is the list of top-level views. *)
Record editor_t := Editor {
  bviews : gmap ptr bview_t;
  all_bviews : list ptr;
  top_bviews : list ptr;
  active : option ptr;
  active_edit : option ptr;
  active_edit_root : option ptr;
  prompt : option ptr
}.

(** [editor_prompt_params_t] *)
Record editor_prompt_params_t := PromptParams {
  kmap : option kmap_t;
  prompt_cb : option N;
  data : option (list Z);
  data_len : Z
}.

(** The collaborators of the view functions: the allocator of view objects
    and the walk to the root of a split ([bview.c]), and the nested run of
    the event loop inside a prompt, whose turns are those of
    [editor_loop_dispatch] and whose net effect on the views and on the
    loop context is all that [editor_prompt] uses. *)
Class view_collab := ViewCollab {
  bview_new : editor_t -> ptr * bview_t;
  bview_get_split_root : gmap ptr bview_t -> option ptr -> option ptr;
  _editor_loop : editor_t -> loop_context_t -> editor_t * loop_context_t
}.

(** Modelled from the spec: the macro [MLE_RETURN_ERR] of [mle.h], which is
    not among the files of the core.  It reports its message and makes the
    enclosing function return ERR; the message is not part of the state
    modelled here. *)
Definition MLE_RETURN_ERR {A} (e : A) : mle_rc * A := (MLE_ERR, e).

(** Modelled from the spec: the macro [MLE_BVIEW_IS_EDIT] of [mle.h]: the
    type of the view is EDIT. *)
Definition MLE_BVIEW_IS_EDIT (e : editor_t) (bview : option ptr) : bool :=
  match bview with
  | Some p =>
      match bviews e !! p with
      | Some v => bool_decide (btype v = MLE_BVIEW_TYPE_EDIT)
      | None => false
      end
  | None => false
  end.

(** [editor_bview_exists]: the [CDL_FOREACH2] walk over [all_bviews]. *)
Fixpoint bview_exists_loop (l : list ptr) (bview : option ptr) : bool :=
  match l with
  | [] => false
  | tmp :: l' =>
      if bool_decide (Some tmp = bview) then true
      else bview_exists_loop l' bview
  end.

Definition editor_bview_exists (e : editor_t) (bview : option ptr) : bool :=
  bview_exists_loop (all_bviews e) bview.

(** [editor_set_active]; [bview_rectify_viewport] acts on the viewport. *)
Definition editor_set_active `{view_collab} (e : editor_t) (bview : option ptr)
  : mle_rc * editor_t :=
  if negb (editor_bview_exists e bview) then MLE_RETURN_ERR e
  else if bool_decide (prompt e <> None) then MLE_RETURN_ERR e
  else
    let e1 := Editor (bviews e) (all_bviews e) (top_bviews e) bview
                (active_edit e) (active_edit_root e) (prompt e) in
    let e2 :=
      if MLE_BVIEW_IS_EDIT e1 bview then
        Editor (bviews e1) (all_bviews e1) (top_bviews e1) (active e1)
          bview (bview_get_split_root (bviews e1) bview) (prompt e1)
      else e1 in
    (MLE_OK, e2).

Definition set_bviews (v : gmap ptr bview_t) (e : editor_t) :=
  Editor v (all_bviews e) (top_bviews e) (active e) (active_edit e)
    (active_edit_root e) (prompt e).
Definition set_prompt (v : option ptr) (e : editor_t) :=
  Editor (bviews e) (all_bviews e) (top_bviews e) (active e) (active_edit e)
    (active_edit_root e) v.

Definition set_split_child (v : option ptr) (b : bview_t) :=
  Bview (btype b) (split_parent b) v (kmap_tail b) (prompt_str b)
    (listeners b) (buffer_data b).

(** [editor_open_bview] for [opt_path == NULL], which is how the core calls
    it from prompts and from the closing of views.  Resizing and the move
    to [linenum] act on geometry and cursors.  Returns the editor and the
    address written to [*optret_bview]. *)
Definition editor_open_bview `{view_collab} (e : editor_t) (parent : option ptr)
    (type : bview_type) (make_active : bool) : editor_t * ptr :=
  let '(p, fresh_view) := bview_new e in
  let bview := Bview type (split_parent fresh_view) (split_child fresh_view)
                 (kmap_tail fresh_view) (prompt_str fresh_view)
                 (listeners fresh_view) (buffer_data fresh_view) in
  (* CDL_PREPEND2 *)
  let e1 := Editor (<[p := bview]> (bviews e)) (p :: all_bviews e) (top_bviews e)
              (active e) (active_edit e) (active_edit_root e) (prompt e) in
  let e2 :=
    match parent with
    | None =>
        (* DL_APPEND2 *)
        Editor (bviews e1) (all_bviews e1) (top_bviews e1 ++ [p])
          (active e1) (active_edit e1) (active_edit_root e1) (prompt e1)
    | Some q =>
        match bviews e1 !! q with
        | Some pv => set_bviews (<[q := set_split_child (Some p) pv]> (bviews e1)) e1
        | None => e1
        end
    end in
  let e3 := if make_active then (editor_set_active e2 (Some p)).2 else e2 in
  (e3, p).

(** Neighbours in the circular list [all_bviews]. *)
Definition ring_index (l : list ptr) (b : ptr) : option nat :=
  fst <$> list_find (fun x => x = b) l.
Definition all_prev (e : editor_t) (b : ptr) : option ptr :=
  match ring_index (all_bviews e) b with
  | Some i =>
      all_bviews e !! ((i + length (all_bviews e) - 1) `mod` length (all_bviews e))%nat
  | None => None
  end.
Definition all_next (e : editor_t) (b : ptr) : option ptr :=
  match ring_index (all_bviews e) b with
  | Some i => all_bviews e !! ((i + 1) `mod` length (all_bviews e))%nat
  | None => None
  end.

Definition bview_field {A} (e : editor_t) (b : ptr) (f : bview_t -> option A)
  : option A :=
  match bviews e !! b with Some v => f v | None => None end.

(** [_editor_close_bview_inner].  The recursion follows [split_child];
    [fuel] bounds its depth and [None] means the bound was reached.
    Returns the result, the editor and the number of views closed. *)
Fixpoint _editor_close_bview_inner `{view_collab} (fuel : nat) (e : editor_t)
    (bview : ptr) : option (mle_rc * editor_t * nat) :=
  match fuel with
  | O => None
  | S fuel' =>
      if negb (editor_bview_exists e (Some bview)) then Some (MLE_ERR, e, O)
      else
        let closed_child :=
          match bview_field e bview split_child with
          | Some c =>
              match _editor_close_bview_inner fuel' e c with
              | Some (_, e', n) => Some (e', n)
              | None => None
              end
          | None => Some (e, O)
          end in
        match closed_child with
        | None => None
        | Some (e1, n) =>
            let e2 :=
              match bview_field e1 bview split_parent with
              | Some sp =>
                  let e' :=
                    match bviews e1 !! sp with
                    | Some pv =>
                        set_bviews (<[sp := set_split_child None pv]> (bviews e1)) e1
                    | None => e1
                    end in
                  (editor_set_active e' (Some sp)).2
              | None =>
                  let prev := all_prev e1 bview in
                  let next := all_next e1 bview in
                  if bool_decide (prev <> None) && bool_decide (prev <> Some bview)
                     && MLE_BVIEW_IS_EDIT e1 prev
                  then (editor_set_active e1 prev).2
                  else if bool_decide (next <> None)
                          && bool_decide (next <> Some bview)
                          && MLE_BVIEW_IS_EDIT e1 next
                  then (editor_set_active e1 next).2
                  else (editor_open_bview e1 None MLE_BVIEW_TYPE_EDIT true).1
              end in
            let top' :=
              match bview_field e2 bview split_parent with
              | None => filter (fun x => x <> bview) (top_bviews e2)
              | Some _ => top_bviews e2
              end in
            (* CDL_DELETE2, bview_destroy *)
            Some (MLE_OK,
                  Editor (delete bview (bviews e2))
                    (filter (fun x => x <> bview) (all_bviews e2)) top'
                    (active e2) (active_edit e2) (active_edit_root e2) (prompt e2),
                  S n)
        end
  end.

(** [editor_close_bview]; the resize that follows a successful close acts
    on geometry. *)
Definition editor_close_bview `{view_collab} (fuel : nat) (e : editor_t)
    (bview : ptr) : option (mle_rc * editor_t * nat) :=
  _editor_close_bview_inner fuel e bview.

(** The steps of [editor_prompt] from [// Init prompt] to the nested
    loop: the prompt view is opened and made active, [editor->prompt] is
    set to it, and the view gets the listener, the title, the keymap and
    the initial text.  [kmap_prompt_input] is [editor->kmap_prompt_input];
    [bview_add_listener], [bview_push_kmap] and [buffer_insert] are read
    as their effect on the fields of the prompt view.  The result is the
    editor in which the nested loop starts. *)
Definition editor_prompt_init `{view_collab} (e : editor_t)
    (prompt_title : string) (params : option editor_prompt_params_t)
    (kmap_prompt_input : kmap_t) : editor_t :=
  (* Init prompt *)
  let '(e1, p) := editor_open_bview e None MLE_BVIEW_TYPE_PROMPT true in
  let e1 := set_prompt (Some p) e1 in
  let km :=
    match params with
    | Some pr => match kmap pr with Some k => k | None => kmap_prompt_input end
    | None => kmap_prompt_input
    end in
  let cb := match params with Some pr => prompt_cb pr | None => None end in
  (* Insert data if present *)
  let ins :=
    match params with
    | Some pr =>
        match data pr with
        | Some d =>
            if 0 <? data_len pr then take (Z.to_nat (data_len pr)) d else []
        | None => []
        end
    | None => []
    end in
  match bviews e1 !! p with
  | Some v =>
      set_bviews
        (<[p := Bview (btype v) (split_parent v) (split_child v)
                  (km :: kmap_tail v) (Some prompt_title)
                  (match cb with Some c => listeners v ++ [c] | None => listeners v end)
                  (ins ++ buffer_data v)]> (bviews e1)) e1
  | None => e1
  end.

(** [editor_prompt].  [optret_answer] tells whether the caller passed a
    non-null out-parameter; the second component of the result is then
    [Some a] with [a] the value stored in it, and [None] when nothing was
    stored. *)
Definition editor_prompt `{view_collab} (fuel : nat) (e : editor_t)
    (prompt_title : string) (params : option editor_prompt_params_t)
    (kmap_prompt_input : kmap_t) (optret_answer : bool)
  : option (mle_rc * option (option string) * editor_t) :=
  (* Disallow nested prompts *)
  if bool_decide (prompt e <> None) then
    Some (MLE_ERR, if optret_answer then Some None else None, e)
  else
    (* Init loop_ctx *)
    let loop_ctx := set_invoker (active e) loop_ctx_zero in
    (* Init prompt, insert data if present *)
    let e2 := editor_prompt_init e prompt_title params kmap_prompt_input in
    (* Loop inside prompt *)
    let '(e3, loop_ctx') := _editor_loop e2 loop_ctx in
    (* Set answer *)
    let answer := if optret_answer then Some (prompt_answer loop_ctx') else None in
    (* Restore previous focus *)
    let bview_tmp := prompt e3 in
    let e4 := set_prompt None e3 in
    match bview_tmp with
    | Some bt =>
        match editor_close_bview fuel e4 bt with
        | Some (_, e5, _) =>
            Some (MLE_OK, answer, (editor_set_active e5 (invoker loop_ctx')).2)
        | None => None
        end
    | None =>
        Some (MLE_OK, answer, (editor_set_active e4 (invoker loop_ctx')).2)
    end.

(** Modelled from the spec: the macro [MLE_BVIEW_IS_PROMPT] of [mle.h]:
    the type of the view is PROMPT. *)
Definition MLE_BVIEW_IS_PROMPT (e : editor_t) (bview : option ptr) : bool :=
  match bview with
  | Some p =>
      match bviews e !! p with
      | Some v => bool_decide (btype v = MLE_BVIEW_TYPE_PROMPT)
      | None => false
      end
  | None => false
  end.

(** The prompt views among the views of the editor, in the order of
    [all_bviews], and their number. *)
Definition prompt_views (e : editor_t) : list ptr :=
  filter (fun p => MLE_BVIEW_IS_PROMPT e (Some p) = true) (all_bviews e).

Definition prompt_view_count (e : editor_t) : nat :=
  length (prompt_views e).

(** The prompt views of the editor are the view [editor->prompt], if it
    is set, and no other. *)
Definition one_prompt (e : editor_t) : Prop :=
  prompt_views e = match prompt e with Some p => [p] | None => [] end.

(** [e'] has no prompt view that [e] has not. *)
Definition no_new_prompt (e' e : editor_t) : Prop :=
  forall q v, q ∈ all_bviews e' -> bviews e' !! q = Some v ->
    btype v = MLE_BVIEW_TYPE_PROMPT ->
    q ∈ all_bviews e /\
    exists v0, bviews e !! q = Some v0 /\ btype v0 = MLE_BVIEW_TYPE_PROMPT.

(** ** C strings *)

(** The bytes of a C string read from [s]: up to the first NUL. *)
Fixpoint c_string (s : list Z) : list Z :=
  match s with
  | [] => []
  | c :: r => if bool_decide (c = 0) then [] else c :: c_string r
  end.

(** [strlen] *)
Definition strlen (s : list Z) : nat := length (c_string s).

(** The memory at the address of a string held in an array: the bytes of
    the string, then NUL. *)
Definition mem_of (s : list Z) (i : nat) : Z := nth i s 0.

(** The bytes of a string literal. *)
Fixpoint bytes_of (s : string) : list Z :=
  match s with
  | EmptyString => []
  | String a r => Z.of_N (Ascii.N_of_ascii a) :: bytes_of r
  end.

(** ** Quoting an argument for the shell *)

(** [tb_utf8_char_length] of termbox: the length in bytes of the character
    that a first byte announces. *)
Class termbox_h := TermboxH {
  tb_utf8_char_length : Z -> Z
}.

(** The [for] loop of [util_escape_shell_arg].  [str] is the memory at
    [str], byte by offset: the [memcpy] of a multibyte character reads
    [mb_len] bytes from it, wherever the character starts and whatever
    [l] is.  Every iteration moves [x] forward, so [fuel] equal to [l] is
    never used up.  [cmd] is the part of the result written so far. *)
Fixpoint escape_loop `{termbox_h} (fuel : nat) (str : nat -> Z) (l x : nat)
    (cmd : list Z) : list Z :=
  match fuel with
  | O => cmd
  | S fuel' =>
      if (x <? l)%nat then
        let mb_len := tb_utf8_char_length (str x) in
        (* skip non-valid multibyte characters *)
        if mb_len <? 0 then escape_loop fuel' str l (S x) cmd
        else if 1 <? mb_len then
          escape_loop fuel' str l (x + Z.to_nat mb_len)%nat
            (cmd ++ map str (seq x (Z.to_nat mb_len)))
        else if str x =? 39 then
          escape_loop fuel' str l (S x) (cmd ++ [39; 92; 39; str x])
        else escape_loop fuel' str l (S x) (cmd ++ [str x])
      else cmd
  end.

(** [util_escape_shell_arg]: the bytes written to [cmd], in order, from
    [cmd[0]] to the final NUL; [4 * l + 3] bytes are allocated for them.
    The string returned is what [c_string] reads from these bytes: a NUL
    copied by the [memcpy] ends it early. *)
Definition util_escape_shell_arg `{termbox_h} (str : nat -> Z) (l : nat) : list Z :=
  escape_loop l str l 0 [39] ++ [39; 0].

(** The quoted form of a byte that is a character of its own. *)
Definition escape_byte (c : Z) : list Z :=
  if c =? 39 then [39; 92; 39; c] else [c].

(** ** Running a shell command *)

(** What [select] and [read] deliver to [util_shell_exec], one turn of its
    loop after the other: an error of [select], an error of [read], or the
    bytes of a [read], none at end of file.  When the list is used up
    nothing more arrives and [select] times out. *)
Inductive shell_turn :=
  | SelectError
  | ReadError
  | ReadBytes (bs : list Z).

(** The process side of a shell run is a collaborator.  [popen2_ok cmd]
    tells whether [util_popen2] returns 1 for the command (its pipes and
    its fork are calls of the system); [shell_turns cmd] is what the
    process then delivers; [heap_after cmd] are the bytes that lie in
    memory behind the output collected, as far as a reader of the buffer
    as a C string goes: up to the first NUL. *)
Class shell := Shell {
  popen2_ok : list Z -> bool;
  shell_turns : list Z -> list shell_turn;
  heap_after : list Z -> list Z
}.

(** The read loop of [util_shell_exec] for [input_len = 0].  [readbuf] is
    [None] while the buffer is NULL, else the [readbuf_len] bytes
    collected so far.  Returns [rv] and [readbuf]. *)
Fixpoint shell_read_loop (turns : list shell_turn) (readbuf : option (list Z))
  : mle_rc * option (list Z) :=
  match turns with
  | [] => (MLE_ERR, readbuf) (* Timed out *)
  | SelectError :: _ => (MLE_ERR, readbuf) (* Err on select *)
  | ReadError :: _ =>
      (* read err or EAGAIN/EWOULDBLOCK *)
      (MLE_ERR, Some (default [] readbuf))
  | ReadBytes bs :: rest =>
      (* Read a kilobyte of data *)
      let got := take 1024 bs in
      let buf := default [] readbuf ++ got in
      if (0 <? length got)%nat then shell_read_loop rest (Some buf) (* Got data *)
      else (MLE_OK, Some buf)
  end.

(** [util_shell_exec] without input for the command ([input_len = 0]),
    which is how the completion calls it.  Returns the result and what is
    stored in [*ret_output]: [None] when the function returns before it
    stores anything, [Some None] for NULL, [Some (Some buf)] for a buffer
    whose first [readbuf_len] bytes are [buf].  No NUL is written behind
    these bytes; [*ret_output_len] is their number. *)
Definition util_shell_exec `{shell} (cmd : list Z)
  : mle_rc * option (option (list Z)) :=
  (* Open cmd *)
  if negb (popen2_ok cmd) then MLE_RETURN_ERR None
  else
    (* Read-write loop *)
    let '(rv, readbuf) := shell_read_loop (shell_turns cmd) None in
    (rv, Some readbuf).

(** A read that delivers data: at least one byte and at most 1024. *)
Definition chunk_ok (c : list Z) : Prop := c <> [] /\ (length c <= 1024)%nat.

(** ** Tab completion in the input prompt *)

(** The part of the editor that the completion command works on: the text
    of the prompt's buffer, the loop context and the command registry. *)
Record complete_state := CompleteState {
  prompt_buffer : list Z;
  c_loop_ctx : loop_context_t;
  c_func_map : gmap string cmd_funcref_t
}.

(** [buffer->first_line->data]: the text before the first newline. *)
Fixpoint first_line (s : list Z) : list Z :=
  match s with
  | [] => []
  | c :: r => if bool_decide (c = 10) then [] else c :: first_line r
  end.

(** [snprintf(dst, size, "%.*s", len, src)] as the C string left in [dst]. *)
Definition snprintf_s (size : Z) (len : Z) (src : list Z) : list Z :=
  take (Z.to_nat (size - 1)) (c_string (take (Z.to_nat len) src)).

(** The counting loop over [strchr(term, '\n')]. *)
Fixpoint count_newlines (s : list Z) : Z :=
  match s with
  | [] => 0
  | c :: r => (if bool_decide (c = 10) then 1 else 0) + count_newlines r
  end.

(** The successive results of [strtok(terms, "\n")], [strtok(NULL, "\n")],
    ...: the maximal non-empty runs without a newline.  [cur] is the run
    being read, in reverse. *)
Fixpoint strtok_newline (cur : list Z) (s : list Z) : list (list Z) :=
  match s with
  | [] => match cur with [] => [] | _ => [rev cur] end
  | c :: r =>
      if bool_decide (c = 10) then
        match cur with
        | [] => strtok_newline [] r
        | _ => rev cur :: strtok_newline [] r
        end
      else strtok_newline (c :: cur) r
  end.

(** [loop_ctx->last_cmd && loop_ctx->last_cmd->func == fn] *)
Definition last_cmd_is (fm : gmap string cmd_funcref_t) (lc : loop_context_t)
    (fn : cmd_func_t) : bool :=
  match last_cmd lc with
  | Some r =>
      match fm !! r with
      | Some fr => bool_decide (func fr = Some fn)
      | None => false
      end
  | None => false
  end.

(** The command that [asprintf] assembles for the term: [compgen -f],
    the quoted term, and [| sort].  The term lies in the array
    [tab_complete_term]; the bytes of the array behind its NUL can reach
    the quoted argument only behind a NUL, where [%s] stops. *)
Definition compgen_cmd `{termbox_h} (term : list Z) : list Z :=
  let cmd_arg := util_escape_shell_arg (mem_of term) (strlen term) in
  bytes_of "compgen -f " ++ c_string cmd_arg ++ bytes_of " | sort".

(** [_editor_prompt_input_complete].  [None]: [terms] is NULL and the C
    code reads through it.  [terms] is read as a C string: the bytes that
    [util_shell_exec] collected and, since it does not terminate them,
    the bytes behind them up to the first NUL.  The function always
    returns [MLE_OK]. *)
Definition _editor_prompt_input_complete `{mle_h} `{termbox_h} `{shell}
    (st : complete_state) : option complete_state :=
  let lc := c_loop_ctx st in
  let line := first_line (prompt_buffer st) in
  (* Update tab_complete_term and tab_complete_index *)
  let updated : option loop_context_t :=
    if last_cmd_is (c_func_map st) lc fn_editor_prompt_input_complete then
      Some (set_tab_complete_index (tab_complete_index lc + 1) lc)
    else if Z.of_nat (length line) <? MLE_LOOP_CTX_MAX_COMPLETE_TERM_SIZE then
      Some (set_tab_complete_index 0
              (set_tab_complete_term
                 (snprintf_s MLE_LOOP_CTX_MAX_COMPLETE_TERM_SIZE
                    (Z.of_nat (length line)) line) lc))
    else None in
  match updated with
  | None => Some st
  | Some lc1 =>
      (* Assemble compgen command *)
      let cmd := compgen_cmd (tab_complete_term lc1) in
      (* Run compgen command *)
      let terms : option (list Z) :=
        match (util_shell_exec cmd).2 with
        | Some output => output
        | None => None
        end in
      match terms with
      | None => None
      | Some buf =>
          let terms := c_string (buf ++ heap_after cmd) in
          (* Get number of terms *)
          let num_terms := count_newlines terms in
          (* Bail if no terms *)
          if num_terms <? 1 then
            Some (CompleteState (prompt_buffer st) lc1 (c_func_map st))
          else
            (* Determine term index *)
            let term_index := Z.rem (tab_complete_index lc1) num_terms in
            (* Set prompt input to term *)
            match strtok_newline [] terms !! Z.to_nat term_index with
            | Some term => Some (CompleteState term lc1 (c_func_map st))
            | None => Some (CompleteState (prompt_buffer st) lc1 (c_func_map st))
            end
      end
  end.

(** One press of [tab] in the input prompt: the command, then the
    assignments of the loop that follow it ([cmd_ref] is the reference the
    key is bound to); and a streak of presses. *)
Definition tab_press `{mle_h} `{termbox_h} `{shell} (cmd_ref : funcref_p)
    (st : complete_state) : option complete_state :=
  match _editor_prompt_input_complete st with
  | Some st1 =>
      Some (CompleteState (prompt_buffer st1)
              (loop_after_cmd cmd_ref (c_loop_ctx st1)) (c_func_map st1))
  | None => None
  end.

Fixpoint tab_presses `{mle_h} `{termbox_h} `{shell} (n : nat) (cmd_ref : funcref_p)
    (st : complete_state) : option complete_state :=
  match n with
  | O => Some st
  | S n' =>
      match tab_press cmd_ref st with
      | Some st1 => tab_presses n' cmd_ref st1
      | None => None
      end
  end.

(** The output of the shell for a list of candidates: one per line, each
    followed by a newline. *)
Definition terms_of (cands : list (list Z)) : list Z :=
  concat (map (fun c => c ++ [10]) cands).

(** A candidate as the shell prints it on a line of its own: not empty,
    without newline and without NUL. *)
Definition candidate_ok (c : list Z) : Prop := c <> [] /\ (10 ∉ c) /\ (0 ∉ c).

(** The loop context in the course of a streak: the term is [stem], the
    index is [i] and the last command is the completion. *)
Definition in_streak (fm : gmap string cmd_funcref_t) (cmd_ref : funcref_p)
    (stem : list Z) (i : nat) (st : complete_state) : Prop :=
  c_func_map st = fm /\
  last_cmd (c_loop_ctx st) = Some cmd_ref /\
  tab_complete_term (c_loop_ctx st) = stem /\
  tab_complete_index (c_loop_ctx st) = Z.of_nat i.

(** ** Async multiplexer *)

Record timeval := Timeval { tv_sec : Z; tv_usec : Z }.

(** [util_timeval_is_gt]: return 1 if a > b, else return 0. *)
Definition util_timeval_is_gt (a b : timeval) : bool :=
  if tv_sec b <? tv_sec a then true
  else if tv_sec a =? tv_sec b then
    (if tv_usec b <? tv_usec a then true else false)
  else false.

(** The streams of the C library are collaborators: [fread f n] gives the
    bytes read (at most [n]) and the stream after the read. *)
Class stdio := Stdio {
  FILE : Type;
  fread : FILE -> Z -> list Z * FILE;
  ferror : FILE -> bool;
  feof : FILE -> bool
}.

(** [async_proc_t], the fields the multiplexer uses. *)
Record async_proc_t `{stdio} := AsyncProc {
  pipefd : Z;
  pipe : FILE;
  is_done : bool;
  timeout : timeval
}.

(** The arguments of one call of a proc's callback, after the proc. *)
Record callback_args := CallbackArgs {
  cb_buf : option (list Z);
  cb_nbytes : Z;
  cb_is_error : bool;
  cb_is_eof : bool;
  cb_is_done : bool
}.

(** The callbacks are collaborators: [callback aproc args] is the proc as
    the call [aproc->callback(aproc, ...)] leaves it. *)
Class aproc_callbacks `{stdio} := AprocCallbacks {
  callback : async_proc_t -> callback_args -> async_proc_t
}.

(** The fields of the editor the multiplexer uses: [ttyfd] is [Some fd]
    once [editor->tty] is open. *)
Record async_state `{stdio} := AsyncState {
  ttyfd : option Z;
  async_procs : list async_proc_t
}.

(** The body of the [DL_FOREACH_SAFE] loop for one proc: the calls made to
    its callback, and the proc if it survives; [None] when
    [async_proc_destroy] has removed it from the list. *)
Definition drain_proc `{aproc_callbacks} (readfds : gset Z) (now : timeval)
    (aproc : async_proc_t) : list (Z * callback_args) * option async_proc_t :=
  (* Read and invoke callback *)
  let '(done, aproc1, calls) :=
    if bool_decide (pipefd aproc ∈ readfds) then
      let '(buf, pipe1) := fread (pipe aproc) 1024 in
      let nbytes := Z.of_nat (length buf) in
      let aproc0 := AsyncProc _ (pipefd aproc) pipe1 (is_done aproc) (timeout aproc) in
      let '(aproc1, calls) :=
        if 0 <? nbytes then
          let args := CallbackArgs (Some buf) nbytes (ferror pipe1) (feof pipe1) false in
          (callback aproc0 args, [(pipefd aproc0, args)])
        else (aproc0, []) in
      (ferror (pipe aproc1) || feof (pipe aproc1), aproc1, calls)
    else (false, aproc, []) in
  (* Close and free if eof, error, or timeout *)
  if done || is_done aproc1 || util_timeval_is_gt (timeout aproc1) now then
    (calls ++ [(pipefd aproc1, CallbackArgs None 0 false false true)], None)
  else (calls, Some aproc1).

Fixpoint drain_procs `{aproc_callbacks} (readfds : gset Z) (now : timeval)
    (procs : list async_proc_t)
  : list (Z * callback_args) * list async_proc_t :=
  match procs with
  | [] => ([], [])
  | aproc :: rest =>
      let '(calls, survivor) := drain_proc readfds now aproc in
      let '(calls', rest') := drain_procs readfds now rest in
      (calls ++ calls',
       match survivor with Some a => a :: rest' | None => rest' end)
  end.

(** [_editor_drain_async_procs].  [tty_open] is the descriptor that
    [fopen("/dev/tty")] would deliver ([None]: it fails); [rc] and [readfds]
    are the result of [select] and the set it leaves in [readfds]; [now] is
    the time read after it.  Returns the result, the editor, and the calls
    made to callbacks. *)
Definition _editor_drain_async_procs `{aproc_callbacks} (e : async_state)
    (tty_open : option Z) (rc : Z) (readfds : gset Z) (now : timeval)
  : Z * async_state * list (Z * callback_args) :=
  (* Open tty if not already open *)
  let opened := match ttyfd e with Some fd => Some fd | None => tty_open end in
  match opened with
  | None => (0, e, [])
  | Some fd =>
      let e1 := AsyncState _ (Some fd) (async_procs e) in
      if rc <? 0 then (0, e1, [])
      else if rc =? 0 then (1, e1, []) (* Nothing to ready, call again *)
      else if bool_decide (fd ∈ readfds) then
        (* Immediately give priority to user input *)
        (0, e1, [])
      else
        (* Read async procs *)
        let '(calls, procs') := drain_procs readfds now (async_procs e1) in
        (1, AsyncState _ (Some fd) procs', calls)
  end.

(** ** Classification of a resolution *)

Inductive classification :=
  | Resolved (cmd_ref : funcref_p)
  | NeedMore
  | NotBound.

(** How the loop reads the result of [_editor_get_command]. *)
Definition classify (r : option funcref_p * loop_context_t * option string)
  : classification :=
  match r.1.1 with
  | Some f => Resolved f
  | None => if need_more_input r.1.2 then NeedMore else NotBound
  end.

(** What a turn handed to the command it executed: the command reference,
    and the numeric and wildcard parameters at the call. *)
Definition executed_cmd (o : dispatch_outcome) : option funcref_p :=
  match o with Executed r _ _ _ => Some r | _ => None end.

Definition delivered_params (o : dispatch_outcome) : option (list Z * list Z) :=
  match o with
  | Executed _ _ _ lc => Some (numeric_params lc, wildcard_params lc)
  | _ => None
  end.

(** The node a resolution starts from: [binding_node] if set, else the
    root of the keymap on top of the stack. *)
Definition start_node (km : kmap_t) (lc : loop_context_t) : ptr :=
  match binding_node lc with Some p => p | None => bindings km end.

(** The roots at which a resolution from the top level looks [inp] up by
    exact match: the root of the keymap on top and, as long as the lookup
    misses in a keymap without default command that allows fallthru, the
    roots of the keymaps beneath. *)
Fixpoint fallthru_roots (h : gmap ptr kbinding_t) (inp : kinput_t)
    (stack : kmap_node_t) : list ptr :=
  match stack with
  | [] => []
  | km :: prev =>
      bindings km ::
      match node_children h (Some (bindings km)) !! inp, default_funcref km with
      | None, None =>
          if bool_decide (allow_fallthru km = 0) then []
          else fallthru_roots h inp prev
      | _, _ => []
      end
  end.

(** The nodes at which a resolution looks [inp] up by exact match: the
    node it starts from and, if that is the root of the keymap on top,
    the roots beneath as above. *)
Definition consulted_nodes (h : gmap ptr kbinding_t) (inp : kinput_t)
    (stack : kmap_node_t) (lc : loop_context_t) : list ptr :=
  match stack with
  | [] => []
  | km :: prev =>
      start_node km lc ::
      match node_children h (Some (start_node km lc)) !! inp, default_funcref km with
      | None, None =>
          if bool_decide (start_node km lc = bindings km)
             && negb (bool_decide (allow_fallthru km = 0))
          then fallthru_roots h inp prev
          else []
      | _, _ => []
      end
  end.

(** At node [p] the input [inp] meets none of the edges that only a
    committing lookup follows: no wildcard edge if the exact match
    misses, and no numeric edge if it is a digit. *)
Definition exact_only `{mle_h} (h : gmap ptr kbinding_t) (inp : kinput_t) (p : ptr)
  : Prop :=
  (node_children h (Some p) !! inp = None ->
   node_children h (Some p) !! MLE_KINPUT_WILDCARD = None) /\
  (is_digit_ch (ch inp) = true ->
   node_children h (Some p) !! MLE_KINPUT_NUMERIC = None).

(** The loop context while digits accumulate at node [p] along the
    numeric edge to [nn]: [digits] have been appended to the buffer. *)
Definition lc_pending (p nn : ptr) (digits : list Z) (lc : loop_context_t)
  : loop_context_t :=
  LoopCtx (invoker lc) (numeric lc ++ digits) (Some nn) (numeric_params lc)
    (wildcard_params lc) (Some p) true (should_exit lc) (prompt_answer lc)
    (last_cmd lc) (tab_complete_term lc) (tab_complete_index lc).

(** ** Sample configuration

    A 64-bit configuration of the constants, and small keymaps in the
    shape of the built-in ones: [mle_normal] with the chord [M-y ## u],
    the key [C-a] and the default command [cmd_insert_data], and
    [mle_prompt_input], which has no default command and allows fallthru;
    and two keymaps as a user can define them. *)

Definition sample_h : mle_h :=
  MleH 20 8 8 256 (Kinput 64 4294967295 65535) (Kinput 128 4294967295 65535)
    18446744073709551615.

Definition key_M_y := Kinput 1 121 0.
Definition key_M_z := Kinput 1 122 0.
Definition key_M_m := Kinput 1 109 0.
Definition key_u := Kinput 0 117 0.
Definition key_x := Kinput 0 120 0.
Definition key_1 := Kinput 0 49 0.
Definition key_2 := Kinput 0 50 0.
Definition key_C_a := Kinput 0 0 1.
Definition key_tab := Kinput 0 0 9.

Definition sample_trie : gmap ptr kbinding_t :=
  list_to_map [
    (* mle_normal: M-y ## u, C-a *)
    (1%positive, Kbinding (Kinput 0 0 0)
         (list_to_map [(key_M_y, 2%positive); (key_C_a, 5%positive)]) None None);
    (2%positive, Kbinding key_M_y
         (list_to_map [(@MLE_KINPUT_NUMERIC sample_h, 3%positive)]) None None);
    (3%positive, Kbinding (@MLE_KINPUT_NUMERIC sample_h)
         (list_to_map [(key_u, 4%positive)]) None None);
    (4%positive, Kbinding key_u ∅ (Some "cmd_move_relative"%string) (Some "up"%string));
    (5%positive, Kbinding key_C_a ∅ (Some "cmd_move_bol"%string) None);
    (* mle_prompt_input: tab *)
    (10%positive, Kbinding (Kinput 0 0 0)
         (list_to_map [(key_tab, 11%positive)]) None None);
    (11%positive, Kbinding key_tab ∅
         (Some "_editor_prompt_input_complete"%string) None);
    (* a user keymap: M-z ## ** *)
    (20%positive, Kbinding (Kinput 0 0 0)
         (list_to_map [(key_M_z, 21%positive)]) None None);
    (21%positive, Kbinding key_M_z
         (list_to_map [(@MLE_KINPUT_NUMERIC sample_h, 22%positive)]) None None);
    (22%positive, Kbinding (@MLE_KINPUT_NUMERIC sample_h)
         (list_to_map [(@MLE_KINPUT_WILDCARD sample_h, 23%positive)]) None None);
    (23%positive, Kbinding (@MLE_KINPUT_WILDCARD sample_h) ∅
         (Some "cmd_user"%string) None);
    (* a user keymap: ## x at the root *)
    (30%positive, Kbinding (Kinput 0 0 0)
         (list_to_map [(@MLE_KINPUT_NUMERIC sample_h, 31%positive)]) None None);
    (31%positive, Kbinding (@MLE_KINPUT_NUMERIC sample_h)
         (list_to_map [(key_x, 32%positive)]) None None);
    (32%positive, Kbinding key_x ∅ (Some "cmd_user"%string) None)
  ].

(** A user keymap with [M-z **], a wildcard edge right behind a key. *)
Definition wildcard_trie : gmap ptr kbinding_t :=
  list_to_map [
    (40%positive, Kbinding (Kinput 0 0 0)
         (list_to_map [(key_M_z, 41%positive)]) None None);
    (41%positive, Kbinding key_M_z
         (list_to_map [(@MLE_KINPUT_WILDCARD sample_h, 42%positive)]) None None);
    (42%positive, Kbinding (@MLE_KINPUT_WILDCARD sample_h) ∅
         (Some "cmd_user"%string) None)
  ].

(** The loop context after [M-y] in [mle_normal]: the chord is pending at
    node 2. *)
Definition lc_after_M_y : loop_context_t :=
  LoopCtx None [] None [] [] (Some 2%positive) true false None None [] 0.

(** The loop context after [M-y 1] in [mle_normal]: the count [1] is in
    the numeric buffer. *)
Definition lc_count_pending : loop_context_t :=
  LoopCtx None [49] (Some 3%positive) [] [] (Some 2%positive) true false None None [] 0.

(** The loop context after [M-z] in the user keymap with [M-z **]. *)
Definition lc_mark_pending : loop_context_t :=
  LoopCtx None [] None [] [] (Some 41%positive) true false None None [] 0.

(** The loop context after [M-z] in the user keymap with [M-z ## **]. *)
Definition lc_after_M_z : loop_context_t :=
  LoopCtx None [] None [] [] (Some 21%positive) true false None None [] 0.

(** The loop context after [M-y 1] in [mle_normal] when the array of
    numeric parameters is full. *)
Definition lc_params_full : loop_context_t :=
  LoopCtx None [49] (Some 3%positive) (replicate 8 7) [] (Some 2%positive)
    true false None None [] 0.

Definition kmap_normal : kmap_t :=
  Kmap "mle_normal" 1%positive (Some "cmd_insert_data"%string) 0.
Definition kmap_prompt_input : kmap_t :=
  Kmap "mle_prompt_input" 10%positive None 1.
Definition kmap_prompt_input_nofallthru : kmap_t :=
  Kmap "mle_prompt_input" 10%positive None 0.
Definition kmap_user_wildcard : kmap_t :=
  Kmap "user_wildcard" 20%positive None 0.
Definition kmap_user_count : kmap_t :=
  Kmap "user_count" 30%positive (Some "cmd_insert_data"%string) 0.
Definition kmap_user_mark : kmap_t :=
  Kmap "user_mark" 40%positive None 0.

Definition sample_func_map : gmap string cmd_funcref_t :=
  list_to_map [
    ("cmd_insert_data"%string, Funcref "cmd_insert_data" (Some fn_cmd_insert_data));
    ("cmd_move_bol"%string, Funcref "cmd_move_bol" (Some (fn_extern 1)));
    ("cmd_move_relative"%string, Funcref "cmd_move_relative" (Some (fn_extern 2)));
    ("cmd_user"%string, Funcref "cmd_user" (Some (fn_extern 3)));
    ("_editor_prompt_input_complete"%string,
       Funcref "_editor_prompt_input_complete" (Some fn_editor_prompt_input_complete))
  ].

(** Commands that leave the state of the loop alone. *)
Definition commands_idle : commands unit := Commands unit (fun _ st => st).

Definition sample_ctx : cmd_context_t :=
  CmdCtx (Kinput 0 0 0) None false [] false (Kinput 0 0 0).

Definition sample_state (stack : list kmap_t) (lc : loop_context_t)
  : loop_state unit :=
  LoopState sample_trie stack sample_func_map [] sample_ctx lc tt.

(** The turns of the loop for the keys [ks] typed by the user, from rest,
    in a view whose keymap stack is [stack]. *)
Definition run_keys (stack : list kmap_t) (ks : list kinput_t)
  : list dispatch_outcome * loop_state unit :=
  @editor_loop_turns sample_h unit commands_idle ks true
    (sample_state stack loop_ctx_zero).

(** A recording in progress (macro 1) while macro 2, of two keystrokes, is
    being replayed: the recording holds the chord [M-m x] that started the
    replay of the macro named [x]; the terminal holds one key. *)
Definition sample_input_state : input_state :=
  InputState
    (list_to_map [
       (1%positive, Kmacro (Some "rec"%string) (Some [key_M_m; key_x]) 8);
       (2%positive, Kmacro (Some "x"%string) (Some [key_1; key_2]) 8)])
    (Some 1%positive) true (Some 2%positive) 0 [TbKey key_u] sample_ctx.

(** Collaborators of the views that do nothing of their own: fresh views
    are empty EDIT views at address 100, a view is its own split root, and
    the nested loop returns at once. *)
Definition sample_views : view_collab :=
  ViewCollab
    (fun _ => (100%positive, Bview MLE_BVIEW_TYPE_EDIT None None [] None [] []))
    (fun _ b => b)
    (fun e lc => (e, lc)).

(** An editor with an EDIT view (1) and an open prompt (2). *)
Definition editor_with_prompt : editor_t :=
  Editor
    (list_to_map [
       (1%positive, Bview MLE_BVIEW_TYPE_EDIT None None [kmap_normal] None [] []);
       (2%positive, Bview MLE_BVIEW_TYPE_PROMPT None None
            [kmap_prompt_input; kmap_normal] (Some "record_macro: Name?"%string) [] [])])
    [2%positive; 1%positive] [1%positive; 2%positive]
    (Some 2%positive) (Some 1%positive) (Some 1%positive) (Some 2%positive).

(** The same editor once the prompt is closed, with a second EDIT view. *)
Definition editor_without_prompt : editor_t :=
  Editor
    (list_to_map [
       (1%positive, Bview MLE_BVIEW_TYPE_EDIT None None [kmap_normal] None [] []);
       (3%positive, Bview MLE_BVIEW_TYPE_EDIT None None [kmap_normal] None [] [])])
    [3%positive; 1%positive] [1%positive; 3%positive]
    (Some 1%positive) (Some 1%positive) (Some 1%positive) None.

(** Streams as the bytes still to come and a flag telling that the writer
    has closed its end. *)
Definition sample_stdio : stdio :=
  Stdio (list Z * bool)
    (fun f n => (take (Z.to_nat n) f.1, (drop (Z.to_nat n) f.1, f.2)))
    (fun _ => false)
    (fun f => f.2 && bool_decide (f.1 = [])).

Definition sample_callbacks : @aproc_callbacks sample_stdio :=
  @AprocCallbacks sample_stdio (fun a _ => a).

(** Two silent procs at time 50 s: proc 5 has its deadline at 100 s, proc 6
    had it at 10 s. *)
Definition proc_deadline_ahead : @async_proc_t sample_stdio :=
  @AsyncProc sample_stdio 5 ([], false) false (Timeval 100 0).
Definition proc_deadline_passed : @async_proc_t sample_stdio :=
  @AsyncProc sample_stdio 6 ([], false) false (Timeval 10 0).
Definition sample_async_state : @async_state sample_stdio :=
  @AsyncState sample_stdio (Some 3)
    [proc_deadline_ahead; proc_deadline_passed].

(** A third proc, whose pipe is at end of file, and the editor with the
    three procs. *)
Definition proc_at_eof : @async_proc_t sample_stdio :=
  @AsyncProc sample_stdio 7 ([], true) false (Timeval 100 0).
Definition sample_async_three : @async_state sample_stdio :=
  @AsyncState sample_stdio (Some 3)
    [proc_deadline_ahead; proc_deadline_passed; proc_at_eof].

(** The lengths of characters by their first byte as termbox has them in
    its table [utf8_length]: bytes below C0 and the bytes FE and FF count
    as characters of one byte. *)
Definition termbox_utf8 : termbox_h :=
  TermboxH (fun c => if c <? 192 then 1 else if c <? 224 then 2
                     else if c <? 240 then 3 else if c <? 248 then 4
                     else if c <? 252 then 5 else if c <? 254 then 6 else 1).

(** A shell whose completion of any term is [foo] and [fox], delivered in
    one read and followed by end of file; behind the output the buffer
    holds [!] and a NUL. *)
Definition cand_foo : list Z := [102; 111; 111].
Definition cand_fox : list Z := [102; 111; 120].
Definition sample_shell : shell :=
  Shell (fun _ => true)
    (fun _ => [ReadBytes (terms_of [cand_foo; cand_fox]); ReadBytes []])
    (fun _ => [33; 0]).

(** The same shell when the buffer holds [zz], a newline and a NUL behind
    the output. *)
Definition stale_shell : shell :=
  Shell (fun _ => true)
    (fun _ => [ReadBytes (terms_of [cand_foo; cand_fox]); ReadBytes []])
    (fun _ => [122; 122; 10; 0]).

(** The bytes of [it's] and of an e with acute accent, and the byte FC,
    which announces a character of six bytes. *)
Definition sample_arg : list Z := [105; 116; 39; 115; 195; 169].
Definition lone_lead_byte : list Z := [252].

(** The input prompt holding [fo], before the first press of [tab]. *)
Definition sample_complete_state : complete_state :=
  CompleteState [102; 111] loop_ctx_zero sample_func_map.

(** ** The command registry *)

(** [editor_register_cmd]: the registry after the call and the handle
    written to [*optret_funcref].  The function always returns [MLE_OK]. *)
Definition editor_register_cmd (fm : gmap string cmd_funcref_t) (name : string)
    (opt_func : option cmd_func_t) : gmap string cmd_funcref_t * funcref_p :=
  match fm !! name with
  | Some funcref =>
      (match opt_func with
       | Some f => <[name := Funcref (fname funcref) (Some f)]> fm
       | None => fm
       end, name)
  | None => (<[name := Funcref name opt_func]> fm, name)
  end.

(** ** Brackets *)

(** [util_get_bracket_pair]: the paired bracket, or 0.  [optret_is_closing]
    is [None] for a null pointer and else the value of the cell it points
    to; the second component is that cell after the call. *)
Definition util_get_bracket_pair (c : Z) (optret_is_closing : option bool)
  : Z * option bool :=
  let store (v : bool) :=
    match optret_is_closing with Some _ => Some v | None => None end in
  if c =? 91 then (93, store false)        (* '[' *)
  else if c =? 40 then (41, store false)   (* '(' *)
  else if c =? 123 then (125, store false) (* '{' *)
  else if c =? 93 then (91, store true)    (* ']' *)
  else if c =? 41 then (40, store true)    (* ')' *)
  else if c =? 125 then (123, store true)  (* '}' *)
  else (0, optret_is_closing).

(** The keystrokes among the reports of the terminal. *)
Definition keys_of (tty : list tb_event) : list kinput_t :=
  omap (fun ev => match ev with TbKey k => Some k | _ => None end) tty.

(** The leftover keystroke of the command context, if one is set. *)
Definition leftover_of (ctx : cmd_context_t) : list kinput_t :=
  if has_pastebuf_leftover ctx then [pastebuf_leftover ctx] else [].

(** The three arrays of [loop_context_t] hold at most as many cells as
    their declared sizes. *)
Definition lc_in_bounds `{mle_h} (lc : loop_context_t) : Prop :=
  numeric_len lc <= MLE_LOOP_CTX_MAX_NUMERIC_LEN /\
  numeric_params_len lc <= MLE_LOOP_CTX_MAX_NUMERIC_PARAMS /\
  wildcard_params_len lc <= MLE_LOOP_CTX_MAX_WILDCARD_PARAMS.

(** ** Building the keymaps *)

(** What [_editor_key_to_input] takes from outside the core: the table of
    named keys of [keys.h] (one [MLE_KEY_DEF] per entry, in the order of
    the file) and, from termbox, the ALT modifier and the decoder of the
    first UTF-8 character of a string. *)
Class keys_h := KeysH {
  MLE_KEY_DEFS : list (string * kinput_t);
  TB_MOD_ALT : Z;
  utf8_char_to_unicode : string -> Z
}.

(** The chain of [MLE_KEY_DEF] tests: the first entry whose name is the
    key. *)
Fixpoint key_def_lookup (key : string) (defs : list (string * kinput_t))
  : option kinput_t :=
  match defs with
  | [] => None
  | (pckey, inp) :: defs' =>
      if String.eqb pckey key then Some inp else key_def_lookup key defs'
  end.

(** [strncmp] [(p, key, 2) == 0] for a two-character [p]. *)
Definition starts_with (p key : string) : bool :=
  String.eqb (String.substring 0 (String.length p) key) p.

(** [_editor_key_to_input]: [*ret_input] is zeroed first. *)
Definition _editor_key_to_input `{keys_h} (key : string) : mle_rc * kinput_t :=
  let keylen := String.length key in
  if (keylen <? 1)%nat then (MLE_ERR, Kinput 0 0 0)
  else
    (* Check for special key *)
    match key_def_lookup key MLE_KEY_DEFS with
    | Some inp => (MLE_OK, inp)
    | None =>
        (* Check for character, with potential ALT modifier *)
        let '(kmod, key) :=
          if (2 <? keylen)%nat && starts_with "M-" key
          then (TB_MOD_ALT, String.substring 2 (keylen - 2) key)
          else (0, key) in
        let ch := utf8_char_to_unicode key in
        if ch <? 1 then (MLE_ERR, Kinput 0 0 0)
        else (MLE_OK, Kinput kmod ch 0)
    end.

(** [strchr(key_patt, ' ')] followed by the cut: the token before the
    first space and, if there is a space, the rest after it. *)
Fixpoint strchr_space (s : string) : string * option string :=
  match s with
  | EmptyString => (EmptyString, None)
  | String c s' =>
      if Ascii.eqb c Ascii.Space then (EmptyString, Some s')
      else let '(t, r) := strchr_space s' in (String c t, r)
  end.

(** The tokens that the successive cuts of a key pattern produce: the
    pattern split at every single space (see [key_tokens_strchr]). *)
Fixpoint key_tokens (s : string) : string * list string :=
  match s with
  | EmptyString => (EmptyString, [])
  | String c s' =>
      let '(t, ts) := key_tokens s' in
      if Ascii.eqb c Ascii.Space then (EmptyString, t :: ts) else (String c t, ts)
  end.

(** The token of a key pattern as an input. *)
Definition key_patt_input `{mle_h} `{keys_h} (key_patt : string)
  : option kinput_t :=
  if String.eqb "##" key_patt then Some MLE_KINPUT_NUMERIC
  else if String.eqb "**" key_patt then Some MLE_KINPUT_WILDCARD
  else match _editor_key_to_input key_patt with
       | (MLE_OK, inp) => Some inp
       | (MLE_ERR, _) => None
       end.

(** [calloc(1, sizeof(kbinding_t))]: an address that holds no node. *)
Class allocator := Allocator {
  calloc_kbinding : gmap ptr kbinding_t -> ptr;
  calloc_fresh : forall h, h !! calloc_kbinding h = None
}.

Definition add_child (inp : kinput_t) (n : ptr) (b : kbinding_t) : kbinding_t :=
  Kbinding (binding_input b) (<[inp := n]> (children b)) (funcref b)
    (static_param b).
Definition set_leaf (fref : funcref_p) (sp : option string) (b : kbinding_t)
  : kbinding_t :=
  Kbinding (binding_input b) (children b) (Some fref) sp.

(** The block of [_editor_init_kmap_add_binding_to_trie] that finds the
    node for [inp] in the table of [trie], or adds a zeroed node for it:
    the node and the store.  [trie] is the address of the node whose
    [children] table the C code receives a pointer to; writing through a
    [trie] that holds no node changes nothing (the C code would fault). *)
Definition trie_find_or_add `{allocator} (h : gmap ptr kbinding_t) (trie : ptr)
    (inp : kinput_t) : ptr * gmap ptr kbinding_t :=
  match node_children h (Some trie) !! inp with
  | Some n => (n, h)
  | None =>
      let n := calloc_kbinding h in
      (n, alter (add_child inp n) trie (<[n := Kbinding inp ∅ None None]> h))
  end.

(** [_editor_init_kmap_add_binding_to_trie].  [key_patt] is the first
    token of the pattern and [next_key] the tokens of the rest ([[]] for
    [next_key == NULL]); [free] removes the node from the store and leaves
    every edge to it in place. *)
Fixpoint _editor_init_kmap_add_binding_to_trie `{mle_h} `{keys_h} `{allocator}
    (h : gmap ptr kbinding_t) (trie : ptr) (fref : funcref_p)
    (key_patt : string) (next_key : list string) (sp : option string)
  : mle_rc * gmap ptr kbinding_t :=
  (* Parse key_patt token as input *)
  match key_patt_input key_patt with
  | None => (MLE_ERR, h)
  | Some inp =>
      (* Add node for input if it doesn't already exist *)
      let '(node, h1) := trie_find_or_add h trie inp in
      match next_key with
      | k :: ks =>
          (* Recurse for next key *)
          match _editor_init_kmap_add_binding_to_trie h1 node fref k ks sp with
          | (MLE_OK, h2) => (MLE_OK, h2)
          | (MLE_ERR, h2) => (MLE_ERR, delete node h2)
          end
      | [] =>
          (* Leaf node, set funcref *)
          (MLE_OK, alter (set_leaf fref sp) node h1)
      end
  end.

(** [_editor_init_kmap_add_binding]: the result of the insertion is
    dropped. *)
Definition _editor_init_kmap_add_binding `{mle_h} `{keys_h} `{allocator}
    (fm : gmap string cmd_funcref_t) (h : gmap ptr kbinding_t) (kmap : kmap_t)
    (cmd_name : string) (key_patt : string) (sp : option string)
  : gmap string cmd_funcref_t * gmap ptr kbinding_t :=
  let '(fm1, fref) := editor_register_cmd fm cmd_name None in
  let '(t, ts) := key_tokens key_patt in
  (fm1, (_editor_init_kmap_add_binding_to_trie h (bindings kmap) fref t ts sp).2).

(** The descent from [node] along exact edges. *)
Fixpoint trie_walk (h : gmap ptr kbinding_t) (node : ptr) (path : list kinput_t)
  : option ptr :=
  match path with
  | [] => Some node
  | inp :: path' =>
      match node_children h (Some node) !! inp with
      | Some n => trie_walk h n path'
      | None => None
      end
  end.

(** Every edge of the store leads to a node of the store. *)
Definition trie_closed (h : gmap ptr kbinding_t) : Prop :=
  forall p b inp n, h !! p = Some b -> children b !! inp = Some n ->
    is_Some (h !! n).

(** No edge of the store leads to [p]. *)
Definition no_edge_to (h : gmap ptr kbinding_t) (p : ptr) : Prop :=
  forall q b inp, h !! q = Some b -> children b !! inp <> Some p.

(** Every node has at most one edge to it. *)
Definition edge_injective (h : gmap ptr kbinding_t) : Prop :=
  forall p b inp n p' b' inp',
    h !! p = Some b -> children b !! inp = Some n ->
    h !! p' = Some b' -> children b' !! inp' = Some n ->
    p = p' /\ inp = inp'.

(** [h'] has the nodes and the edges of [h], and the commands of [h]
    except at [leaf]. *)
Definition trie_extends (h h' : gmap ptr kbinding_t) (leaf : ptr) : Prop :=
  forall p b, h !! p = Some b ->
    exists b', h' !! p = Some b' /\
      binding_input b' = binding_input b /\
      children b ⊆ children b' /\
      (p <> leaf -> funcref b' = funcref b /\ static_param b' = static_param b).

(** The command and the static parameter bound to a key sequence: those of
    the node that the sequence leads to, if there is one. *)
Definition trie_funcref (h : gmap ptr kbinding_t) (root : ptr)
    (path : list kinput_t) : option funcref_p :=
  match trie_walk h root path with
  | Some n => match h !! n with Some b => funcref b | None => None end
  | None => None
  end.
Definition trie_static_param (h : gmap ptr kbinding_t) (root : ptr)
    (path : list kinput_t) : option string :=
  match trie_walk h root path with
  | Some n => match h !! n with Some b => static_param b | None => None end
  | None => None
  end.

(** A keymap trie in the shape that [_editor_init_kmap] and successful
    insertions give it: the root is a node, every edge leads to a node, no
    edge leads to the root and no node has two edges to it. *)
Definition trie_shaped (h : gmap ptr kbinding_t) (root : ptr) : Prop :=
  is_Some (h !! root) /\ trie_closed h /\ no_edge_to h root /\ edge_injective h.

(** ** Keymaps and bindings from definitions and from strings *)

(** [kbinding_def_t], as [_editor_init_kmap] reads it: the name and the
    function of the command, the key pattern and the static parameter.
    The array of definitions ends at the first [key_patt == NULL]; it is
    the list of the definitions before that one. *)
Record kbinding_def_t := KbindingDef {
  def_name : string;
  def_func : option cmd_func_t;
  def_key_patt : string;
  def_static_param : option string
}.

(** The [while (defs && defs->key_patt)] loop of [_editor_init_kmap]. *)
Fixpoint init_kmap_defs `{mle_h} `{keys_h} `{allocator}
    (fm : gmap string cmd_funcref_t) (h : gmap ptr kbinding_t) (kmap : kmap_t)
    (defs : list kbinding_def_t)
  : gmap string cmd_funcref_t * gmap ptr kbinding_t :=
  match defs with
  | [] => (fm, h)
  | d :: defs' =>
      let '(fm1, _) := editor_register_cmd fm (def_name d) (def_func d) in
      let '(fm2, h2) :=
        _editor_init_kmap_add_binding fm1 h kmap (def_name d) (def_key_patt d)
          (def_static_param d) in
      init_kmap_defs fm2 h2 kmap defs'
  end.

(** [_editor_init_kmap].  [default_funcref] is the name and the function
    of the default command ([None] for [default_funcref.name == NULL]);
    [kmap_map] is the table of keymaps in the order of insertion.  Returns
    the registry, the store of trie nodes, the table of keymaps and
    [*ret_kmap]. *)
Definition _editor_init_kmap `{mle_h} `{keys_h} `{allocator}
    (fm : gmap string cmd_funcref_t) (h : gmap ptr kbinding_t)
    (kmap_map : list kmap_t) (name : string)
    (default_funcref : option (string * option cmd_func_t)) (allow_fallthru : Z)
    (defs : list kbinding_def_t)
  : gmap string cmd_funcref_t * gmap ptr kbinding_t * list kmap_t * kmap_t :=
  let root := calloc_kbinding h in
  let h0 := <[root := Kbinding (Kinput 0 0 0) ∅ None None]> h in
  let '(fm0, dflt) :=
    match default_funcref with
    | Some (dname, dfunc) =>
        let '(fm', ref) := editor_register_cmd fm dname dfunc in (fm', Some ref)
    | None => (fm, None)
    end in
  let kmap := Kmap name root dflt allow_fallthru in
  let '(fm1, h1) := init_kmap_defs fm0 h0 kmap defs in
  (fm1, h1, kmap_map ++ [kmap], kmap).

(** The comma. *)
Definition comma_char : Ascii.ascii := Ascii.ascii_of_nat 44.

(** [strtok] with the delimiter [","]: the tokens that the successive
    calls return, which are the maximal runs of characters other than the
    comma; [strtoks] reads from a position between tokens, [strtok_rest]
    from inside one. *)
Fixpoint strtoks (s : string) : list string :=
  match s with
  | EmptyString => []
  | String c s' =>
      if Ascii.eqb c comma_char then strtoks s'
      else let '(t, ts) := strtok_rest s' in String c t :: ts
  end
with strtok_rest (s : string) : string * list string :=
  match s with
  | EmptyString => (EmptyString, [])
  | String c s' =>
      if Ascii.eqb c comma_char then (EmptyString, strtoks s')
      else let '(t, ts) := strtok_rest s' in (String c t, ts)
  end.

(** [atoi] of the C library. *)
Class stdlib_h := StdlibH {
  atoi : string -> Z
}.

(** [_editor_init_kmap_by_str]: [str] has the format
    [<name>,<default_cmd>,<allow_fallthru>]. *)
Definition _editor_init_kmap_by_str `{mle_h} `{keys_h} `{allocator} `{stdlib_h}
    (fm : gmap string cmd_funcref_t) (h : gmap ptr kbinding_t)
    (kmap_map : list kmap_t) (str : string)
  : mle_rc * option (gmap string cmd_funcref_t * gmap ptr kbinding_t
                     * list kmap_t * kmap_t) :=
  match strtoks str with
  | [] => (MLE_ERR, None)
  | [_] => (MLE_ERR, None)
  | a0 :: a1 :: rest =>
      let a2 := head rest in
      (MLE_OK,
       Some (_editor_init_kmap fm h kmap_map a0
               (match a2 with Some _ => Some (a1, None) | None => None end)
               (atoi (match a2 with Some a => a | None => a1 end)) []))
  end.

(** [_editor_init_kmap_add_binding_by_str]: [str] has the format
    [<cmd>,<key>,<param>]. *)
Definition _editor_init_kmap_add_binding_by_str `{mle_h} `{keys_h} `{allocator}
    (fm : gmap string cmd_funcref_t) (h : gmap ptr kbinding_t) (kmap : kmap_t)
    (str : string)
  : mle_rc * gmap string cmd_funcref_t * gmap ptr kbinding_t :=
  match strtoks str with
  | [] => (MLE_ERR, fm, h)
  | [_] => (MLE_ERR, fm, h)
  | a0 :: a1 :: rest =>
      let '(fm1, h1) := _editor_init_kmap_add_binding fm h kmap a0 a1 (head rest) in
      (MLE_OK, fm1, h1)
  end.

(** The bindings that a list of definitions asks for: the key sequence of
    each pattern with its command and static parameter, in the order of
    the definitions. *)
Definition def_entry (d : kbinding_def_t) (inputs : list kinput_t)
  : list kinput_t * (string * option string) :=
  (inputs, (def_name d, def_static_param d)).

(** The table that a list of bindings describes, a later binding of a key
    sequence replacing an earlier one. *)
Definition bindings_table
    (entries : list (list kinput_t * (string * option string)))
  : gmap (list kinput_t) (string * option string) :=
  foldl (fun t e => <[e.1 := e.2]> t) ∅ entries.

(** A string without a comma. *)
Fixpoint comma_free (s : string) : bool :=
  match s with
  | EmptyString => true
  | String c s' => negb (Ascii.eqb c comma_char) && comma_free s'
  end.

(** The comma as a string. *)
Definition comma : string := String comma_char EmptyString.

(** ** Macros: the toggle key and macros from strings *)

(** The part of the editor that the macro functions work on: the state of
    input acquisition, the toggle key, and [macro_map], the table of the
    macros in the order of insertion. *)
Record macro_state := MacroState {
  ms_input : input_state;
  macro_toggle_key : kinput_t;
  macro_map : list ptr
}.

(** What [_editor_maybe_toggle_macro] takes from outside: the call
    [editor_prompt(editor, "record_macro: Name?", NULL, &name)], whose
    nested loop acts on the whole editor, and which yields the name or
    NULL; and [calloc(1, sizeof(kmacro_t))], an address that holds no
    macro. *)
Class macro_collab := MacroCollab {
  prompt_record_macro_name : macro_state -> option string * macro_state;
  calloc_kmacro : gmap ptr kmacro_t -> ptr;
  calloc_kmacro_fresh : forall m, m !! calloc_kmacro m = None
}.

Definition set_macros (v : gmap ptr kmacro_t) (s : input_state) :=
  InputState v (macro_record s) (is_recording_macro s) (macro_apply s)
    (macro_apply_input_index s) (tty s) (ictx s).
Definition set_recording (r : option ptr) (on : bool) (s : input_state) :=
  InputState (macros s) r on (macro_apply s) (macro_apply_input_index s)
    (tty s) (ictx s).

(** [macro->inputs_len -= 1] when [inputs_len > 0]: the last cell leaves
    the part of the array that counts. *)
Definition drop_last_input (m : kmacro_t) : kmacro_t :=
  if 0 <? inputs_len m
  then Kmacro (macro_name m)
         (match inputs m with Some l => Some (removelast l) | None => None end)
         (inputs_cap m)
  else m.

(** [_editor_maybe_toggle_macro]: the flag returned and the state.  With
    [is_recording_macro] set and [macro_record] NULL or dangling the C
    code would fault; the model leaves the macros alone there. *)
Definition _editor_maybe_toggle_macro `{macro_collab} (s : macro_state)
    (inp : kinput_t) : bool * macro_state :=
  if bool_decide (inp <> macro_toggle_key s) then (false, s)
  else if is_recording_macro (ms_input s) then
    (* Stop recording macro and add to map *)
    let i := ms_input s in
    match macro_record i with
    | Some r =>
        (true,
         MacroState
           (set_recording None false
              (set_macros (alter drop_last_input r (macros i)) i))
           (macro_toggle_key s) (macro_map s ++ [r]))
    | None => (true, MacroState (set_recording None false i)
                       (macro_toggle_key s) (macro_map s))
    end
  else
    (* Get macro name and start recording *)
    let '(name, s1) := prompt_record_macro_name s in
    match name with
    | None => (true, s1)
    | Some n =>
        let i := ms_input s1 in
        let r := calloc_kmacro (macros i) in
        (true,
         MacroState
           (set_recording (Some r) true
              (set_macros (<[r := Kmacro (Some n) None 0]> (macros i)) i))
           (macro_toggle_key s1) (macro_map s1))
    end.

(** [editor_set_macro_toggle_key]: [_editor_key_to_input] writes the key
    in place, also when it fails. *)
Definition editor_set_macro_toggle_key `{keys_h} (s : macro_state) (key : string)
  : mle_rc * macro_state :=
  let '(rc, inp) := _editor_key_to_input key in
  (rc, MacroState (ms_input s) inp (macro_map s)).

(** The statements [editor_get_input(editor, &cmd_ctx)] and
    [_editor_maybe_toggle_macro(editor, &cmd_ctx.input)] at the head of a
    turn of [_editor_loop]: the flag tells whether the turn ends there.
    [None] when the terminal blocks for ever. *)
Definition loop_get_input `{macro_collab} (s : macro_state)
  : option (bool * macro_state) :=
  match editor_get_input (ms_input s) with
  | Some i =>
      let s1 := MacroState i (macro_toggle_key s) (macro_map s) in
      Some (_editor_maybe_toggle_macro s1 (input (ictx i)))
  | None => None
  end.

(** The loop of [_editor_add_macro_by_str] over the tokens that follow
    the name: [None] when a token is not the name of a key. *)
Fixpoint add_macro_inputs `{keys_h} (macro : kmacro_t) (tokens : list string)
  : option kmacro_t :=
  match tokens with
  | [] => Some macro
  | token :: tokens' =>
      match _editor_key_to_input token with
      | (MLE_OK, inp) => add_macro_inputs (_editor_record_macro_input macro inp) tokens'
      | (MLE_ERR, _) => None
      end
  end.

(** [_editor_add_macro_by_str]: the first token names the macro, the
    others are its keys; the macro is added to the table when it has at
    least one key. *)
Definition _editor_add_macro_by_str `{keys_h} `{macro_collab} (s : macro_state)
    (str : string) : mle_rc * macro_state :=
  match strtoks str with
  | [] => (MLE_ERR, s)
  | name :: tokens =>
      match add_macro_inputs (Kmacro (Some name) None 0) tokens with
      | None => (MLE_ERR, s)
      | Some macro =>
          match tokens with
          | [] => (MLE_ERR, s)
          | _ :: _ =>
              let i := ms_input s in
              let r := calloc_kmacro (macros i) in
              (MLE_OK,
               MacroState (set_macros (<[r := macro]> (macros i)) i)
                 (macro_toggle_key s) (macro_map s ++ [r]))
          end
      end
  end.

(** ** The rc file *)

(** [strchr(bol, '\n')] in the buffer [mem], which ends with its NUL:
    the index of the first newline at or after [bol] that no NUL
    precedes. *)
Fixpoint find_newline (l : list Z) (off : nat) : option nat :=
  match l with
  | [] => None
  | c :: l' =>
      if c =? 10 then Some off
      else if c =? 0 then None
      else find_newline l' (S off)
  end.
Definition strchr_newline (mem : list Z) (bol : nat) : option nat :=
  find_newline (drop bol mem) bol.

(** One pass of the [for] loop of [_editor_init_from_rc] over the lines:
    [stop] is the size of the file, [write] tells the second pass, which
    cuts the lines and stores their starts.  Every iteration moves [bol]
    forward, so [fuel] equal to the size is never used up.  Returns the
    buffer, [fargc], and [fargv[1..]]. *)
Fixpoint rc_pass (fuel : nat) (mem : list Z) (stop bol : nat) (write : bool)
    (fargc : Z) (fargv : list nat) : list Z * Z * list nat :=
  match fuel with
  | O => (mem, fargc, fargv)
  | S fuel' =>
      if (bol <? stop)%nat then
        let eol :=
          match strchr_newline mem bol with
          | Some e => e
          | None => (stop - 1)%nat
          end in
        let mem1 := if write then <[eol := 0]> mem else mem in
        let fargv1 := if write then fargv ++ [bol] else fargv in
        rc_pass fuel' mem1 stop (eol + 1)%nat write (fargc + 1) fargv1
      else (mem, fargc, fargv)
  end.

(** The argument vector that [_editor_init_from_rc] hands to
    [_editor_init_from_args] for a file with the bytes [data]: ["mle"]
    and the C strings at the stored starts, or [None] when the file
    gives no argument and [_editor_init_from_args] is not called. *)
Definition rc_argv (data : list Z) : option (list (list Z)) :=
  let size := length data in
  let rc_data := data ++ [0] in
  let '(_, fargc1, _) := rc_pass size rc_data size 0 false 1 [] in
  if fargc1 <? 2 then None
  else
    let '(mem2, _, fargv) := rc_pass size rc_data size 0 true 1 [] in
    Some ([109; 108; 101] :: map (fun b => c_string (drop b mem2)) fargv).

(** [_editor_init_from_rc]; [init_from_args] is [_editor_init_from_args]
    on the state of the editor. *)
Definition _editor_init_from_rc {E} (init_from_args : E -> list (list Z) -> mle_rc * E)
    (e : E) (data : list Z) : mle_rc * E :=
  match rc_argv data with
  | Some argv => init_from_args e argv
  | None => (MLE_OK, e)
  end.

(** The lines of a file, each with its newline, one after the other. *)
Definition rc_lines (ls : list (list Z)) : list Z :=
  concat (map (fun l => l ++ [10]) ls).

(** A line: no newline and no NUL in it. *)
Definition rc_line (l : list Z) : Prop :=
  Forall (fun c => c <> 10 /\ c <> 0) l.

(** ** Sample configuration of the keymap builder

    Two named keys in the manner of [keys.h], ALT as termbox has it, a
    decoder that reads one ASCII character, and an allocator that hands
    out an address above all those in use. *)

Definition first_byte (s : string) : Z :=
  match s with
  | String c _ => Z.of_N (Ascii.N_of_ascii c)
  | EmptyString => 0
  end.

Definition sample_keys : keys_h :=
  KeysH [("C-a"%string, Kinput 0 0 1); ("tab"%string, Kinput 0 0 9)] 1 first_byte.

Definition sample_alloc : allocator :=
  Allocator (fun h => fresh (dom h))
    (fun h => proj1 (not_elem_of_dom h (fresh (dom h))) (is_fresh (dom h))).

(** The trie of a keymap just created: its root and nothing else. *)
Definition new_kmap_trie : gmap ptr kbinding_t :=
  {[ 1%positive := Kbinding (Kinput 0 0 0) ∅ None None ]}.

(** A keymap with the two-key binding [M-y u]. *)
Definition chord_trie : gmap ptr kbinding_t :=
  list_to_map [
    (1%positive, Kbinding (Kinput 0 0 0) (list_to_map [(key_M_y, 2%positive)]) None None);
    (2%positive, Kbinding key_M_y (list_to_map [(key_u, 3%positive)]) None None);
    (3%positive, Kbinding key_u ∅ (Some "cmd_move_bol"%string) (Some "up"%string))
  ].

(** An [atoi] that reads one decimal digit, a name prompt that answers
    [m] at once, and an allocator of macros like the one of trie nodes. *)
Definition sample_stdlib : stdlib_h :=
  StdlibH (fun s => if is_digit_ch (first_byte s) then first_byte s - 48 else 0).

Definition sample_macros : macro_collab :=
  MacroCollab (fun s => (Some "m"%string, s)) (fun m => fresh (dom m))
    (fun m => proj1 (not_elem_of_dom m (fresh (dom m))) (is_fresh (dom m))).

(** The recording of [sample_input_state] with [M-m] as the toggle key
    and the key [M-m] waiting on the terminal. *)
Definition sample_macro_state : macro_state :=
  MacroState
    (InputState
       (list_to_map [(1%positive, Kmacro (Some "rec"%string) (Some [key_u; key_x]) 8)])
       (Some 1%positive) true None 0 [TbKey key_M_m] sample_ctx)
    key_M_m [].

(** * Properties *)

(** ** The resolver: frame and peek lemmas *)

Lemma set_flags_id lc :
  binding_node lc = None -> need_more_input lc = false ->
  set_binding_node None (set_need_more_input false lc) = lc.
Proof. destruct lc; simpl; intros -> ->; reflexivity. Qed.

Lemma get_kbinding_node_peek `{mle_h} h node inp lc :
  _editor_get_kbinding_node h node inp lc true
  = (node_children h node !! inp, false, lc).
Proof.
  unfold _editor_get_kbinding_node.
  destruct (node_children h node !! inp); reflexivity.
Qed.

(** A lookup writes only the numeric and wildcard fields. *)
Lemma get_kbinding_node_frame `{mle_h} h node inp lc is_peek b again lc1 :
  _editor_get_kbinding_node h node inp lc is_peek = (b, again, lc1) ->
  binding_node lc1 = binding_node lc /\
  need_more_input lc1 = need_more_input lc /\
  last_cmd lc1 = last_cmd lc.
Proof.
  unfold _editor_get_kbinding_node.
  intros Heq.
  repeat (case_match; simplify_eq/=); auto.
Qed.

Lemma get_command_loop_peek_frame `{mle_h} h inp stack node is_top lc sp :
  (get_command_loop h inp true stack node is_top lc sp).1.2 = lc /\
  (get_command_loop h inp true stack node is_top lc sp).2 = sp.
Proof.
  revert node is_top.
  induction stack as [|km rest IH]; intros node is_top; simpl; [auto|].
  rewrite get_kbinding_node_peek.
  repeat (case_match; simplify_eq/=); auto.
Qed.

(** With an empty numeric buffer, at a node where the input meets neither
    a wildcard edge after a miss nor, being a digit, a numeric edge or a
    pending numeric node, a committing lookup is the exact-match lookup
    and leaves the loop context alone. *)
Lemma get_kbinding_node_plain `{mle_h} h p inp lc :
  numeric lc = [] ->
  (is_digit_ch (ch inp) = true -> numeric_node lc = None) ->
  exact_only h inp p ->
  _editor_get_kbinding_node h (Some p) inp lc false
  = (node_children h (Some p) !! inp, false, lc).
Proof.
  intros Hn Hnn [Hw Hd]. unfold _editor_get_kbinding_node.
  unfold node_children in *.
  destruct lc as [iv num nn nps wps bn nm se pa lcmd tct tci].
  cbn in Hn, Hnn. subst num.
  destruct (is_digit_ch (ch inp)).
  - rewrite (Hnn eq_refl), (Hd eq_refl). simpl.
    destruct (_ !! inp); [reflexivity|]. rewrite (Hw eq_refl). reflexivity.
  - simpl. destruct (_ !! inp); [reflexivity|]. rewrite (Hw eq_refl). reflexivity.
Qed.

(** From the top level, over roots that are such nodes, peek and commit
    return the same command reference. *)
Lemma get_command_loop_plain `{mle_h} h inp stack lc sp :
  numeric lc = [] ->
  (is_digit_ch (ch inp) = true -> numeric_node lc = None) ->
  Forall (exact_only h inp) (fallthru_roots h inp stack) ->
  forall node,
  (get_command_loop h inp true stack node true lc sp).1.1
  = (get_command_loop h inp false stack node true lc sp).1.1.
Proof.
  intros Hn Hnn. induction stack as [|km rest IH]; intros Hall node; cbn [get_command_loop];
    [reflexivity|].
  cbn [fallthru_roots] in Hall. apply Forall_cons_1 in Hall as [Hkm Hrest].
  rewrite get_kbinding_node_peek, get_kbinding_node_plain by assumption.
  destruct (node_children h (Some (bindings km)) !! inp) as [b|].
  - destruct (h !! b) as [bn|]; [|reflexivity].
    destruct (funcref bn); [reflexivity|]. case_bool_decide; reflexivity.
  - rewrite bool_decide_true by reflexivity.
    destruct (default_funcref km); [reflexivity|].
    destruct (bool_decide (allow_fallthru km = 0)); [reflexivity|].
    apply IH. exact Hrest.
Qed.

(** C1. A miss of the lookup at the node the resolution starts from is
    settled by the keymap-stack policy.  When that node is the root of the
    keymap on top of the stack: the keymap's default command is returned if
    it is set; otherwise, if the keymap allows fallthru, the answer is the
    one the resolver gives on the stack beneath, started at the top level;
    otherwise the input is unbound.  When that node is not the root
    (a miss in the middle of a chord), the input is unbound at once,
    whatever the default command and the stack beneath.  In every case the
    miss leaves [need_more_input] at 0 and [binding_node] at NULL. *)
Theorem keymap_stack_policy `{mle_h} h km rest ctx_input opt_peek lc sp again lc1 :
  let inp := match opt_peek with Some i => i | None => ctx_input end in
  let is_peek := match opt_peek with Some _ => true | None => false end in
  let res := _editor_get_command h (km :: rest) ctx_input opt_peek lc sp in
  _editor_get_kbinding_node h (Some (start_node km lc)) inp
    (set_binding_node None (set_need_more_input false lc)) is_peek
  = (None, again, lc1) ->
  (start_node km lc = bindings km ->
     (forall d, default_funcref km = Some d -> res = (Some d, lc1, sp)) /\
     (default_funcref km = None -> allow_fallthru km <> 0 ->
        res = _editor_get_command h rest ctx_input opt_peek lc1 sp) /\
     (default_funcref km = None -> allow_fallthru km = 0 ->
        res = (None, lc1, sp))) /\
  (start_node km lc <> bindings km -> res = (None, lc1, sp)) /\
  _editor_get_command h [] ctx_input opt_peek lc1 sp = (None, lc1, sp) /\
  need_more_input lc1 = false /\ binding_node lc1 = None.
Proof.
  intros inp is_peek res Hmiss.
  destruct (get_kbinding_node_frame _ _ _ _ _ _ _ _ Hmiss) as (Hb & Hn & _).
  simpl in Hb, Hn.
  assert (Hid : set_binding_node None (set_need_more_input false lc1) = lc1)
    by (apply set_flags_id; assumption).
  assert (Hnode : (if match binding_node lc with None => true | Some _ => false end
                   then Some (bindings km) else binding_node lc)
                  = Some (start_node km lc)).
  { unfold start_node. destruct (binding_node lc); reflexivity. }
  assert (Hres : res =
    if bool_decide (Some (start_node km lc) = Some (bindings km)) then
      match default_funcref km with
      | Some d => (Some d, lc1, sp)
      | None =>
          if bool_decide (allow_fallthru km = 0) then (None, lc1, sp)
          else get_command_loop h inp is_peek rest (Some (start_node km lc)) true lc1 sp
      end
    else (None, lc1, sp)).
  { subst res. unfold _editor_get_command. simpl.
    fold inp. fold is_peek. rewrite Hnode, Hmiss. reflexivity. }
  repeat split.
  - intros d Hd. rewrite Hres, bool_decide_true, Hd by congruence. reflexivity.
  - intros Hd Hf. rewrite Hres, bool_decide_true, Hd, bool_decide_false by congruence.
    unfold _editor_get_command. fold inp. fold is_peek.
    rewrite Hid, Hb. simpl.
    destruct rest; reflexivity.
  - intros Hd Hf. rewrite Hres, bool_decide_true, Hd, bool_decide_true by congruence.
    reflexivity.
  - intros Hne. rewrite Hres, bool_decide_false by congruence. reflexivity.
  - unfold _editor_get_command. simpl. rewrite Hid. reflexivity.
  - exact Hn.
  - exact Hb.
Qed.

(** The fallthru scenario: [C-a] is not bound in [mle_prompt_input],
    which allows fallthru, and is bound in [mle_normal] beneath; without
    the fallthru flag the same input is unbound. *)
Lemma keymap_stack_policy_witness :
  @_editor_get_kbinding_node sample_h sample_trie
    (Some (start_node kmap_prompt_input loop_ctx_zero)) key_C_a
    (set_binding_node None (set_need_more_input false loop_ctx_zero)) false
  = (None, false, loop_ctx_zero)
  /\ @_editor_get_command sample_h sample_trie [kmap_prompt_input; kmap_normal]
       key_C_a None loop_ctx_zero None
     = @_editor_get_command sample_h sample_trie [kmap_normal]
         key_C_a None loop_ctx_zero None
  /\ @_editor_get_command sample_h sample_trie [kmap_normal]
       key_C_a None loop_ctx_zero None
     = (Some "cmd_move_bol"%string, loop_ctx_zero, None)
  /\ @_editor_get_command sample_h sample_trie
       [kmap_prompt_input_nofallthru; kmap_normal] key_C_a None loop_ctx_zero None
     = (None, loop_ctx_zero, None).
Proof.
  assert (Hmiss :
    @_editor_get_kbinding_node sample_h sample_trie
      (Some (start_node kmap_prompt_input loop_ctx_zero)) key_C_a
      (set_binding_node None (set_need_more_input false loop_ctx_zero)) false
    = (None, false, loop_ctx_zero)) by (vm_compute; reflexivity).
  split; [exact Hmiss|].
  destruct (@keymap_stack_policy sample_h sample_trie kmap_prompt_input
              [kmap_normal] key_C_a None loop_ctx_zero None false
              loop_ctx_zero Hmiss) as (Htop & _).
  destruct (Htop eq_refl) as (_ & Hfall & _).
  split; [apply Hfall; [reflexivity | discriminate]|].
  destruct (@keymap_stack_policy sample_h sample_trie kmap_prompt_input_nofallthru
              [kmap_normal] key_C_a None loop_ctx_zero None false
              loop_ctx_zero Hmiss) as (Htop' & _).
  destruct (Htop' eq_refl) as (_ & _ & Hstop).
  split; [vm_compute; reflexivity|].
  apply Hstop; reflexivity.
Defined.

(** C4 (as the code has it).  A peek leaves the numeric buffer, the
    numeric node, the numeric and wildcard parameters and [static_param] as
    they are, and never reports need-more-input; from a loop context whose
    [binding_node] is NULL and whose [need_more_input] is 0, which is the
    state paste ingestion peeks in, it leaves the whole loop context
    unchanged.  When the numeric buffer is empty and, at each node where
    the keystroke is looked up (the node the resolution starts from and,
    after a miss at the top level of a keymap without default command
    that allows fallthru, the roots of the keymaps beneath), a keystroke
    that misses meets no wildcard edge and a digit meets no numeric edge
    and no pending numeric node, the command reference a peek returns is
    the one a committing resolve of the same keystroke returns, and its
    classification is the committing one with need-more-input reported as
    unbound. *)
Theorem peek_frame `{mle_h} h stack ctx_input k lc sp :
  let peek := _editor_get_command h stack ctx_input (Some k) lc sp in
  let commit := _editor_get_command h stack k None lc sp in
  (numeric peek.1.2 = numeric lc /\
   numeric_node peek.1.2 = numeric_node lc /\
   numeric_params peek.1.2 = numeric_params lc /\
   wildcard_params peek.1.2 = wildcard_params lc /\
   peek.2 = sp /\
   need_more_input peek.1.2 = false) /\
  (binding_node lc = None -> need_more_input lc = false -> peek.1.2 = lc) /\
  (numeric lc = [] ->
   (is_digit_ch (ch k) = true -> numeric_node lc = None) ->
   Forall (exact_only h k) (consulted_nodes h k stack lc) ->
   peek.1.1 = commit.1.1 /\
   classify peek
   = match classify commit with NeedMore => NotBound | c => c end).
Proof.
  intros peek commit.
  assert (Hframe : peek.1.2 = set_binding_node None (set_need_more_input false lc)
                   /\ peek.2 = sp).
  { subst peek. unfold _editor_get_command.
    apply (get_command_loop_peek_frame h k stack (binding_node lc)
             (match binding_node lc with None => true | Some _ => false end)). }
  destruct Hframe as [Hlc Hsp].
  split; [|split].
  - rewrite Hlc, Hsp. destruct lc; simpl. repeat split.
  - intros Hb Hn. rewrite Hlc. apply set_flags_id; assumption.
  - intros Hnum Hnn Hall.
    assert (Hcmd : peek.1.1 = commit.1.1).
    { subst peek commit. unfold _editor_get_command.
      set (lc0 := set_binding_node None (set_need_more_input false lc)).
      assert (Hnum0 : numeric lc0 = []) by (destruct lc; exact Hnum).
      assert (Hnn0 : is_digit_ch (ch k) = true -> numeric_node lc0 = None)
        by (destruct lc; exact Hnn).
      destruct stack as [|km rest]; [reflexivity|].
      cbn [consulted_nodes] in Hall. apply Forall_cons_1 in Hall as [Hkm Hrest].
      cbn [get_command_loop].
      assert (Hnode : (if match binding_node lc with None => true | Some _ => false end
                       then Some (bindings km) else binding_node lc)
                      = Some (start_node km lc)).
      { unfold start_node. destruct (binding_node lc); reflexivity. }
      rewrite Hnode.
      rewrite get_kbinding_node_peek, get_kbinding_node_plain by assumption.
      destruct (node_children h (Some (start_node km lc)) !! k) as [b|].
      - destruct (h !! b) as [bn|]; [|reflexivity].
        destruct (funcref bn); [reflexivity|]. case_bool_decide; reflexivity.
      - destruct (decide (start_node km lc = bindings km)) as [Hroot|Hroot].
        + rewrite bool_decide_true by congruence.
          rewrite bool_decide_true in Hrest by exact Hroot.
          destruct (default_funcref km); [reflexivity|].
          destruct (bool_decide (allow_fallthru km = 0)); [reflexivity|].
          apply get_command_loop_plain; assumption.
        + rewrite bool_decide_false by congruence. reflexivity. }
    split; [exact Hcmd|].
    unfold classify. rewrite <- Hcmd.
    destruct (peek.1.1); [reflexivity|].
    rewrite Hlc. cbn [need_more_input set_binding_node set_need_more_input].
    destruct (need_more_input commit.1.2); reflexivity.
Qed.

(** A peek of [C-a] in the input prompt over [mle_normal]: it misses at
    the root of the prompt's keymap, which has no wildcard edge, and is
    found at the root of [mle_normal]. *)
Lemma peek_frame_witness :
  binding_node loop_ctx_zero = None /\
  (@_editor_get_command sample_h sample_trie [kmap_prompt_input; kmap_normal]
     key_x (Some key_C_a) loop_ctx_zero None).1.2 = loop_ctx_zero /\
  (@_editor_get_command sample_h sample_trie [kmap_prompt_input; kmap_normal]
     key_x (Some key_C_a) loop_ctx_zero None).1.1
  = (@_editor_get_command sample_h sample_trie [kmap_prompt_input; kmap_normal]
       key_C_a None loop_ctx_zero None).1.1 /\
  classify (@_editor_get_command sample_h sample_trie [kmap_prompt_input; kmap_normal]
              key_x (Some key_C_a) loop_ctx_zero None)
  = Resolved "cmd_move_bol"%string.
Proof.
  destruct (@peek_frame sample_h sample_trie [kmap_prompt_input; kmap_normal]
              key_x key_C_a loop_ctx_zero None) as (_ & Hframe & Hsame).
  split; [reflexivity|]. split; [apply Hframe; reflexivity|].
  destruct Hsame as [Hcmd Hcl].
  - reflexivity.
  - discriminate.
  - repeat constructor; discriminate.
  - split; [exact Hcmd|]. rewrite Hcl. vm_compute. reflexivity.
Defined.

(** C4, as stated, fails.  From the loop context in which paste ingestion
    peeks (no chord pending), a peek of [M-y] reports unbound where the
    committing resolve reports need-more-input.  With the chord [M-y]
    pending, a peek of the digit [1] clears [binding_node], and it reports
    unbound where the committing resolve reports need-more-input.  A peek
    of a digit at a root with a numeric edge returns the default command
    where the committing resolve starts a count; with a count in the
    numeric buffer, or at a node with a wildcard edge, a peek reports
    unbound where the committing resolve finds the command. *)
Lemma peek_alters_loop_ctx :
  classify (@_editor_get_command sample_h sample_trie [kmap_normal] key_x
              (Some key_M_y) loop_ctx_zero None) = NotBound
  /\ classify (@_editor_get_command sample_h sample_trie [kmap_normal] key_M_y
                 None loop_ctx_zero None) = NeedMore
  /\ (@_editor_get_command sample_h sample_trie [kmap_normal] key_M_y
        (Some key_1) lc_after_M_y None).1.2 <> lc_after_M_y
  /\ binding_node (@_editor_get_command sample_h sample_trie [kmap_normal] key_M_y
                     (Some key_1) lc_after_M_y None).1.2 = None
  /\ classify (@_editor_get_command sample_h sample_trie [kmap_normal] key_M_y
                 (Some key_1) lc_after_M_y None) = NotBound
  /\ classify (@_editor_get_command sample_h sample_trie [kmap_normal] key_1
                 None lc_after_M_y None) = NeedMore
  (* a digit at a root with a numeric edge *)
  /\ classify (@_editor_get_command sample_h sample_trie [kmap_user_count] key_x
                 (Some key_1) loop_ctx_zero None) = Resolved "cmd_insert_data"%string
  /\ classify (@_editor_get_command sample_h sample_trie [kmap_user_count] key_1
                 None loop_ctx_zero None) = NeedMore
  (* a count in the numeric buffer *)
  /\ classify (@_editor_get_command sample_h sample_trie [kmap_normal] key_1
                 (Some key_u) lc_count_pending None) = NotBound
  /\ classify (@_editor_get_command sample_h sample_trie [kmap_normal] key_u
                 None lc_count_pending None) = Resolved "cmd_move_relative"%string
  (* a wildcard edge at the node consulted *)
  /\ classify (@_editor_get_command sample_h wildcard_trie [kmap_user_mark] key_M_z
                 (Some key_x) lc_mark_pending None) = NotBound
  /\ classify (@_editor_get_command sample_h wildcard_trie [kmap_user_mark] key_x
                 None lc_mark_pending None) = Resolved "cmd_user"%string.
Proof.
  repeat split; try (vm_compute; reflexivity).
  vm_compute. discriminate.
Qed.

(** ** The dispatch of one turn *)

Lemma get_command_peek_id `{mle_h} h stack ctx_input k lc sp :
  binding_node lc = None -> need_more_input lc = false ->
  exists fr, _editor_get_command h stack ctx_input (Some k) lc sp = (fr, lc, sp).
Proof.
  intros Hb Hn. unfold _editor_get_command.
  rewrite (set_flags_id lc Hb Hn).
  destruct (get_command_loop_peek_frame h k stack (binding_node lc)
              (match binding_node lc with None => true | Some _ => false end)
              lc sp) as (Hlc & Hsp).
  destruct (get_command_loop h k true stack (binding_node lc) _ lc sp)
    as [[fr lc'] sp'].
  simpl in *. subst. eauto.
Qed.

Lemma ingest_paste_loop_frame `{mle_h} h kt fm tty ctx lc :
  binding_node lc = None -> need_more_input lc = false ->
  (ingest_paste_loop h kt fm tty ctx lc).2 = lc /\
  ctx_static_param (ingest_paste_loop h kt fm tty ctx lc).1.2 = ctx_static_param ctx /\
  input (ingest_paste_loop h kt fm tty ctx lc).1.2 = input ctx.
Proof.
  intros Hb Hn. revert ctx.
  induction tty as [|ev tty IH]; intros ctx; simpl; [auto|].
  destruct ev; simpl; auto.
  destruct (get_command_peek_id h kt (input ctx) k lc (ctx_static_param ctx) Hb Hn)
    as (fr & ->).
  destruct (is_insert_data fm fr); simpl.
  - edestruct IH as (H1 & H2 & H3).
    split; [exact H1 | split; [rewrite H2 | rewrite H3]]; destruct ctx; reflexivity.
  - destruct ctx; simpl; auto.
Qed.

Lemma lc_pending_app p nn ds1 ds2 lc :
  lc_pending p nn ds2 (lc_pending p nn ds1 lc) = lc_pending p nn (ds1 ++ ds2) lc.
Proof. unfold lc_pending. simpl. rewrite <- app_assoc. reflexivity. Qed.

(** A digit typed where a numeric edge leaves from, with room in the
    buffer, is accumulated: the turn reports need-more-input and stays on
    the same node. *)
Lemma digit_turn `{mle_h} {W} `{commands W} (st : loop_state W) km rest p nn d user :
  st_kmap_tail st = km :: rest ->
  start_node km (st_loop_ctx st) = p ->
  is_digit_ch (ch d) = true ->
  (numeric_node (st_loop_ctx st) = Some nn \/
   (numeric_node (st_loop_ctx st) = None /\
    node_children (st_kbindings st) (Some p) !! MLE_KINPUT_NUMERIC = Some nn)) ->
  numeric_len (st_loop_ctx st) < MLE_LOOP_CTX_MAX_NUMERIC_LEN ->
  editor_loop_turn d user st
  = (NeedMoreInput,
     LoopState (st_kbindings st) (st_kmap_tail st) (st_func_map st) (st_tty st)
       (set_input d user (st_ctx st))
       (lc_pending p nn [ch d] (st_loop_ctx st)) (st_world st)).
Proof.
  intros Hkt Hp Hd Hnn Hlen.
  destruct st as [h kt fm tty ctx lc w]. simpl in *. subst kt.
  unfold editor_loop_turn, editor_loop_dispatch, _editor_get_command. simpl.
  assert (Hnode : (if match binding_node lc with None => true | Some _ => false end
                   then Some (bindings km) else binding_node lc) = Some p).
  { subst p. unfold start_node. destruct (binding_node lc); reflexivity. }
  rewrite Hnode.
  unfold _editor_get_kbinding_node. rewrite Hd.
  assert (Hlt : (numeric_len lc <? MLE_LOOP_CTX_MAX_NUMERIC_LEN) = true)
    by (apply Z.ltb_lt; exact Hlen).
  destruct Hnn as [Hnn | [Hnone Hnn]].
  - simpl. rewrite Hnn. simpl.
    unfold numeric_len in *. simpl. rewrite Hlt. simpl.
    unfold lc_pending. destruct lc, ctx; simpl in *. subst. reflexivity.
  - simpl. rewrite Hnone. simpl in *. rewrite Hnn. simpl.
    unfold numeric_len in *. simpl. rewrite Hlt. simpl.
    unfold lc_pending. destruct lc, ctx; simpl in *. reflexivity.
Qed.

Lemma digit_turns `{mle_h} {W} `{commands W} (ds : list kinput_t) :
  forall (st : loop_state W) km rest p nn user,
  st_kmap_tail st = km :: rest ->
  start_node km (st_loop_ctx st) = p ->
  Forall (fun d => is_digit_ch (ch d) = true) ds ->
  (numeric_node (st_loop_ctx st) = Some nn \/
   (numeric_node (st_loop_ctx st) = None /\
    node_children (st_kbindings st) (Some p) !! MLE_KINPUT_NUMERIC = Some nn)) ->
  numeric_len (st_loop_ctx st) + Z.of_nat (length ds) <= MLE_LOOP_CTX_MAX_NUMERIC_LEN ->
  ds <> [] ->
  exists ctx',
    editor_loop_turns ds user st
    = (replicate (length ds) NeedMoreInput,
       LoopState (st_kbindings st) (st_kmap_tail st) (st_func_map st) (st_tty st)
         ctx' (lc_pending p nn (map ch ds) (st_loop_ctx st)) (st_world st)).
Proof.
  induction ds as [|d ds IH]; intros st km rest p nn user Hkt Hp Hds Hnn Hlen Hne;
    [congruence|].
  inversion Hds as [|? ? Hd Hds']; subst.
  simpl length in Hlen.
  cbn [editor_loop_turns].
  rewrite (digit_turn st km rest _ nn d user Hkt eq_refl Hd Hnn) by lia.
  destruct ds as [|d' ds].
  { simpl. eexists. reflexivity. }
  set (st1 := LoopState _ _ _ _ _ _ _).
  destruct (IH st1 km rest (start_node km (st_loop_ctx st)) nn user) as (ctx' & Heq).
  - exact Hkt.
  - subst st1. reflexivity.
  - exact Hds'.
  - left. reflexivity.
  - subst st1. simpl st_loop_ctx. unfold numeric_len, lc_pending in *. simpl numeric.
    rewrite length_app. simpl length in *. lia.
  - discriminate.
  - rewrite Heq. subst st1. cbn [st_kbindings st_kmap_tail st_func_map st_tty st_world st_loop_ctx].
    rewrite lc_pending_app. eexists. reflexivity.
Qed.

(** The keystroke that ends the accumulation: the buffer is parsed and
    pushed, and the lookup goes on from the numeric child. *)
Lemma chord_end_turn `{mle_h} {W} `{commands W} (st : loop_state W)
    km rest p nn x b bn f fn fm' user :
  st_kmap_tail st = km :: rest ->
  binding_node (st_loop_ctx st) = Some p ->
  numeric_node (st_loop_ctx st) = Some nn ->
  numeric (st_loop_ctx st) <> [] ->
  numeric_params_len (st_loop_ctx st) < MLE_LOOP_CTX_MAX_NUMERIC_PARAMS ->
  is_digit_ch (ch x) = false ->
  node_children (st_kbindings st) (Some nn) !! x = Some b ->
  st_kbindings st !! b = Some bn ->
  funcref bn = Some f ->
  _editor_resolve_funcref (st_func_map st) f = (Some fn, fm') ->
  exists ctx_c lc_c st',
    editor_loop_turn x user st = (Executed f fn ctx_c lc_c, st') /\
    numeric_params lc_c
    = numeric_params (st_loop_ctx st) ++ [strtoul (numeric (st_loop_ctx st))] /\
    numeric lc_c = [] /\
    wildcard_params lc_c = wildcard_params (st_loop_ctx st) /\
    ctx_static_param ctx_c = static_param bn /\
    input ctx_c = x.
Proof.
  intros Hkt Hb Hnn Hnum Hpl Hd Hx Hbn Hf Hres.
  destruct st as [h kt fm tty ctx lc w].
  cbn [st_kbindings st_kmap_tail st_func_map st_tty st_ctx st_loop_ctx st_world] in *.
  subst kt.
  unfold editor_loop_turn, editor_loop_dispatch, _editor_get_command. simpl.
  rewrite Hb. simpl.
  unfold _editor_get_kbinding_node. rewrite Hd.
  assert (Hpos : (0 <? numeric_len (set_binding_node None (set_need_more_input false lc))) = true).
  { apply Z.ltb_lt. unfold numeric_len. simpl. destruct (numeric lc); [congruence|simpl; lia]. }
  rewrite Hpos.
  assert (Hpl' : (numeric_params_len (set_binding_node None (set_need_more_input false lc))
                  <? MLE_LOOP_CTX_MAX_NUMERIC_PARAMS) = true).
  { apply Z.ltb_lt. exact Hpl. }
  rewrite Hpl'. simpl. rewrite Hnn, Hx. rewrite Hbn, Hf, Hres.
  match goal with
  | |- context [if ?c then _editor_ingest_paste ?a1 ?a2 ?a3 ?a4 ?a5 ?a6 else _] =>
      destruct (ingest_paste_loop_frame a1 a2 a3 a4 (set_pastebuf [] a5) a6 eq_refl eq_refl)
        as (Hlc & Hsp & Hin);
      destruct c eqn:Hc
  end.
  - unfold _editor_ingest_paste.
    match goal with
    | |- context [ingest_paste_loop ?a1 ?a2 ?a3 ?a4 ?a5 ?a6] =>
        destruct (ingest_paste_loop a1 a2 a3 a4 a5 a6) as [[tty2 ctx2] lc2] eqn:Hing
    end.
    simpl in Hlc, Hsp, Hin. subst lc2.
    do 3 eexists. split; [reflexivity|].
    simpl. rewrite Hsp, Hin. destruct ctx; simpl. repeat split.
  - do 3 eexists. split; [reflexivity|].
    simpl. destruct ctx; simpl. repeat split.
Qed.

Lemma digit_prefix_all (s : list Z) :
  Forall (fun c => is_digit_ch c = true) s -> digit_prefix s = s.
Proof.
  induction 1 as [|c s Hc Hs IH]; simpl; [reflexivity|].
  rewrite Hc, IH. reflexivity.
Qed.

(** C2 (as the code has it).  From a loop context with an empty numeric
    buffer, digits d1..dk (k at least 1 and at most the maximal length of
    the buffer) typed at a node with a NUMERIC edge are accumulated without
    any command being executed; a following non-digit keystroke that
    matches an exact edge of the NUMERIC child leading to a leaf, with room
    left in the numeric parameters, executes the leaf's command, and at the
    call the numeric parameters are the former ones followed by
    [strtoul(d1..dk)] (the decimal value of d1..dk when it does not exceed
    ULONG_MAX), the numeric buffer is empty, and the wildcard parameters
    are the ones before the chord. *)
Theorem numeric_chord `{mle_h} {W} `{commands W} (st : loop_state W)
    km rest p nn ds x b bn f fn fm' user :
  st_kmap_tail st = km :: rest ->
  start_node km (st_loop_ctx st) = p ->
  numeric (st_loop_ctx st) = [] ->
  numeric_node (st_loop_ctx st) = None ->
  node_children (st_kbindings st) (Some p) !! MLE_KINPUT_NUMERIC = Some nn ->
  ds <> [] ->
  Forall (fun d => is_digit_ch (ch d) = true) ds ->
  Z.of_nat (length ds) <= MLE_LOOP_CTX_MAX_NUMERIC_LEN ->
  numeric_params_len (st_loop_ctx st) < MLE_LOOP_CTX_MAX_NUMERIC_PARAMS ->
  is_digit_ch (ch x) = false ->
  node_children (st_kbindings st) (Some nn) !! x = Some b ->
  st_kbindings st !! b = Some bn ->
  funcref bn = Some f ->
  _editor_resolve_funcref (st_func_map st) f = (Some fn, fm') ->
  exists ctx_c lc_c st',
    editor_loop_turns (ds ++ [x]) user st
    = (replicate (length ds) NeedMoreInput ++ [Executed f fn ctx_c lc_c], st') /\
    numeric_params lc_c
    = numeric_params (st_loop_ctx st) ++ [strtoul (map ch ds)] /\
    numeric lc_c = [] /\
    wildcard_params lc_c = wildcard_params (st_loop_ctx st) /\
    ctx_static_param ctx_c = static_param bn /\
    (parse_decimal (map ch ds) <= ULONG_MAX ->
     strtoul (map ch ds) = parse_decimal (map ch ds)).
Proof.
  intros Hkt Hp Hnum Hnode Hedge Hne Hds Hlen Hpl Hx Hb Hbn Hf Hres.
  destruct (digit_turns ds st km rest p nn user Hkt Hp Hds) as (ctx' & Hturns).
  { right. split; assumption. }
  { unfold numeric_len. rewrite Hnum. simpl. lia. }
  { exact Hne. }
  set (st1 := LoopState (st_kbindings st) (st_kmap_tail st) (st_func_map st)
                (st_tty st) ctx' (lc_pending p nn (map ch ds) (st_loop_ctx st))
                (st_world st)) in *.
  destruct (chord_end_turn st1 km rest p nn x b bn f fn fm' user)
    as (ctx_c & lc_c & st' & Hturn & Hnp & Hn & Hw & Hsp & _);
    try (subst st1; simpl; assumption); try (subst st1; reflexivity).
  { subst st1. simpl. rewrite Hnum. simpl. destruct ds; [congruence|discriminate]. }
  exists ctx_c, lc_c, st'.
  assert (Happ : forall ks1 ks2 (s s1 s2 : loop_state W) os1 o2,
            editor_loop_turns ks1 user s = (os1, s1) ->
            editor_loop_turn ks2 user s1 = (o2, s2) ->
            editor_loop_turns (ks1 ++ [ks2]) user s = (os1 ++ [o2], s2)).
  { induction ks1 as [|k ks1 IH]; intros ks2 s s1 s2 os1 o2 H1 H2; simpl in *.
    - inversion H1; subst. rewrite H2. reflexivity.
    - destruct (editor_loop_turn k user s) as [o sa].
      destruct (editor_loop_turns ks1 user sa) as [os sb] eqn:E.
      inversion H1; subst.
      rewrite (IH ks2 sa s1 s2 os o2 E H2). reflexivity. }
  split; [exact (Happ _ _ _ _ _ _ _ Hturns Hturn)|].
  subst st1. simpl in Hnp, Hw. rewrite Hnum in Hnp. simpl in Hnp.
  repeat split; try assumption.
  intros Hle. unfold strtoul. rewrite digit_prefix_all.
  - apply Z.min_l. exact Hle.
  - apply Forall_fmap. exact Hds.
Qed.

Lemma numeric_chord_witness :
  exists ctx_c lc_c st',
    @editor_loop_turns sample_h unit commands_idle ([key_1; key_2] ++ [key_u]) true
      (sample_state [kmap_prompt_input; kmap_normal] lc_after_M_y)
    = (replicate 2 NeedMoreInput
         ++ [Executed "cmd_move_relative" (fn_extern 2) ctx_c lc_c], st') /\
    numeric_params lc_c = [] ++ [@strtoul sample_h (map ch [key_1; key_2])] /\
    numeric lc_c = [] /\
    wildcard_params lc_c = [] /\
    ctx_static_param ctx_c = Some "up"%string /\
    (parse_decimal (map ch [key_1; key_2]) <= @ULONG_MAX sample_h ->
     @strtoul sample_h (map ch [key_1; key_2]) = 12).
Proof.
  apply (@numeric_chord sample_h unit commands_idle
           (sample_state [kmap_prompt_input; kmap_normal] lc_after_M_y)
           kmap_prompt_input [kmap_normal] 2%positive 3%positive
           [key_1; key_2] key_u 4%positive
           (Kbinding key_u ∅ (Some "cmd_move_relative"%string) (Some "up"%string))
           "cmd_move_relative"%string (fn_extern 2) sample_func_map true).
  - reflexivity.
  - reflexivity.
  - reflexivity.
  - reflexivity.
  - vm_compute. reflexivity.
  - discriminate.
  - repeat constructor.
  - vm_compute. discriminate.
  - vm_compute. reflexivity.
  - reflexivity.
  - vm_compute. reflexivity.
  - vm_compute. reflexivity.
  - reflexivity.
  - vm_compute. reflexivity.
Defined.

(** C2, as stated, fails: with the binding [M-z ## **], the chord
    [M-z 1 x] is a digit typed at a node with a NUMERIC edge followed by a
    non-digit keystroke that completes a binding in the NUMERIC child's
    subtree, and the command is called with the wildcard parameters [120],
    not with the empty vector of before the chord. *)
Lemma numeric_chord_wildcard_changes :
  node_children sample_trie (Some 21%positive) !! (@MLE_KINPUT_NUMERIC sample_h)
  = Some 22%positive
  /\ is_digit_ch (ch key_1) = true /\ is_digit_ch (ch key_x) = false
  /\ wildcard_params lc_after_M_z = []
  /\ map executed_cmd
       (@editor_loop_turns sample_h unit commands_idle [key_1; key_x] true
          (sample_state [kmap_user_wildcard] lc_after_M_z)).1
     = [None; Some "cmd_user"%string]
  /\ map delivered_params
       (@editor_loop_turns sample_h unit commands_idle [key_1; key_x] true
          (sample_state [kmap_user_wildcard] lc_after_M_z)).1
     = [None; Some ([1], [120])].
Proof. repeat split; vm_compute; reflexivity. Qed.

(** C6: the overflow of the numeric buffer does not abort the chord.  In
    [mle_normal] with the chord [M-y ## u], the twentieth digit after
    [M-y] fills the buffer and is accepted, and the twenty-first is
    rejected: the turn ends unbound with [binding_node] cleared.  But the
    buffer and [numeric_node] are left as they were, so the next key [u]
    is looked up under the numeric node: [cmd_move_relative] is executed
    with the twenty digits as its numeric parameter, where [u] typed with
    no chord pending is inserted as text.  When the count is typed at the
    root of a keymap with a default command, the rejected digit runs that
    command.  The overflow of the numeric parameters, the next case of
    the same function, resets the buffer and the numeric node. *)
Theorem overflow_leaves_chord_armed :
  (* M-y, twenty digits, and the digit that is rejected *)
  (run_keys [kmap_normal] (key_M_y :: replicate 21 key_1)).1
  = replicate 21 NeedMoreInput ++ [Unbound]
  /\ binding_node (st_loop_ctx (run_keys [kmap_normal] (key_M_y :: replicate 21 key_1)).2)
     = None
  /\ numeric (st_loop_ctx (run_keys [kmap_normal] (key_M_y :: replicate 21 key_1)).2)
     = replicate 20 49
  /\ numeric_node (st_loop_ctx (run_keys [kmap_normal] (key_M_y :: replicate 21 key_1)).2)
     = Some 3%positive
  (* the next key completes the chord *)
  /\ map executed_cmd (run_keys [kmap_normal] (key_M_y :: replicate 21 key_1 ++ [key_u])).1
     = replicate 22 None ++ [Some "cmd_move_relative"%string]
  /\ (delivered_params <$>
        last (run_keys [kmap_normal] (key_M_y :: replicate 21 key_1 ++ [key_u])).1)
     = Some (Some ([11111111111111111111], []))
  (* the same key with no chord pending *)
  /\ map executed_cmd (run_keys [kmap_normal] [key_u]).1
     = [Some "cmd_insert_data"%string]
  (* the rejected digit of a count typed at the root *)
  /\ map executed_cmd (run_keys [kmap_user_count] (replicate 21 key_1)).1
     = replicate 20 None ++ [Some "cmd_insert_data"%string]
  (* the overflow of the numeric parameters *)
  /\ (@_editor_get_kbinding_node sample_h sample_trie (Some 2%positive) key_u
        lc_params_full false).1 = (None, false)
  /\ numeric (@_editor_get_kbinding_node sample_h sample_trie (Some 2%positive) key_u
                lc_params_full false).2 = []
  /\ numeric_node (@_editor_get_kbinding_node sample_h sample_trie (Some 2%positive)
                     key_u lc_params_full false).2 = None.
Proof. repeat split; vm_compute; reflexivity. Qed.

(** ** Macros: what gets recorded *)

Lemma record_macro_input_inputs m k :
  macro_inputs (_editor_record_macro_input m k) = macro_inputs m ++ [k].
Proof.
  unfold _editor_record_macro_input, macro_inputs.
  destruct (inputs m); reflexivity.
Qed.

(** C3 (as the code has it).  While a macro is being recorded,
    [editor_get_input] appends the input it acquires to the recording
    whatever its origin: an input taken from the macro being replayed
    ([is_user_input] 0) is appended just as an input taken from the
    terminal ([is_user_input] 1) is. *)
Theorem recording_appends_every_input s r m :
  is_recording_macro s = true ->
  macro_record s = Some r ->
  macros s !! r = Some m ->
  (forall a k,
     macro_apply s = Some a ->
     apply_inputs s !! macro_apply_input_index s = Some k ->
     exists s',
       editor_get_input s = Some s' /\
       input (ictx s') = k /\ is_user_input (ictx s') = false /\
       recorded s' = recorded s ++ [k] /\
       tty s' = tty s /\
       macro_apply s' = Some a /\
       macro_apply_input_index s' = S (macro_apply_input_index s)) /\
  (forall tty' ctx1,
     (macro_apply s = None \/
      apply_inputs s !! macro_apply_input_index s = None) ->
     _editor_get_user_input (tty s) (set_is_user_input false (ictx s))
     = Some (tty', ctx1) ->
     exists s',
       editor_get_input s = Some s' /\
       input (ictx s') = input ctx1 /\ is_user_input (ictx s') = true /\
       recorded s' = recorded s ++ [input ctx1] /\
       tty s' = tty' /\
       macro_apply s' = None).
Proof.
  intros Hrec Hr Hm. split.
  - intros a k Ha Hk. unfold editor_get_input. rewrite Ha, Hk, Hrec, Hr, Hm.
    eexists. split; [reflexivity|].
    unfold recorded. simpl. rewrite Hr, Hm, lookup_insert_eq.
    rewrite record_macro_input_inputs. repeat split.
  - intros tty' ctx1 Hsrc Huser. unfold editor_get_input.
    assert (Hacq :
      match macro_apply s with
      | Some m0 =>
          match apply_inputs s !! macro_apply_input_index s with
          | Some k =>
              Some (Some m0, S (macro_apply_input_index s), tty s,
                    set_input k false (set_is_user_input false (ictx s)))
          | None =>
              match _editor_get_user_input (tty s) (set_is_user_input false (ictx s)) with
              | Some (tty'0, ctx2) => Some (None, O, tty'0, set_is_user_input true ctx2)
              | None => None
              end
          end
      | None =>
          match _editor_get_user_input (tty s) (set_is_user_input false (ictx s)) with
          | Some (tty'0, ctx2) =>
              Some (None, macro_apply_input_index s, tty'0, set_is_user_input true ctx2)
          | None => None
          end
      end = Some (None, match macro_apply s with Some _ => O | None => macro_apply_input_index s end,
                  tty', set_is_user_input true ctx1)).
    { rewrite Huser. destruct (macro_apply s); [|reflexivity].
      destruct Hsrc as [Hs|Hs]; [discriminate|]. rewrite Hs. reflexivity. }
    rewrite Hacq, Hrec, Hr, Hm.
    eexists. split; [reflexivity|].
    unfold recorded. simpl. rewrite Hr, Hm, lookup_insert_eq.
    rewrite record_macro_input_inputs. destruct ctx1; repeat split.
Qed.

Lemma recording_appends_every_input_witness :
  (exists s',
     editor_get_input sample_input_state = Some s' /\
     input (ictx s') = key_1 /\ is_user_input (ictx s') = false /\
     recorded s' = recorded sample_input_state ++ [key_1] /\
     tty s' = tty sample_input_state /\
     macro_apply s' = Some 2%positive /\
     macro_apply_input_index s' = 1%nat).
Proof.
  destruct (recording_appends_every_input sample_input_state 1%positive
              (Kmacro (Some "rec"%string) (Some [key_M_m; key_x]) 8)
              eq_refl eq_refl eq_refl) as (Hreplay & _).
  apply (Hreplay 2%positive key_1); reflexivity.
Defined.

(** C3, as stated, fails: with a recording in progress and a replay of
    [1 2] under way, the input acquired comes from the replay and is
    appended to the recording; once the replay is over and a key has come
    from the terminal, the recording holds both replayed keystrokes. *)
Lemma replayed_input_is_recorded :
  is_recording_macro sample_input_state = true
  /\ apply_inputs sample_input_state = [key_1; key_2]
  /\ recorded sample_input_state = [key_M_m; key_x]
  /\ (is_user_input ∘ ictx <$> editor_get_input sample_input_state) = Some false
  /\ (input ∘ ictx <$> editor_get_input sample_input_state) = Some key_1
  /\ (recorded <$> editor_get_input sample_input_state)
     = Some [key_M_m; key_x; key_1]
  /\ (recorded <$> editor_get_inputs 3 sample_input_state)
     = Some [key_M_m; key_x; key_1; key_2; key_u]
  /\ (macro_apply <$> editor_get_inputs 3 sample_input_state) = Some None.
Proof. repeat split; vm_compute; reflexivity. Qed.

(** ** Views and prompts *)

Lemma bview_exists_loop_spec l b :
  bview_exists_loop l b = true <-> exists p, b = Some p /\ p ∈ l.
Proof.
  induction l as [|x l IH]; simpl.
  - split; [discriminate|]. intros (p & _ & Hp). inversion Hp.
  - case_bool_decide as Hx.
    + split; [|reflexivity]. intros _. exists x. split; [auto|constructor].
    + rewrite IH. split.
      * intros (p & -> & Hp). exists p. split; [reflexivity|]. constructor. exact Hp.
      * intros (p & -> & Hp). exists p. split; [reflexivity|].
        apply elem_of_cons in Hp as [->|Hp]; [congruence|exact Hp].
Qed.

(** The view functions write [editor->prompt] nowhere. *)
Lemma set_active_prompt `{view_collab} e bview :
  prompt (editor_set_active e bview).2 = prompt e.
Proof.
  unfold editor_set_active, MLE_RETURN_ERR.
  repeat (case_match; simpl); reflexivity.
Qed.

Lemma open_bview_prompt `{view_collab} e parent type make_active :
  prompt (editor_open_bview e parent type make_active).1 = prompt e.
Proof.
  unfold editor_open_bview.
  destruct (bview_new e) as [p fv].
  repeat (case_match; simpl); rewrite ?set_active_prompt; reflexivity.
Qed.

Lemma close_bview_inner_prompt `{view_collab} fuel :
  forall e bview rc e' n,
  _editor_close_bview_inner fuel e bview = Some (rc, e', n) ->
  prompt e' = prompt e.
Proof.
  induction fuel as [|fuel IH]; intros e bview rc e' n Hc; [discriminate|].
  cbn [_editor_close_bview_inner] in Hc.
  destruct (editor_bview_exists e (Some bview)); simpl in Hc; [|congruence].
  assert (Hchild : exists e1 n1,
            match bview_field e bview split_child with
            | Some c =>
                match _editor_close_bview_inner fuel e c with
                | Some (_, e'0, n0) => Some (e'0, n0)
                | None => None
                end
            | None => Some (e, 0%nat)
            end = Some (e1, n1) /\ prompt e1 = prompt e).
  { destruct (bview_field e bview split_child) as [c|].
    - destruct (_editor_close_bview_inner fuel e c) as [[[rc0 e0] n0]|] eqn:Ec;
        [|discriminate].
      exists e0, n0. split; [reflexivity|]. eapply IH; eauto.
    - exists e, 0%nat. auto. }
  destruct Hchild as (e1 & n1 & Heq & Hp1). rewrite Heq in Hc.
  inversion Hc; subst; clear Hc. simpl.
  repeat (case_match; simpl);
    rewrite ?set_active_prompt, ?open_bview_prompt; simpl; assumption.
Qed.

Lemma set_active_views `{view_collab} e bview :
  bviews (editor_set_active e bview).2 = bviews e /\
  all_bviews (editor_set_active e bview).2 = all_bviews e.
Proof.
  unfold editor_set_active, MLE_RETURN_ERR.
  repeat (case_match; simpl); split; reflexivity.
Qed.

Lemma prompt_views_ext e e' :
  bviews e' = bviews e -> all_bviews e' = all_bviews e ->
  prompt_views e' = prompt_views e.
Proof.
  intros Hb Ha. unfold prompt_views, MLE_BVIEW_IS_PROMPT. rewrite Hb, Ha. reflexivity.
Qed.

Lemma set_active_prompt_views `{view_collab} e bview :
  prompt_views (editor_set_active e bview).2 = prompt_views e.
Proof.
  destruct (set_active_views e bview) as [Hb Ha]. apply prompt_views_ext; assumption.
Qed.

(** The prompt views after a change of the store that keeps the type of
    every listed view. *)
Lemma prompt_views_same_types (m m' : gmap ptr bview_t) (l : list ptr) :
  (forall q, q ∈ l -> btype <$> m' !! q = btype <$> m !! q) ->
  filter (fun p => match m' !! p with
                   | Some v => bool_decide (btype v = MLE_BVIEW_TYPE_PROMPT)
                   | None => false
                   end = true) l
  = filter (fun p => match m !! p with
                     | Some v => bool_decide (btype v = MLE_BVIEW_TYPE_PROMPT)
                     | None => false
                     end = true) l.
Proof.
  induction l as [|x l IH]; intros Hty; [reflexivity|].
  rewrite !filter_cons.
  assert (Hx : btype <$> m' !! x = btype <$> m !! x) by (apply Hty; constructor).
  rewrite IH by (intros q Hq; apply Hty; constructor; exact Hq).
  destruct (m' !! x) as [v'|], (m !! x) as [v|]; simpl in Hx; try discriminate;
    [inversion Hx as [Hv]; rewrite Hv|]; reflexivity.
Qed.

(** Opening a top-level view at a fresh address adds that view, and a
    prompt view only if the type is PROMPT. *)
Lemma open_bview_prompt_views `{view_collab} e type make_active :
  (bview_new e).1 ∉ all_bviews e ->
  let r := editor_open_bview e None type make_active in
  r.2 = (bview_new e).1 /\
  all_bviews r.1 = (bview_new e).1 :: all_bviews e /\
  prompt_views r.1
  = (if bool_decide (type = MLE_BVIEW_TYPE_PROMPT) then [(bview_new e).1] else [])
    ++ prompt_views e /\
  (exists v, bviews r.1 !! (bview_new e).1 = Some v /\ btype v = type).
Proof.
  intros Hfresh. cbv zeta. unfold editor_open_bview.
  destruct (bview_new e) as [p fv]. cbn [fst snd] in *.
  cbn [bviews all_bviews top_bviews active active_edit active_edit_root prompt].
  match goal with
  | |- context [editor_set_active ?x (Some p)] => set (e1 := x)
  end.
  assert (Hpv : prompt_views e1
                = (if bool_decide (type = MLE_BVIEW_TYPE_PROMPT) then [p] else [])
                  ++ prompt_views e).
  { unfold prompt_views, MLE_BVIEW_IS_PROMPT, e1.
    cbn [bviews all_bviews]. rewrite filter_cons, lookup_insert_eq.
    cbn [btype].
    rewrite (prompt_views_same_types (bviews e) (<[p:=_]> (bviews e)) (all_bviews e)).
    - destruct (bool_decide (type = MLE_BVIEW_TYPE_PROMPT)); reflexivity.
    - intros q Hq. rewrite lookup_insert_ne by congruence. reflexivity. }
  assert (Hv1 : exists v, bviews e1 !! p = Some v /\ btype v = type).
  { unfold e1. cbn [bviews]. rewrite lookup_insert_eq. eexists. split; reflexivity. }
  destruct make_active; cbn [fst snd].
  - destruct (set_active_views e1 (Some p)) as [Hb Ha].
    rewrite set_active_prompt_views, Ha, Hb. auto.
  - auto.
Qed.

Lemma no_new_prompt_refl e : no_new_prompt e e.
Proof. intros q v Hq Hv Ht. eauto. Qed.

Lemma no_new_prompt_trans e1 e2 e3 :
  no_new_prompt e3 e2 -> no_new_prompt e2 e1 -> no_new_prompt e3 e1.
Proof.
  intros H32 H21 q v Hq Hv Ht.
  destruct (H32 q v Hq Hv Ht) as (Hq2 & v2 & Hv2 & Ht2). eauto.
Qed.

Lemma no_new_prompt_same e' e :
  bviews e' = bviews e -> all_bviews e' = all_bviews e -> no_new_prompt e' e.
Proof. intros Hb Ha q v. rewrite Hb, Ha. eauto. Qed.

Lemma prompt_views_elem e q :
  q ∈ prompt_views e <->
  q ∈ all_bviews e /\
  exists v, bviews e !! q = Some v /\ btype v = MLE_BVIEW_TYPE_PROMPT.
Proof.
  unfold prompt_views, MLE_BVIEW_IS_PROMPT. rewrite list_elem_of_filter.
  split.
  - intros [Hp Hq]. split; [exact Hq|].
    destruct (bviews e !! q) as [v|]; [|discriminate].
    exists v. split; [reflexivity|]. apply bool_decide_eq_true in Hp. exact Hp.
  - intros [Hq (v & Hv & Ht)]. split; [|exact Hq].
    rewrite Hv. apply bool_decide_eq_true. exact Ht.
Qed.

Lemma no_new_prompt_views e' e :
  no_new_prompt e' e -> forall q, q ∈ prompt_views e' -> q ∈ prompt_views e.
Proof.
  intros Hn q. rewrite !prompt_views_elem. intros [Hq (v & Hv & Ht)].
  exact (Hn q v Hq Hv Ht).
Qed.

Lemma set_active_no_new_prompt `{view_collab} e bview :
  no_new_prompt (editor_set_active e bview).2 e.
Proof.
  destruct (set_active_views e bview) as [Hb Ha].
  apply no_new_prompt_same; assumption.
Qed.

Lemma set_split_child_no_new_prompt e sp pv c :
  bviews e !! sp = Some pv ->
  no_new_prompt (set_bviews (<[sp := set_split_child c pv]> (bviews e)) e) e.
Proof.
  intros Hsp q v Hq Hv Ht. cbn in Hq, Hv. split; [exact Hq|].
  destruct (decide (q = sp)) as [->|Hne].
  - rewrite lookup_insert_eq in Hv. inversion Hv; subst. eauto.
  - rewrite lookup_insert_ne in Hv by congruence. eauto.
Qed.

Lemma open_bview_no_new_prompt `{view_collab} e parent type make_active :
  type <> MLE_BVIEW_TYPE_PROMPT ->
  no_new_prompt (editor_open_bview e parent type make_active).1 e.
Proof.
  intros Hty. unfold editor_open_bview. destruct (bview_new e) as [p fv].
  set (e1 := Editor (<[p := _]> (bviews e)) (p :: all_bviews e) (top_bviews e)
               (active e) (active_edit e) (active_edit_root e) (prompt e)).
  assert (H1 : no_new_prompt e1 e).
  { intros q v Hq Hv Ht. unfold e1 in Hq, Hv. cbn in Hq, Hv.
    destruct (decide (q = p)) as [->|Hne].
    - rewrite lookup_insert_eq in Hv. inversion Hv; subst. cbn in Ht. contradiction.
    - rewrite lookup_insert_ne in Hv by congruence.
      apply elem_of_cons in Hq as [->|Hq]; [congruence|]. eauto. }
  match goal with
  | |- no_new_prompt (if make_active then (editor_set_active ?x _).2 else _, p).1 e =>
      set (e2 := x)
  end.
  assert (H2 : no_new_prompt e2 e).
  { eapply no_new_prompt_trans; [|exact H1]. subst e2.
    destruct parent as [q|].
    - destruct (bviews e1 !! q) as [pv|] eqn:Hq.
      + apply set_split_child_no_new_prompt. exact Hq.
      + apply no_new_prompt_refl.
    - apply no_new_prompt_same; reflexivity. }
  destruct make_active; cbn [fst]; [|exact H2].
  eapply no_new_prompt_trans; [apply set_active_no_new_prompt|exact H2].
Qed.

(** Closing views opens no prompt view, and the view closed is no longer
    listed. *)
Lemma close_bview_inner_prompt_views `{view_collab} fuel :
  forall e bview rc e' n,
  _editor_close_bview_inner fuel e bview = Some (rc, e', n) ->
  no_new_prompt e' e /\
  (editor_bview_exists e (Some bview) = true -> rc = MLE_OK /\ bview ∉ all_bviews e').
Proof.
  induction fuel as [|fuel IH]; intros e bview rc e' n Hc; [discriminate|].
  cbn [_editor_close_bview_inner] in Hc.
  destruct (editor_bview_exists e (Some bview)) eqn:Hex; cbn [negb] in Hc.
  2:{ inversion Hc; subst. split; [apply no_new_prompt_refl|discriminate]. }
  assert (Hchild : exists e1 n1,
            match bview_field e bview split_child with
            | Some c =>
                match _editor_close_bview_inner fuel e c with
                | Some (_, e'0, n0) => Some (e'0, n0)
                | None => None
                end
            | None => Some (e, 0%nat)
            end = Some (e1, n1) /\ no_new_prompt e1 e).
  { destruct (bview_field e bview split_child) as [c|].
    - destruct (_editor_close_bview_inner fuel e c) as [[[rc0 e0] n0]|] eqn:Ec;
        [|discriminate].
      exists e0, n0. split; [reflexivity|]. eapply IH; eauto.
    - exists e, 0%nat. split; [reflexivity|apply no_new_prompt_refl]. }
  destruct Hchild as (e1 & n1 & Heq & H1). rewrite Heq in Hc.
  match type of Hc with
  | context [delete bview (bviews ?x)] => set (e2 := x) in *
  end.
  assert (H2 : no_new_prompt e2 e1).
  { subst e2. destruct (bview_field e1 bview split_parent) as [sp|].
    - destruct (bviews e1 !! sp) as [pv|] eqn:Hsp.
      + eapply no_new_prompt_trans; [apply set_active_no_new_prompt|].
        apply set_split_child_no_new_prompt. exact Hsp.
      + apply set_active_no_new_prompt.
    - repeat case_match;
        solve [apply set_active_no_new_prompt
              | apply open_bview_no_new_prompt; discriminate]. }
  inversion Hc; subst rc e' n; clear Hc.
  split.
  - eapply no_new_prompt_trans; [|eapply no_new_prompt_trans; [exact H2|exact H1]].
    intros q v Hq Hv Ht. cbn in Hq, Hv.
    apply list_elem_of_filter in Hq as [Hne Hq].
    rewrite lookup_delete_ne in Hv by congruence. eauto.
  - intros _. split; [reflexivity|]. cbn.
    intros Hx. apply list_elem_of_filter in Hx as [Hx _]. congruence.
Qed.

(** The editor in which the nested loop of a prompt starts: one view
    more, a prompt view, which is [editor->prompt]. *)
Lemma editor_prompt_init_views `{view_collab} e title params kpi :
  (bview_new e).1 ∉ all_bviews e ->
  let e_in := editor_prompt_init e title params kpi in
  prompt e_in = Some (bview_new e).1 /\
  all_bviews e_in = (bview_new e).1 :: all_bviews e /\
  prompt_views e_in = (bview_new e).1 :: prompt_views e.
Proof.
  intros Hfresh. cbv zeta. unfold editor_prompt_init.
  pose proof (open_bview_prompt_views e MLE_BVIEW_TYPE_PROMPT true Hfresh) as Ho.
  cbv zeta in Ho.
  destruct (editor_open_bview e None MLE_BVIEW_TYPE_PROMPT true) as [e1 p].
  cbn [fst snd] in Ho. destruct Ho as (-> & Hall & Hpv & v & Hv & Hty).
  rewrite bool_decide_true in Hpv by reflexivity.
  cbn [bviews set_prompt]. rewrite Hv.
  split; [reflexivity|]. split; [exact Hall|].
  transitivity (prompt_views e1); [|exact Hpv].
  unfold prompt_views, MLE_BVIEW_IS_PROMPT.
  cbn [bviews all_bviews set_bviews set_prompt].
  apply prompt_views_same_types. intros q _.
  destruct (decide (q = (bview_new e).1)) as [->|Hne].
  - rewrite lookup_insert_eq, Hv. reflexivity.
  - rewrite lookup_insert_ne by congruence. reflexivity.
Qed.

(** C5.  With a prompt view open, [editor_prompt] fails at once: it
    returns ERR, stores NULL in the caller's answer when the caller passed
    one, and leaves the editor as it was, so that no view is opened.  At
    most one prompt view exists: when the prompt views of the editor are
    [editor->prompt] and no other, a call with no prompt open enters the
    nested loop with exactly one view more, the prompt view, which is
    [editor->prompt] (so that every call from inside the loop fails as
    above); and when the loop hands the editor back in that condition,
    the call returns OK with no prompt view left and [editor->prompt]
    NULL.  It does return when the prompt view has no split child.  No
    other view function of the core adds a prompt view: not
    [editor_open_bview] for another type, which is how the core calls it
    everywhere else, nor [editor_set_active], nor [editor_close_bview]. *)
Theorem second_prompt_fails `{view_collab} fuel e title params kmap_prompt_input
    optret_answer :
  (prompt e <> None ->
   editor_prompt fuel e title params kmap_prompt_input optret_answer
   = Some (MLE_ERR, (if optret_answer then Some None else None), e)) /\
  (one_prompt e -> (prompt_view_count e <= 1)%nat) /\
  (prompt e = None -> one_prompt e -> (bview_new e).1 ∉ all_bviews e ->
   let e_in := editor_prompt_init e title params kmap_prompt_input in
   let e_out := (_editor_loop e_in (set_invoker (active e) loop_ctx_zero)).1 in
   (prompt e_in = Some (bview_new e).1 /\
    all_bviews e_in = (bview_new e).1 :: all_bviews e /\
    one_prompt e_in /\ prompt_view_count e_in = 1%nat) /\
   (one_prompt e_out ->
    (forall r,
       editor_prompt fuel e title params kmap_prompt_input optret_answer = Some r ->
       r.1.1 = MLE_OK /\ prompt r.2 = None /\ one_prompt r.2 /\
       prompt_view_count r.2 = 0%nat) /\
    ((forall bt, prompt e_out = Some bt -> bview_field e_out bt split_child = None) ->
     is_Some (editor_prompt (S fuel) e title params kmap_prompt_input optret_answer)))) /\
  ((forall parent type make_active, type <> MLE_BVIEW_TYPE_PROMPT ->
      no_new_prompt (editor_open_bview e parent type make_active).1 e) /\
   (forall bview, no_new_prompt (editor_set_active e bview).2 e) /\
   (forall fuel' bview rc e' n,
      editor_close_bview fuel' e bview = Some (rc, e', n) -> no_new_prompt e' e)).
Proof.
  split; [|split; [|split]].
  - intros Hp. unfold editor_prompt. rewrite bool_decide_true by exact Hp. reflexivity.
  - unfold one_prompt, prompt_view_count. intros ->. destruct (prompt e); simpl; lia.
  - intros Hp Hone Hfresh e_in e_out.
    destruct (editor_prompt_init_views e title params kmap_prompt_input Hfresh)
      as (Hpin & Hall & Hpv).
    fold e_in in Hpin, Hall, Hpv.
    assert (Hnone : prompt_views e = []) by (unfold one_prompt in Hone; rewrite Hp in Hone; exact Hone).
    rewrite Hnone in Hpv.
    split.
    { split; [exact Hpin|]. split; [exact Hall|]. split.
      - unfold one_prompt. rewrite Hpin. exact Hpv.
      - unfold prompt_view_count. rewrite Hpv. reflexivity. }
    intros Hout.
    assert (Hfinal : forall e5,
              prompt e5 = None -> prompt_views e5 = [] ->
              let e6 := (editor_set_active e5 (invoker
                           (_editor_loop e_in (set_invoker (active e) loop_ctx_zero)).2)).2 in
              prompt e6 = None /\ one_prompt e6 /\ prompt_view_count e6 = 0%nat).
    { intros e5 Hp5 Hv5. cbv zeta.
      unfold one_prompt, prompt_view_count.
      rewrite set_active_prompt, set_active_prompt_views, Hp5, Hv5. auto. }
    assert (Hclose : forall bt r5,
              prompt e_out = Some bt ->
              editor_close_bview fuel (set_prompt None e_out) bt = Some r5 ->
              prompt r5.1.2 = None /\ prompt_views r5.1.2 = []).
    { intros bt [[rc5 e5] n5] Hbt Hc. cbn [fst snd].
      unfold editor_close_bview in Hc.
      pose proof (close_bview_inner_prompt _ _ _ _ _ _ Hc) as Hp5.
      destruct (close_bview_inner_prompt_views _ _ _ _ _ _ Hc) as [Hsub Hgone].
      split; [exact Hp5|].
      assert (Hv4 : prompt_views (set_prompt None e_out) = [bt]).
      { unfold one_prompt in Hout. rewrite Hbt in Hout. exact Hout. }
      assert (Hex : editor_bview_exists (set_prompt None e_out) (Some bt) = true).
      { apply bview_exists_loop_spec. exists bt. split; [reflexivity|].
        assert (Hin : bt ∈ prompt_views (set_prompt None e_out))
          by (rewrite Hv4; constructor).
        apply prompt_views_elem in Hin as [Hin _]. exact Hin. }
      destruct (Hgone Hex) as [_ Hnot].
      destruct (prompt_views e5) as [|q l] eqn:E5; [reflexivity|exfalso].
      assert (Hq5 : q ∈ prompt_views e5) by (rewrite E5; constructor).
      pose proof (no_new_prompt_views _ _ Hsub q Hq5) as Hq4.
      rewrite Hv4 in Hq4. apply list_elem_of_singleton in Hq4. subst q.
      apply prompt_views_elem in Hq5 as [Hq5 _]. contradiction. }
    split.
    + intros r Hr. unfold editor_prompt in Hr.
      rewrite bool_decide_false in Hr by (rewrite Hp; auto).
      fold e_in in Hr.
      destruct (_editor_loop e_in (set_invoker (active e) loop_ctx_zero))
        as [e3 lc'] eqn:El.
      cbn [fst snd] in *. subst e_out.
      destruct (prompt e3) as [bt|] eqn:Hbt.
      * destruct (editor_close_bview fuel (set_prompt None e3) bt) as [r5|] eqn:Ec;
          [|discriminate].
        destruct (Hclose bt r5 eq_refl Ec) as [Hp5 Hv5].
        destruct r5 as [[rc5 e5] n5]. inversion Hr; subst r. cbn [fst snd] in *.
        split; [reflexivity|]. apply Hfinal; assumption.
      * inversion Hr; subst r. cbn [fst snd].
        split; [reflexivity|]. apply Hfinal; [reflexivity|].
        unfold one_prompt in Hout. rewrite Hbt in Hout. exact Hout.
    + intros Hleaf. unfold editor_prompt.
      rewrite bool_decide_false by (rewrite Hp; auto).
      fold e_in.
      destruct (_editor_loop e_in (set_invoker (active e) loop_ctx_zero))
        as [e3 lc'] eqn:El.
      cbn [fst snd] in *. subst e_out.
      destruct (prompt e3) as [bt|] eqn:Hbt; [|eexists; reflexivity].
      unfold editor_close_bview. cbn [_editor_close_bview_inner].
      assert (Hchild : bview_field (set_prompt None e3) bt split_child = None)
        by exact (Hleaf bt eq_refl).
      rewrite Hchild.
      destruct (negb (editor_bview_exists (set_prompt None e3) (Some bt)));
        eexists; reflexivity.
  - split; [|split].
    + intros parent type make_active Hty. apply open_bview_no_new_prompt. exact Hty.
    + intros bview. apply set_active_no_new_prompt.
    + intros fuel' bview rc e' n Hc. unfold editor_close_bview in Hc.
      exact (proj1 (close_bview_inner_prompt_views _ _ _ _ _ _ Hc)).
Qed.

(** A second prompt while [record_macro: Name?] is open, and a prompt
    opened and closed again in an editor with two EDIT views. *)
Lemma second_prompt_fails_witness :
  @editor_prompt sample_views 5 editor_with_prompt "record_macro: Name?" None
    kmap_prompt_input true
  = Some (MLE_ERR, Some None, editor_with_prompt) /\
  (prompt_view_count editor_with_prompt <= 1)%nat /\
  prompt_view_count
    (@editor_prompt_init sample_views editor_without_prompt "Name?" None
       kmap_prompt_input) = 1%nat /\
  exists r,
    @editor_prompt sample_views 5 editor_without_prompt "Name?" None
      kmap_prompt_input true = Some r /\
    r.1.1 = MLE_OK /\ prompt r.2 = None /\ one_prompt r.2 /\
    prompt_view_count r.2 = 0%nat.
Proof.
  destruct (@second_prompt_fails sample_views 5 editor_with_prompt
              "record_macro: Name?" None kmap_prompt_input true) as (Hguard & Hle & _ & _).
  split; [apply Hguard; discriminate|].
  split; [apply Hle; reflexivity|].
  destruct (@second_prompt_fails sample_views 5 editor_without_prompt
              "Name?" None kmap_prompt_input true) as (_ & _ & Hok & _).
  destruct Hok as [(_ & _ & _ & Hcount) Hret].
  - reflexivity.
  - reflexivity.
  - apply (bool_decide_unpack _). vm_compute. exact I.
  - split; [exact Hcount|].
    destruct Hret as [Hr _]; [reflexivity|].
    eexists. split; [vm_compute; reflexivity|].
    apply Hr. vm_compute. reflexivity.
Defined.

(** C10.  With a prompt open, [editor_set_active] returns ERR and leaves
    the editor, hence [active], unchanged, also when the view is in
    [all_bviews].  It returns OK exactly when no prompt is open and the
    view is in [all_bviews]; it then sets [active] to the view and, for an
    EDIT view, [active_edit] to the view and [active_edit_root] to its
    split root, and writes nothing else. *)
Theorem set_active_guard `{view_collab} e bview :
  (prompt e <> None -> editor_set_active e bview = (MLE_ERR, e)) /\
  ((editor_set_active e bview).1 = MLE_OK <->
   prompt e = None /\ exists p, bview = Some p /\ p ∈ all_bviews e) /\
  ((editor_set_active e bview).1 = MLE_OK ->
   let e' := (editor_set_active e bview).2 in
   active e' = bview /\
   (MLE_BVIEW_IS_EDIT e bview = true ->
    active_edit e' = bview /\
    active_edit_root e' = bview_get_split_root (bviews e) bview) /\
   (MLE_BVIEW_IS_EDIT e bview = false ->
    active_edit e' = active_edit e /\ active_edit_root e' = active_edit_root e) /\
   bviews e' = bviews e /\ all_bviews e' = all_bviews e /\
   top_bviews e' = top_bviews e /\ prompt e' = prompt e) /\
  ((editor_set_active e bview).1 <> MLE_OK ->
   editor_set_active e bview = (MLE_ERR, e)).
Proof.
  unfold editor_set_active, editor_bview_exists, MLE_RETURN_ERR.
  destruct (bview_exists_loop (all_bviews e) bview) eqn:Hex; simpl.
  - apply bview_exists_loop_spec in Hex.
    case_bool_decide as Hp; simpl.
    + repeat split; try congruence; try discriminate.
      intros (Hn & _). congruence.
    + assert (Hn : prompt e = None) by (destruct (prompt e); [first [discriminate Hp | exfalso; apply Hp; discriminate]|reflexivity]).
      change (MLE_BVIEW_IS_EDIT (Editor (bviews e) (all_bviews e) (top_bviews e)
                bview (active_edit e) (active_edit_root e) (prompt e)) bview)
        with (MLE_BVIEW_IS_EDIT e bview).
      destruct (MLE_BVIEW_IS_EDIT e bview) eqn:Hed; simpl;
        repeat split; try congruence; try discriminate; auto.
  - assert (Hnex : ~ exists p, bview = Some p /\ p ∈ all_bviews e).
    { rewrite <- bview_exists_loop_spec. congruence. }
    repeat split; try congruence; try discriminate.
    intros (_ & Hin). contradiction.
Qed.

Lemma set_active_guard_witness :
  @editor_set_active sample_views editor_with_prompt (Some 1%positive)
  = (MLE_ERR, editor_with_prompt)
  /\ active (@editor_set_active sample_views editor_without_prompt
               (Some 3%positive)).2 = Some 3%positive
  /\ active_edit (@editor_set_active sample_views editor_without_prompt
                    (Some 3%positive)).2 = Some 3%positive.
Proof.
  destruct (@set_active_guard sample_views editor_with_prompt (Some 1%positive))
    as (Herr & _).
  destruct (@set_active_guard sample_views editor_without_prompt (Some 3%positive))
    as (_ & _ & Hok & _).
  split; [apply Herr; discriminate|].
  destruct (Hok eq_refl) as (Ha & Hedit & _).
  split; [exact Ha|]. apply Hedit. reflexivity.
Defined.

(** ** Tab completion *)

Lemma count_newlines_app s t :
  count_newlines (s ++ t) = count_newlines s + count_newlines t.
Proof. induction s as [|c s IH]; simpl; [reflexivity|]. rewrite IH. lia. Qed.

Lemma count_newlines_none s : 10 ∉ s -> count_newlines s = 0.
Proof.
  induction s as [|c s IH]; simpl; [reflexivity|]. intros Hn.
  rewrite not_elem_of_cons in Hn. destruct Hn as [Hc Hs].
  rewrite bool_decide_false by congruence. rewrite IH by assumption. reflexivity.
Qed.

Lemma count_newlines_terms_of cands :
  Forall candidate_ok cands ->
  count_newlines (terms_of cands) = Z.of_nat (length cands).
Proof.
  induction 1 as [|c cands (_ & Hc & _) _ IH]; [reflexivity|].
  unfold terms_of in *. simpl concat. simpl length.
  rewrite !count_newlines_app, IH, (count_newlines_none c Hc). simpl. lia.
Qed.

Lemma strtok_newline_run c cur s :
  10 ∉ c -> strtok_newline cur (c ++ s) = strtok_newline (rev c ++ cur) s.
Proof.
  revert cur. induction c as [|x c IH]; intros cur Hn; simpl; [reflexivity|].
  rewrite not_elem_of_cons in Hn. destruct Hn as [Hx Hc].
  rewrite bool_decide_false by congruence.
  rewrite IH by assumption. rewrite <- app_assoc. reflexivity.
Qed.

(** The tokens of an output of candidates followed by further bytes. *)
Lemma strtok_newline_terms_of cands t :
  Forall candidate_ok cands ->
  strtok_newline [] (terms_of cands ++ t) = cands ++ strtok_newline [] t.
Proof.
  induction 1 as [|c cands (Hne & Hc & _) _ IH]; [reflexivity|].
  unfold terms_of in *. simpl concat. rewrite <- !app_assoc.
  rewrite strtok_newline_run by assumption. rewrite app_nil_r. simpl.
  rewrite IH. destruct (rev c) eqn:E.
  - apply (f_equal (@rev Z)) in E. rewrite rev_involutive in E. simpl in E. congruence.
  - rewrite <- E, rev_involutive. reflexivity.
Qed.

Lemma c_string_app s t : 0 ∉ s -> c_string (s ++ t) = s ++ c_string t.
Proof.
  induction s as [|c s IH]; intros Hn; simpl; [reflexivity|].
  rewrite not_elem_of_cons in Hn. destruct Hn as [Hc Hs].
  rewrite bool_decide_false by congruence. rewrite IH by assumption. reflexivity.
Qed.

Lemma terms_of_no_nul cands : Forall candidate_ok cands -> 0 ∉ terms_of cands.
Proof.
  induction 1 as [|c cands (_ & _ & Hc) _ IH]; [apply not_elem_of_nil|].
  unfold terms_of in *. simpl concat.
  rewrite !not_elem_of_app. repeat split; [exact Hc| |exact IH].
  intros Hx. apply list_elem_of_singleton in Hx. discriminate.
Qed.

Lemma pick_candidate (cands : list (list Z)) (i : nat) :
  cands <> [] ->
  exists c, cands !! (i `mod` length cands)%nat = Some c /\
    cands !! Z.to_nat (Z.rem (Z.of_nat i) (Z.of_nat (length cands))) = Some c.
Proof.
  intros Hne.
  assert (Hlen : (0 < length cands)%nat) by (destruct cands; [congruence|simpl; lia]).
  assert (Hlt : (i `mod` length cands < length cands)%nat)
    by (apply Nat.mod_upper_bound; lia).
  destruct (lookup_lt_is_Some_2 cands _ Hlt) as [c Hc].
  exists c. split; [exact Hc|].
  rewrite Z.rem_mod_nonneg by lia.
  rewrite <- Nat2Z.inj_mod, Nat2Z.id. exact Hc.
Qed.

(** What the completion reads and picks when the shell delivers the
    candidates and no newline stands behind them before the NUL. *)
Lemma pick_from_output `{shell} cmd cands (i : nat) :
  (util_shell_exec cmd).2 = Some (Some (terms_of cands)) ->
  10 ∉ c_string (heap_after cmd) ->
  cands <> [] -> Forall candidate_ok cands ->
  match (util_shell_exec cmd).2 with Some output => output | None => None end
  = Some (terms_of cands) /\
  count_newlines (c_string (terms_of cands ++ heap_after cmd))
  = Z.of_nat (length cands) /\
  exists c,
    cands !! (i `mod` length cands)%nat = Some c /\
    strtok_newline [] (c_string (terms_of cands ++ heap_after cmd))
      !! Z.to_nat (Z.rem (Z.of_nat i) (Z.of_nat (length cands))) = Some c.
Proof.
  intros Hout Hjunk Hne Hok. rewrite Hout. split; [reflexivity|].
  rewrite (c_string_app _ _ (terms_of_no_nul _ Hok)).
  split.
  - rewrite count_newlines_app, (count_newlines_terms_of _ Hok),
      (count_newlines_none _ Hjunk). lia.
  - destruct (pick_candidate cands i Hne) as (c & Hc1 & Hc2).
    exists c. split; [exact Hc1|].
    rewrite (strtok_newline_terms_of _ _ Hok).
    apply lookup_app_l_Some. exact Hc2.
Qed.

Lemma streak_press `{mle_h} `{termbox_h} `{shell} fm cmd_ref fr stem cands i st :
  fm !! cmd_ref = Some fr ->
  func fr = Some fn_editor_prompt_input_complete ->
  (util_shell_exec (compgen_cmd stem)).2 = Some (Some (terms_of cands)) ->
  10 ∉ c_string (heap_after (compgen_cmd stem)) ->
  cands <> [] -> Forall candidate_ok cands ->
  in_streak fm cmd_ref stem i st ->
  exists st',
    tab_press cmd_ref st = Some st' /\
    in_streak fm cmd_ref stem (S i) st' /\
    cands !! (S i `mod` length cands)%nat = Some (prompt_buffer st').
Proof.
  intros Hfr Hfn Hout Hjunk Hne Hok (Hfm & Hlast & Hterm & Hidx).
  destruct st as [buf lc fm0]. simpl in *. subst fm0.
  unfold tab_press, _editor_prompt_input_complete. simpl.
  unfold last_cmd_is. rewrite Hlast, Hfr, Hfn.
  rewrite bool_decide_true by reflexivity. simpl.
  rewrite Hterm.
  destruct (pick_from_output (compgen_cmd stem) cands (S i) Hout Hjunk Hne Hok)
    as (Ht & Hcount & c & Hc1 & Hc2).
  rewrite Ht, Hcount.
  assert (Hlen : (0 < length cands)%nat) by (destruct cands; [congruence|simpl; lia]).
  assert (Hn : (Z.of_nat (length cands) <? 1) = false) by (apply Z.ltb_ge; lia).
  rewrite Hn, Hidx.
  replace (Z.of_nat i + 1) with (Z.of_nat (S i)) by lia.
  rewrite Hc2. eexists. split; [reflexivity|].
  unfold in_streak. simpl. repeat split; try assumption; try lia.
Qed.

Lemma first_press `{mle_h} `{termbox_h} `{shell} cmd_ref fr cands st :
  let stem := snprintf_s MLE_LOOP_CTX_MAX_COMPLETE_TERM_SIZE
                (Z.of_nat (length (first_line (prompt_buffer st))))
                (first_line (prompt_buffer st)) in
  c_func_map st !! cmd_ref = Some fr ->
  func fr = Some fn_editor_prompt_input_complete ->
  last_cmd_is (c_func_map st) (c_loop_ctx st) fn_editor_prompt_input_complete = false ->
  Z.of_nat (length (first_line (prompt_buffer st))) < MLE_LOOP_CTX_MAX_COMPLETE_TERM_SIZE ->
  (util_shell_exec (compgen_cmd stem)).2 = Some (Some (terms_of cands)) ->
  10 ∉ c_string (heap_after (compgen_cmd stem)) ->
  cands <> [] -> Forall candidate_ok cands ->
  exists st',
    tab_press cmd_ref st = Some st' /\
    in_streak (c_func_map st) cmd_ref stem 0 st' /\
    cands !! (0 `mod` length cands)%nat = Some (prompt_buffer st').
Proof.
  intros stem Hfr Hfn Hlast Hlen Hout Hjunk Hne Hok.
  destruct st as [buf lc fm]. simpl in *.
  unfold tab_press, _editor_prompt_input_complete. simpl.
  rewrite Hlast.
  assert (Hlt : (Z.of_nat (length (first_line buf)) <? MLE_LOOP_CTX_MAX_COMPLETE_TERM_SIZE) = true)
    by (apply Z.ltb_lt; exact Hlen).
  rewrite Hlt. simpl. fold stem.
  destruct (pick_from_output (compgen_cmd stem) cands 0 Hout Hjunk Hne Hok)
    as (Ht & Hcount & c & Hc1 & Hc2).
  rewrite Ht, Hcount.
  assert (Hpos : (0 < length cands)%nat) by (destruct cands; [congruence|simpl; lia]).
  assert (Hn : (Z.of_nat (length cands) <? 1) = false) by (apply Z.ltb_ge; lia).
  rewrite Hn.
  change (Z.of_nat 0) with 0 in Hc2. rewrite Hc2. eexists. split; [reflexivity|].
  unfold in_streak. simpl. repeat split; assumption.
Qed.

(** C9 (as the code has it).  In a streak of presses of [tab] started from
    prompt contents [s], when the shell run delivers N candidates (N at
    least 1) one per line and no newline stands in the buffer between the
    end of this output and the next NUL, the k-th press sets the buffer
    to candidate (k-1) mod N: the presses cycle through the candidates
    with period N.  The N-th press leaves the last candidate in the
    buffer, not [s]. *)
Theorem tab_cycle `{mle_h} `{termbox_h} `{shell} cmd_ref fr cands st :
  let stem := snprintf_s MLE_LOOP_CTX_MAX_COMPLETE_TERM_SIZE
                (Z.of_nat (length (first_line (prompt_buffer st))))
                (first_line (prompt_buffer st)) in
  c_func_map st !! cmd_ref = Some fr ->
  func fr = Some fn_editor_prompt_input_complete ->
  last_cmd_is (c_func_map st) (c_loop_ctx st) fn_editor_prompt_input_complete = false ->
  Z.of_nat (length (first_line (prompt_buffer st))) < MLE_LOOP_CTX_MAX_COMPLETE_TERM_SIZE ->
  (util_shell_exec (compgen_cmd stem)).2 = Some (Some (terms_of cands)) ->
  10 ∉ c_string (heap_after (compgen_cmd stem)) ->
  cands <> [] -> Forall candidate_ok cands ->
  (forall k, (1 <= k)%nat ->
     exists st',
       tab_presses k cmd_ref st = Some st' /\
       cands !! ((k - 1) `mod` length cands)%nat = Some (prompt_buffer st')) /\
  (exists st',
     tab_presses (length cands) cmd_ref st = Some st' /\
     last cands = Some (prompt_buffer st')) /\
  (forall k, (1 <= k)%nat ->
     prompt_buffer <$> tab_presses (k + length cands) cmd_ref st
     = prompt_buffer <$> tab_presses k cmd_ref st).
Proof.
  intros stem Hfr Hfn Hlast Hlen Hout Hjunk Hne Hok.
  assert (Hmain : forall k, exists st',
            tab_presses (S k) cmd_ref st = Some st' /\
            in_streak (c_func_map st) cmd_ref stem k st' /\
            cands !! (k `mod` length cands)%nat = Some (prompt_buffer st')).
  { assert (Hsnoc : forall n (s s1 s2 : complete_state),
              tab_presses n cmd_ref s = Some s1 ->
              tab_press cmd_ref s1 = Some s2 ->
              tab_presses (S n) cmd_ref s = Some s2).
    { induction n as [|n IH]; intros s s1 s2 Hn1 Hn2.
      - simpl in Hn1. inversion Hn1; subst. simpl. rewrite Hn2. reflexivity.
      - cbn [tab_presses] in Hn1 |- *.
        destruct (tab_press cmd_ref s) as [sa|]; [|discriminate].
        exact (IH sa s1 s2 Hn1 Hn2). }
    induction k as [|k IH].
    - destruct (first_press cmd_ref fr cands st Hfr Hfn Hlast Hlen Hout Hjunk Hne Hok)
        as (st' & Hp & Hs & Hc).
      exists st'. split; [|split; assumption].
      simpl. rewrite Hp. reflexivity.
    - destruct IH as (st1 & Hp1 & Hs1 & _).
      destruct (streak_press (c_func_map st) cmd_ref fr stem cands k st1
                  Hfr Hfn Hout Hjunk Hne Hok Hs1) as (st2 & Hp2 & Hs2 & Hc2).
      exists st2. split; [|split; assumption].
      exact (Hsnoc _ _ _ _ Hp1 Hp2). }
  assert (Hpos : (0 < length cands)%nat) by (destruct cands; [congruence|simpl; lia]).
  split; [|split].
  - intros k Hk. destruct k as [|k]; [lia|].
    destruct (Hmain k) as (st' & Hp & _ & Hc).
    exists st'. split; [exact Hp|].
    replace (S k - 1)%nat with k by lia. exact Hc.
  - destruct (length cands) as [|n] eqn:En; [lia|].
    destruct (Hmain n) as (st' & Hp & _ & Hc).
    exists st'. split; [exact Hp|].
    rewrite Nat.mod_small in Hc by lia.
    rewrite last_lookup, En. simpl. exact Hc.
  - intros k Hk. destruct k as [|k]; [lia|].
    destruct (Hmain k) as (st1 & Hp1 & _ & Hc1).
    destruct (Hmain (k + length cands)%nat) as (st2 & Hp2 & _ & Hc2).
    change (S k + length cands)%nat with (S (k + length cands)).
    rewrite Hp1, Hp2. simpl.
    replace ((k + length cands) `mod` length cands)%nat
      with (k `mod` length cands)%nat in Hc2.
    + congruence.
    + rewrite <- (Nat.Div0.add_mod_idemp_r k (length cands) (length cands)).
      rewrite Nat.Div0.mod_same, Nat.add_0_r. reflexivity.
Qed.

(** Three presses from [fo] with the candidates [foo] and [fox]. *)
Lemma tab_cycle_witness :
  (exists st',
     @tab_presses sample_h termbox_utf8 sample_shell 3
       "_editor_prompt_input_complete"%string sample_complete_state = Some st' /\
     [cand_foo; cand_fox] !! ((3 - 1) `mod` 2)%nat = Some (prompt_buffer st')) /\
  (exists st',
     @tab_presses sample_h termbox_utf8 sample_shell 2
       "_editor_prompt_input_complete"%string sample_complete_state = Some st' /\
     last [cand_foo; cand_fox] = Some (prompt_buffer st')).
Proof.
  destruct (@tab_cycle sample_h termbox_utf8 sample_shell
              "_editor_prompt_input_complete"%string
              (Funcref "_editor_prompt_input_complete"
                 (Some fn_editor_prompt_input_complete))
              [cand_foo; cand_fox] sample_complete_state)
    as (Hk & Hn & _).
  - vm_compute. reflexivity.
  - reflexivity.
  - vm_compute. reflexivity.
  - vm_compute. reflexivity.
  - vm_compute. reflexivity.
  - apply (bool_decide_unpack _). vm_compute. exact I.
  - discriminate.
  - constructor; [|constructor; [|constructor]];
      (split; [discriminate |
        split; apply (bool_decide_unpack _); vm_compute; exact I]).
  - split; [apply (Hk 3%nat); lia | exact Hn].
Defined.

(** C9, as stated, fails: from the prompt contents [fo] with the two
    candidates [foo] and [fox], the second press (N = 2) leaves [fox] in
    the buffer, not [fo]; the third press shows [foo] again. *)
Lemma tab_presses_do_not_restore_input :
  prompt_buffer sample_complete_state = [102; 111]
  /\ (prompt_buffer <$> @tab_presses sample_h termbox_utf8 sample_shell 1
        "_editor_prompt_input_complete"%string sample_complete_state)
     = Some cand_foo
  /\ (prompt_buffer <$> @tab_presses sample_h termbox_utf8 sample_shell 2
        "_editor_prompt_input_complete"%string sample_complete_state)
     = Some cand_fox
  /\ (prompt_buffer <$> @tab_presses sample_h termbox_utf8 sample_shell 3
        "_editor_prompt_input_complete"%string sample_complete_state)
     = Some cand_foo
  /\ cand_fox <> [102; 111].
Proof. repeat split; try (vm_compute; reflexivity). discriminate. Qed.

(** [util_shell_exec] writes no NUL behind the output, and the completion
    reads on to the next one: with [zz] and a newline left in the buffer,
    the third press shows [zz] and the cycle has three places. *)
Lemma stale_bytes_become_candidates :
  (prompt_buffer <$> @tab_presses sample_h termbox_utf8 stale_shell 3
     "_editor_prompt_input_complete"%string sample_complete_state)
  = Some [122; 122]
  /\ (prompt_buffer <$> @tab_presses sample_h termbox_utf8 stale_shell 4
        "_editor_prompt_input_complete"%string sample_complete_state)
     = Some cand_foo.
Proof. split; vm_compute; reflexivity. Qed.

(** ** Async multiplexer *)

Lemma util_timeval_is_gt_spec a b :
  util_timeval_is_gt a b = true <->
  (tv_sec b < tv_sec a \/ (tv_sec a = tv_sec b /\ tv_usec b < tv_usec a)).
Proof.
  unfold util_timeval_is_gt.
  destruct (Z.ltb_spec (tv_sec b) (tv_sec a)); [intuition lia|].
  destruct (Z.eqb_spec (tv_sec a) (tv_sec b)).
  - destruct (Z.ltb_spec (tv_usec b) (tv_usec a)); [intuition lia|].
    split; [discriminate|lia].
  - split; [discriminate|lia].
Qed.

(** A proc whose pipe is not ready is destroyed exactly when it is flagged
    done or the time read after [select] is earlier than its [timeout]. *)
Lemma drain_proc_silent `{aproc_callbacks} readfds now aproc :
  pipefd aproc ∉ readfds ->
  ((drain_proc readfds now aproc).2 = None <->
   is_done aproc = true \/
   tv_sec now < tv_sec (timeout aproc) \/
   (tv_sec (timeout aproc) = tv_sec now /\ tv_usec now < tv_usec (timeout aproc))) /\
  ((drain_proc readfds now aproc).2 <> None ->
   drain_proc readfds now aproc = ([], Some aproc)).
Proof.
  intros Hnr. unfold drain_proc. rewrite bool_decide_false by exact Hnr. simpl.
  rewrite <- util_timeval_is_gt_spec.
  destruct (is_done aproc), (util_timeval_is_gt (timeout aproc) now); simpl;
    intuition congruence.
Qed.

(** C7: the deadline test of the multiplexer is inverted.  At time 50 s
    [select] reports one descriptor, the pipe of a proc at end of file.
    Of the two procs that are not ready, not flagged done, not at end of
    file and not in error, the one whose [timeout] is at 100 s is
    destroyed after a callback with done=1, and the one whose [timeout]
    was at 10 s survives the turn: the test is
    [util_timeval_is_gt(&aproc->timeout, &now)]. *)
Theorem drain_destroys_before_deadline :
  @_editor_drain_async_procs sample_stdio sample_callbacks sample_async_three
    None 1 {[7]} (Timeval 50 0)
  = (1,
     @AsyncState sample_stdio (Some 3) [proc_deadline_passed],
     [(5, CallbackArgs None 0 false false true);
      (7, CallbackArgs None 0 false false true)])
  /\ util_timeval_is_gt (@timeout sample_stdio proc_deadline_ahead) (Timeval 50 0) = true
  /\ util_timeval_is_gt (Timeval 50 0) (@timeout sample_stdio proc_deadline_passed) = true.
Proof. repeat split; vm_compute; reflexivity. Qed.

(** C8.  When [select] reports the TTY ready, the multiplexer returns 0
    at once, whatever other descriptors are ready: no proc is read (the
    procs and their streams are as before) and no callback is called. *)
Theorem tty_priority `{aproc_callbacks} e tty_open rc readfds now fd :
  (ttyfd e = Some fd \/ (ttyfd e = None /\ tty_open = Some fd)) ->
  0 < rc ->
  fd ∈ readfds ->
  _editor_drain_async_procs e tty_open rc readfds now
  = (0, AsyncState _ (Some fd) (async_procs e), []).
Proof.
  intros Hfd Hrc Hin. unfold _editor_drain_async_procs.
  assert (Hopen : match ttyfd e with Some fd0 => Some fd0 | None => tty_open end = Some fd).
  { destruct Hfd as [->|[-> ->]]; reflexivity. }
  rewrite Hopen.
  assert (H1 : (rc <? 0) = false) by (apply Z.ltb_ge; lia).
  assert (H2 : (rc =? 0) = false) by (apply Z.eqb_neq; lia).
  rewrite H1, H2, bool_decide_true by exact Hin. reflexivity.
Qed.

Lemma tty_priority_witness :
  @_editor_drain_async_procs sample_stdio sample_callbacks sample_async_state
    None 2 {[3; 5]} (Timeval 50 0)
  = (0, @AsyncState sample_stdio (Some 3) (async_procs sample_async_state), []).
Proof.
  apply (@tty_priority sample_stdio sample_callbacks sample_async_state None 2
           {[3; 5]} (Timeval 50 0) 3).
  - left. reflexivity.
  - lia.
  - apply (bool_decide_unpack _). vm_compute. exact I.
Defined.

(** * Further properties of the core *)

(** ** The command registry *)

(** X1.  Command references are late-bound: registering a name with a
    function and registering it without one (as a key binding does) commute,
    and either order leaves a handle whose function is the one given, which
    [_editor_resolve_funcref] returns; no other name is touched. *)
Theorem register_cmd_late_binding fm name f :
  let fm1 := (editor_register_cmd (editor_register_cmd fm name (Some f)).1 name None).1 in
  let fm2 := (editor_register_cmd (editor_register_cmd fm name None).1 name (Some f)).1 in
  fm1 = fm2 /\
  (_editor_resolve_funcref fm1 (editor_register_cmd fm name None).2).1 = Some f /\
  (_editor_resolve_funcref fm1 name).2 = fm1 /\
  (forall other, other <> name -> fm1 !! other = fm !! other).
Proof.
  unfold editor_register_cmd, _editor_resolve_funcref.
  destruct (fm !! name) as [fr|] eqn:E; simpl.
  - rewrite !lookup_insert_eq, E. simpl. rewrite !lookup_insert_eq. simpl.
    repeat split. intros other Hne. rewrite lookup_insert_ne by congruence. reflexivity.
  - rewrite !lookup_insert_eq. simpl. rewrite !lookup_insert_eq. simpl.
    rewrite insert_insert_eq.
    repeat split. intros other Hne. rewrite lookup_insert_ne by congruence. reflexivity.
Qed.

(** ** Brackets and times *)

(** X2.  [util_get_bracket_pair] pairs the brackets by kind: for each of
    the pairs [[]], [()] and [{}] it maps the opening bracket to the
    closing one with the closing flag 0 and the closing bracket to the
    opening one with the flag 1, the flag being stored only when the
    caller passed a cell for it.  Hence the pair of the pair of a bracket
    is the bracket itself, with the opposite flag.  On any other
    character it returns 0 and leaves the flag as it was. *)
Theorem bracket_pair_involution c o :
  let r := util_get_bracket_pair c o in
  let stored (v : bool) := match o with Some _ => Some v | None => None end in
  (forall op cl, [op; cl] ∈ map bytes_of ["[]"; "()"; "{}"]%string ->
     util_get_bracket_pair op o = (cl, stored false) /\
     util_get_bracket_pair cl o = (op, stored true)) /\
  (r.1 <> 0 ->
   (util_get_bracket_pair r.1 r.2).1 = c /\
   (forall b, o = Some b ->
      exists closing, r.2 = Some closing /\
        (util_get_bracket_pair r.1 r.2).2 = Some (negb closing))) /\
  (r.1 = 0 <-> c <> 91 /\ c <> 93 /\ c <> 40 /\ c <> 41 /\ c <> 123 /\ c <> 125) /\
  (r.1 = 0 -> r.2 = o).
Proof.
  cbv zeta. split.
  { intros op cl Hin. cbn in Hin.
    repeat (apply elem_of_cons in Hin as [Hin|Hin];
            [inversion Hin; subst; split; reflexivity|]).
    inversion Hin. }
  unfold util_get_bracket_pair.
  repeat (match goal with
          | |- context [?x =? ?y] => destruct (Z.eqb_spec x y); [subst|]
          end; simpl);
    destruct o as [b0|]; simpl;
    repeat split; intros; try discriminate; try congruence; try lia;
    try (match goal with H : Some _ = Some _ |- _ => inversion H; subst end;
         eexists; split; reflexivity);
    try (match goal with H : _ /\ _ |- _ => destruct H as (?&?&?&?&?&?); congruence end).
Qed.

(** X3.  [util_timeval_is_gt] is a strict total order on times: it is
    irreflexive and transitive, and of two different times exactly one is
    greater than the other. *)
Theorem util_timeval_is_gt_strict_order :
  (forall a, util_timeval_is_gt a a = false) /\
  (forall a b c, util_timeval_is_gt a b = true -> util_timeval_is_gt b c = true ->
     util_timeval_is_gt a c = true) /\
  (forall a b, util_timeval_is_gt a b = true -> util_timeval_is_gt b a = false) /\
  (forall a b, a <> b ->
     util_timeval_is_gt a b = true \/ util_timeval_is_gt b a = true).
Proof.
  repeat split.
  - intros a. apply not_true_is_false. rewrite util_timeval_is_gt_spec. lia.
  - intros a b c. rewrite !util_timeval_is_gt_spec. lia.
  - intros a b H. apply not_true_is_false. revert H.
    rewrite !util_timeval_is_gt_spec. lia.
  - intros [s1 u1] [s2 u2] Hne. rewrite !util_timeval_is_gt_spec. simpl.
    destruct (Z.eq_dec s1 s2) as [->|]; [|lia].
    destruct (Z.eq_dec u1 u2) as [->|]; [congruence|lia].
Qed.

(** ** The async multiplexer, continued *)

(** X4.  The proc loop takes the procs one by one: the calls of a turn
    are the calls made for each proc, in the order of the list, and the
    procs left are those that were not destroyed, in that order.  For
    each proc there is at most one callback with data, made only when its
    descriptor is ready and bytes were read, and addressed to it; it is
    followed by one callback with done=1, without buffer, exactly when
    the proc is destroyed, and that call is addressed to the proc too
    when callbacks leave the descriptor of a proc alone. *)
Theorem drain_procs_callbacks `{aproc_callbacks} readfds now procs :
  let r := drain_procs readfds now procs in
  r.1 = concat (map (fun a => (drain_proc readfds now a).1) procs) /\
  r.2 = omap (fun a => (drain_proc readfds now a).2) procs /\
  (forall a,
     let ra := drain_proc readfds now a in
     exists data fin,
       ra.1 = data ++ fin /\
       (data = [] \/
        (pipefd a ∈ readfds /\
         exists args, data = [(pipefd a, args)] /\
           cb_is_done args = false /\ 0 < cb_nbytes args)) /\
       match ra.2 with
       | Some _ => fin = []
       | None =>
           exists fd, fin = [(fd, CallbackArgs None 0 false false true)] /\
             ((forall a' args, pipefd (callback a' args) = pipefd a') ->
              fd = pipefd a)
       end).
Proof.
  cbv zeta. split; [|split].
  - induction procs as [|aproc rest IH]; [reflexivity|].
    cbn [drain_procs map concat].
    destruct (drain_proc readfds now aproc) as [calls survivor].
    destruct (drain_procs readfds now rest) as [calls' rest'].
    cbn [fst snd] in *. rewrite IH. reflexivity.
  - induction procs as [|aproc rest IH]; [reflexivity|].
    cbn [drain_procs omap list_omap].
    destruct (drain_proc readfds now aproc) as [calls survivor].
    destruct (drain_procs readfds now rest) as [calls' rest'].
    cbn [fst snd] in *. rewrite IH. destruct survivor; reflexivity.
  - intros a. unfold drain_proc.
    destruct (bool_decide (pipefd a ∈ readfds)) eqn:Ernd.
    + apply bool_decide_eq_true in Ernd.
      destruct (fread (pipe a) 1024) as [buf pipe1].
      destruct (Z.ltb_spec 0 (Z.of_nat (length buf))) as [Hpos|Hzero].
      * match goal with
        | |- context [if ?c then _ else _] => destruct c
        end; cbn [fst snd].
        -- eexists _, _. split; [reflexivity|]. split.
           ++ right. split; [exact Ernd|]. eexists. split; [reflexivity|].
              split; [reflexivity|exact Hpos].
           ++ eexists. split; [reflexivity|]. intros Hfd. rewrite Hfd. reflexivity.
        -- eexists _, []. split; [rewrite app_nil_r; reflexivity|]. split; [|reflexivity].
           right. split; [exact Ernd|]. eexists. split; [reflexivity|].
           split; [reflexivity|exact Hpos].
      * match goal with
        | |- context [if ?c then _ else _] => destruct c
        end; cbn [fst snd].
        -- exists [], [(pipefd a, CallbackArgs None 0 false false true)].
           split; [reflexivity|]. split; [left; reflexivity|].
           eexists. split; [reflexivity|]. reflexivity.
        -- exists [], []. split; [reflexivity|]. split; [left; reflexivity|reflexivity].
    + match goal with
      | |- context [if ?c then _ else _] => destruct c
      end; cbn [fst snd].
      * exists [], [(pipefd a, CallbackArgs None 0 false false true)].
        split; [reflexivity|]. split; [left; reflexivity|].
        eexists. split; [reflexivity|]. reflexivity.
      * exists [], []. split; [reflexivity|]. split; [left; reflexivity|reflexivity].
Qed.

(** The turn of C7: the calls are those for the proc with its deadline
    ahead and for the proc at end of file. *)
Lemma drain_procs_callbacks_witness :
  (@drain_procs sample_stdio sample_callbacks {[7]} (Timeval 50 0)
     (async_procs sample_async_three)).1
  = concat (map (fun a => (@drain_proc sample_stdio sample_callbacks {[7]}
                             (Timeval 50 0) a).1)
              (async_procs sample_async_three)).
Proof.
  exact (proj1 (@drain_procs_callbacks sample_stdio sample_callbacks {[7]}
                  (Timeval 50 0) (async_procs sample_async_three))).
Defined.

(** X5.  The multiplexer returns 1 exactly when the TTY could be opened
    and [select] either timed out or reported descriptors without the TTY
    among them; unless [select] reported descriptors without the TTY, no
    callback is called and the list of procs is left as it was. *)
Theorem drain_again_iff `{aproc_callbacks} e tty_open rc readfds now :
  let opened := match ttyfd e with Some fd => Some fd | None => tty_open end in
  let r := _editor_drain_async_procs e tty_open rc readfds now in
  (r.1.1 = 1 <->
   exists fd, opened = Some fd /\ (rc = 0 \/ (0 < rc /\ fd ∉ readfds))) /\
  (r.1.1 = 0 \/ r.1.1 = 1) /\
  ((forall fd, opened = Some fd -> rc <= 0 \/ fd ∈ readfds) ->
   r.2 = [] /\ async_procs r.1.2 = async_procs e).
Proof.
  unfold _editor_drain_async_procs.
  destruct (match ttyfd e with Some fd => Some fd | None => tty_open end) as [fd|] eqn:Ho;
    simpl.
  - destruct (Z.ltb_spec rc 0); simpl.
    { repeat split; auto; try discriminate.
      intros (fd' & Heq & Hc). lia. }
    destruct (Z.eqb_spec rc 0); simpl.
    { repeat split; auto. intros _. exists fd. auto. }
    case_bool_decide as Hin; simpl.
    { repeat split; auto; try discriminate.
      intros (fd' & Heq & Hc). inversion Heq; subst. destruct Hc as [|[_ Hc]]; [lia|contradiction]. }
    destruct (drain_procs readfds now (async_procs e)) as [calls procs'] eqn:Ed. simpl.
    split; [|split; [auto|]].
    + split; [|reflexivity]. intros _. exists fd. split; [reflexivity|]. right. split; [lia|exact Hin].
    + intros Hq. destruct (Hq fd eq_refl); [lia|contradiction].
  - repeat split; auto; try discriminate.
    intros (fd' & Heq & _). discriminate.
Qed.

(** ** The prompt, continued *)

(** X6.  A call of [editor_prompt] made when no prompt is open returns OK
    and never leaves a prompt open: on return [editor->prompt] is NULL
    again, and the answer handed back is the one the nested loop left in
    its loop context, whose [invoker] was the view active at the call. *)
Theorem editor_prompt_releases `{view_collab} fuel e title params kpi optret r :
  prompt e = None ->
  editor_prompt fuel e title params kpi optret = Some r ->
  exists e_in e_out lc_out,
    _editor_loop e_in (set_invoker (active e) loop_ctx_zero) = (e_out, lc_out) /\
    prompt e_in <> None /\
    r.1.1 = MLE_OK /\
    r.1.2 = (if optret then Some (prompt_answer lc_out) else None) /\
    prompt r.2 = None.
Proof.
  intros Hp Hr. unfold editor_prompt in Hr.
  rewrite bool_decide_false in Hr by (rewrite Hp; auto).
  match type of Hr with
  | context [_editor_loop ?a ?b] =>
      destruct (_editor_loop a b) as [e3 lc'] eqn:El; exists a, e3, lc'
  end.
  split; [exact El|]. split.
  { unfold editor_prompt_init.
    destruct (editor_open_bview e None MLE_BVIEW_TYPE_PROMPT true) as [e1 p] eqn:Eo.
    destruct (bviews (set_prompt (Some p) e1) !! p); simpl; discriminate. }
  cbn [prompt set_prompt] in Hr.
  destruct (prompt e3) as [bt|].
  - destruct (editor_close_bview fuel (set_prompt None e3) bt) as [[[rc5 e5] n5]|] eqn:Ec;
      [|discriminate].
    inversion Hr; subst; simpl. repeat split.
    rewrite set_active_prompt.
    unfold editor_close_bview in Ec.
    rewrite (close_bview_inner_prompt _ _ _ _ _ _ Ec). reflexivity.
  - inversion Hr; subst; simpl. repeat split.
    rewrite set_active_prompt. reflexivity.
Qed.

Lemma editor_prompt_releases_witness :
  exists e_in e_out lc_out,
    @_editor_loop sample_views e_in (set_invoker (active editor_without_prompt) loop_ctx_zero)
    = (e_out, lc_out) /\
    prompt e_in <> None /\
    MLE_OK = MLE_OK /\
    Some (@None string) = Some (prompt_answer lc_out) /\
    prompt editor_without_prompt = None.
Proof.
  apply (@editor_prompt_releases sample_views 5 editor_without_prompt
           "Name?" None kmap_prompt_input true
           (MLE_OK, Some None, editor_without_prompt)).
  - reflexivity.
  - vm_compute. reflexivity.
Defined.

(** ** Parameters across turns, and paste ingestion *)

Lemma get_kbinding_node_params `{mle_h} h node inp lc is_peek b again lc1 :
  _editor_get_kbinding_node h node inp lc is_peek = (b, again, lc1) ->
  numeric_params lc `prefix_of` numeric_params lc1 /\
  wildcard_params lc `prefix_of` wildcard_params lc1.
Proof.
  unfold _editor_get_kbinding_node. intros Heq.
  repeat (case_match; simplify_eq/=);
    split; try reflexivity; apply prefix_app_r; reflexivity.
Qed.

Lemma get_command_loop_params `{mle_h} h inp is_peek stack :
  forall node is_top lc sp,
  let r := get_command_loop h inp is_peek stack node is_top lc sp in
  numeric_params lc `prefix_of` numeric_params r.1.2 /\
  wildcard_params lc `prefix_of` wildcard_params r.1.2 /\
  last_cmd r.1.2 = last_cmd lc.
Proof.
  induction stack as [|km rest IH]; intros node is_top lc sp; simpl;
    [repeat split; reflexivity|].
  destruct (_editor_get_kbinding_node h (if is_top then Some (bindings km) else node)
              inp lc is_peek) as [[b again] lc1] eqn:E.
  destruct (get_kbinding_node_params _ _ _ _ _ _ _ _ E) as [Hn Hw].
  destruct (get_kbinding_node_frame _ _ _ _ _ _ _ _ E) as (_ & _ & Hl).
  specialize (IH (if is_top then Some (bindings km) else node) true lc1 sp).
  simpl in IH. destruct IH as (IHn & IHw & IHl).
  repeat (case_match; simplify_eq/=); repeat split;
    try assumption; try (etransitivity; eassumption); try congruence.
Qed.

Lemma get_command_params `{mle_h} h stack ctx_input opt_peek lc sp :
  let r := _editor_get_command h stack ctx_input opt_peek lc sp in
  numeric_params lc `prefix_of` numeric_params r.1.2 /\
  wildcard_params lc `prefix_of` wildcard_params r.1.2 /\
  last_cmd r.1.2 = last_cmd lc.
Proof.
  unfold _editor_get_command.
  match goal with
  | |- context [get_command_loop ?h ?i ?p ?s ?n ?t ?l ?sp] =>
      pose proof (get_command_loop_params h i p s n t l sp) as Hl
  end.
  simpl in Hl. exact Hl.
Qed.

Lemma peek_frame_parts `{mle_h} h stack ctx_input k lc sp :
  let r := _editor_get_command h stack ctx_input (Some k) lc sp in
  numeric_params r.1.2 = numeric_params lc /\
  wildcard_params r.1.2 = wildcard_params lc /\
  last_cmd r.1.2 = last_cmd lc.
Proof.
  unfold _editor_get_command.
  destruct (get_command_loop_peek_frame h k stack (binding_node lc)
              (match binding_node lc with None => true | Some _ => false end)
              (set_binding_node None (set_need_more_input false lc)) sp) as (Hlc & _).
  simpl. rewrite Hlc. destruct lc; repeat split.
Qed.

Lemma ingest_paste_loop_params `{mle_h} h kt fm tty :
  forall ctx lc,
  numeric_params (ingest_paste_loop h kt fm tty ctx lc).2 = numeric_params lc /\
  wildcard_params (ingest_paste_loop h kt fm tty ctx lc).2 = wildcard_params lc /\
  last_cmd (ingest_paste_loop h kt fm tty ctx lc).2 = last_cmd lc.
Proof.
  induction tty as [|ev tty IH]; intros ctx lc; simpl; [auto|].
  destruct ev; simpl; auto.
  destruct (peek_frame_parts h kt (input ctx) k lc (ctx_static_param ctx))
    as (Hn & Hw & Hl).
  destruct (_editor_get_command h kt (input ctx) (Some k) lc (ctx_static_param ctx))
    as [[fr lc1] sp1]. simpl in *.
  destruct (is_insert_data fm fr); simpl.
  - edestruct IH as (H1 & H2 & H3). rewrite H1, H2, H3. auto.
  - auto.
Qed.

Lemma ingest_paste_loop_keys `{mle_h} h kt fm tty :
  forall ctx lc,
  has_pastebuf_leftover ctx = false ->
  binding_node lc = None -> need_more_input lc = false ->
  let r := ingest_paste_loop h kt fm tty ctx lc in
  let peek k :=
    (_editor_get_command h kt (input ctx) (Some k) lc (ctx_static_param ctx)).1.1 in
  (exists ks, pastebuf r.1.2 = pastebuf ctx ++ ks /\
     Forall (fun k => is_insert_data fm (peek k) = true) ks /\
     ks ++ leftover_of r.1.2 ++ keys_of r.1.1 = keys_of tty) /\
  (has_pastebuf_leftover r.1.2 = true ->
     is_insert_data fm (peek (pastebuf_leftover r.1.2)) = false).
Proof.
  induction tty as [|ev tty IH]; intros ctx lc Hl Hb Hn; simpl.
  - split; [|congruence].
    exists []. rewrite app_nil_r. unfold leftover_of. rewrite Hl. auto.
  - destruct ev; simpl;
      try (split; [|congruence]; exists []; rewrite app_nil_r;
           unfold leftover_of; rewrite Hl; auto).
    destruct (get_command_peek_id h kt (input ctx) k lc (ctx_static_param ctx) Hb Hn)
      as (fr & E).
    rewrite E. destruct (is_insert_data fm fr) eqn:Ei; simpl.
    + destruct ctx; simpl in *.
      match goal with
      | |- context [ingest_paste_loop h kt fm tty ?c lc] =>
          specialize (IH c lc Hl Hb Hn)
      end.
      simpl in IH.
      destruct IH as ((ks & Hp & Hf & Hk) & Hlo).
      split; [|exact Hlo].
      exists (k :: ks). rewrite Hp, <- app_assoc. split; [reflexivity|].
      split; [constructor; [rewrite E; exact Ei | exact Hf]|].
      simpl. rewrite Hk. unfold keys_of. reflexivity.
    + destruct ctx; simpl in *. split.
      * exists []. rewrite app_nil_r. split; [reflexivity|]. split; [constructor|].
        reflexivity.
      * intros _. rewrite E. exact Ei.
Qed.

(** X7. A paste loses no keystroke and keeps their order: the keys that
    [_editor_ingest_paste] takes off the terminal are the new paste
    buffer, followed by the leftover if one was set; every key of the
    paste buffer is bound (in peek mode) to [cmd_insert_data], the
    leftover is not, and the next [_editor_get_user_input] hands the
    leftover back as the input without reading the terminal. *)
Theorem ingest_paste_keeps_keys `{mle_h} h kt fm tty ctx lc :
  has_pastebuf_leftover ctx = false ->
  binding_node lc = None -> need_more_input lc = false ->
  let r := _editor_ingest_paste h kt fm tty ctx lc in
  let peek k :=
    (_editor_get_command h kt (input ctx) (Some k) lc (ctx_static_param ctx)).1.1 in
  keys_of tty = pastebuf r.1.2 ++ leftover_of r.1.2 ++ keys_of r.1.1 /\
  Forall (fun k => is_insert_data fm (peek k) = true) (pastebuf r.1.2) /\
  (has_pastebuf_leftover r.1.2 = true ->
     is_insert_data fm (peek (pastebuf_leftover r.1.2)) = false /\
     exists ctx2,
       _editor_get_user_input r.1.1 r.1.2 = Some (r.1.1, ctx2) /\
       input ctx2 = pastebuf_leftover r.1.2 /\
       has_pastebuf_leftover ctx2 = false /\
       pastebuf ctx2 = []).
Proof.
  intros Hl Hb Hn. unfold _editor_ingest_paste.
  assert (Hl0 : has_pastebuf_leftover (set_pastebuf [] ctx) = false)
    by (destruct ctx; exact Hl).
  destruct (ingest_paste_loop_keys h kt fm tty (set_pastebuf [] ctx) lc Hl0 Hb Hn)
    as ((ks & Hp & Hf & Hk) & Hlo).
  replace (input (set_pastebuf [] ctx)) with (input ctx) in *
    by (destruct ctx; reflexivity).
  replace (ctx_static_param (set_pastebuf [] ctx)) with (ctx_static_param ctx) in *
    by (destruct ctx; reflexivity).
  replace (pastebuf (set_pastebuf [] ctx)) with (@nil kinput_t) in Hp
    by (destruct ctx; reflexivity).
  simpl in Hp. cbv zeta. rewrite Hp. split; [symmetry; exact Hk|].
  split; [exact Hf|].
  intros Hlo'. split; [exact (Hlo Hlo')|].
  unfold _editor_get_user_input.
  destruct (ingest_paste_loop h kt fm tty (set_pastebuf [] ctx) lc) as [[tty2 ctx2] lc2].
  simpl in *. destruct ctx2; simpl in *. subst. eexists. split; [reflexivity|].
  simpl. auto.
Qed.

Lemma ingest_paste_keeps_keys_witness :
  let tty := [TbKey key_u; TbKey key_x; TbKey key_C_a; TbKey key_1] in
  let r := @_editor_ingest_paste sample_h sample_trie [kmap_normal] sample_func_map
             tty sample_ctx loop_ctx_zero in
  let peek k :=
    (@_editor_get_command sample_h sample_trie [kmap_normal] (input sample_ctx)
       (Some k) loop_ctx_zero (ctx_static_param sample_ctx)).1.1 in
  keys_of tty = pastebuf r.1.2 ++ leftover_of r.1.2 ++ keys_of r.1.1 /\
  Forall (fun k => is_insert_data sample_func_map (peek k) = true) (pastebuf r.1.2) /\
  (has_pastebuf_leftover r.1.2 = true ->
     is_insert_data sample_func_map (peek (pastebuf_leftover r.1.2)) = false /\
     exists ctx2,
       _editor_get_user_input r.1.1 r.1.2 = Some (r.1.1, ctx2) /\
       input ctx2 = pastebuf_leftover r.1.2 /\
       has_pastebuf_leftover ctx2 = false /\
       pastebuf ctx2 = []).
Proof.
  apply (@ingest_paste_keeps_keys sample_h sample_trie [kmap_normal] sample_func_map
           [TbKey key_u; TbKey key_x; TbKey key_C_a; TbKey key_1] sample_ctx
           loop_ctx_zero); reflexivity.
Defined.

Lemma get_kbinding_node_bounds `{mle_h} h node inp lc is_peek b again lc1 :
  _editor_get_kbinding_node h node inp lc is_peek = (b, again, lc1) ->
  lc_in_bounds lc -> lc_in_bounds lc1.
Proof.
  unfold _editor_get_kbinding_node, lc_in_bounds, numeric_len, numeric_params_len,
    wildcard_params_len.
  intros Heq (Hn & Hp & Hw).
  repeat (case_match; simplify_eq/=);
    rewrite ?length_app; simpl;
    repeat match goal with
           | Hx : (_ <? _) = true |- _ => apply Z.ltb_lt in Hx
           | Hx : (_ <? _) = false |- _ => apply Z.ltb_ge in Hx
           end;
    unfold numeric_len, numeric_params_len, wildcard_params_len in *; simpl in *;
    repeat split; try lia.
Qed.

Lemma get_command_loop_bounds `{mle_h} h inp is_peek stack :
  forall node is_top lc sp,
  lc_in_bounds lc ->
  lc_in_bounds (get_command_loop h inp is_peek stack node is_top lc sp).1.2.
Proof.
  induction stack as [|km rest IH]; intros node is_top lc sp Hb; simpl; [exact Hb|].
  destruct (_editor_get_kbinding_node h (if is_top then Some (bindings km) else node)
              inp lc is_peek) as [[b again] lc1] eqn:E.
  pose proof (get_kbinding_node_bounds _ _ _ _ _ _ _ _ E Hb) as Hb1.
  specialize (IH (if is_top then Some (bindings km) else node) true lc1 sp Hb1).
  repeat (case_match; simplify_eq/=); try assumption;
    destruct lc1; exact Hb1.
Qed.

(** X8. The resolver never overruns the arrays of the loop context: when
    the numeric buffer and the two parameter vectors are within their
    declared sizes before [_editor_get_command], they are within them
    after it, in committing and in peek mode, whatever the tries hold.
    It only ever appends to the parameter vectors, and it leaves
    [last_cmd] alone. *)
Theorem get_command_keeps_bounds `{mle_h} h stack ctx_input opt_peek lc sp :
  lc_in_bounds lc ->
  let lc' := (_editor_get_command h stack ctx_input opt_peek lc sp).1.2 in
  lc_in_bounds lc' /\
  numeric_params lc `prefix_of` numeric_params lc' /\
  wildcard_params lc `prefix_of` wildcard_params lc' /\
  last_cmd lc' = last_cmd lc.
Proof.
  intros Hb. split; [|apply get_command_params].
  unfold _editor_get_command. apply get_command_loop_bounds.
  destruct lc; exact Hb.
Qed.

Lemma get_command_keeps_bounds_witness :
  let lc' := (@_editor_get_command sample_h sample_trie [kmap_user_wildcard] key_x None
                lc_after_M_z None).1.2 in
  @lc_in_bounds sample_h lc' /\
  numeric_params lc_after_M_z `prefix_of` numeric_params lc' /\
  wildcard_params lc_after_M_z `prefix_of` wildcard_params lc' /\
  last_cmd lc' = last_cmd lc_after_M_z.
Proof.
  apply (@get_command_keeps_bounds sample_h sample_trie [kmap_user_wildcard] key_x None
           lc_after_M_z None).
  unfold lc_in_bounds. vm_compute. repeat split; discriminate.
Defined.

(** X9. What a turn of the loop does to the parameters.  A turn that runs
    no command (more input needed, unbound key, or a command name that
    does not resolve) keeps every parameter collected so far, also those
    of a chord that has just failed, reads nothing from the terminal and
    leaves the rest of the editor alone.  A turn that runs a command hands
    it the parameters collected so far, possibly extended, and ends with
    both parameter vectors empty, no pending node and [last_cmd] set to
    the command, whatever the command did to the loop context. *)
Theorem dispatch_params `{mle_h} {W} `{commands W} (st : loop_state W) :
  let r := editor_loop_dispatch st in
  let lc := st_loop_ctx st in
  let lc' := st_loop_ctx r.2 in
  match r.1 with
  | Executed cmd_ref _ _ lc_call =>
      numeric_params lc `prefix_of` numeric_params lc_call /\
      wildcard_params lc `prefix_of` wildcard_params lc_call /\
      numeric_params lc' = [] /\ wildcard_params lc' = [] /\
      binding_node lc' = None /\ last_cmd lc' = Some cmd_ref
  | _ =>
      numeric_params lc `prefix_of` numeric_params lc' /\
      wildcard_params lc `prefix_of` wildcard_params lc' /\
      last_cmd lc' = last_cmd lc /\
      st_tty r.2 = st_tty st /\ st_world r.2 = st_world st
  end.
Proof.
  unfold editor_loop_dispatch.
  pose proof (get_command_params (st_kbindings st) (st_kmap_tail st)
                (input (st_ctx st)) None (st_loop_ctx st)
                (ctx_static_param (st_ctx st))) as Hg.
  simpl in Hg.
  destruct (_editor_get_command (st_kbindings st) (st_kmap_tail st)
              (input (st_ctx st)) None (st_loop_ctx st)
              (ctx_static_param (st_ctx st))) as [[fr lc1] sp1].
  simpl in Hg. destruct Hg as (Hn & Hw & Hl).
  destruct fr as [cmd_ref|].
  - destruct (_editor_resolve_funcref (st_func_map st) cmd_ref) as [[cmd_fn|] fm1].
    + destruct (is_user_input (set_ctx_static_param sp1 (st_ctx st))
                && bool_decide (cmd_fn = fn_cmd_insert_data)).
      * unfold _editor_ingest_paste.
        match goal with
        | |- context [ingest_paste_loop ?a ?b ?c ?d ?e ?f] =>
            destruct (ingest_paste_loop_params a b c d e f) as (H1 & H2 & _);
            destruct (ingest_paste_loop a b c d e f) as [[tty2 ctx2] lc2]
        end.
        simpl in *. rewrite H1, H2. repeat split; assumption.
      * simpl. repeat split; assumption.
    + simpl. repeat split; assumption.
  - destruct (need_more_input lc1); simpl; repeat split; try assumption.
    all: destruct lc1; assumption.
Qed.

(** * Building the keymaps *)

(** [key_tokens] is the sequence of cuts made by [strchr]. *)
Lemma key_tokens_strchr (s : string) :
  key_tokens s
  = match strchr_space s with
    | (t, None) => (t, [])
    | (t, Some r) => (t, (key_tokens r).1 :: (key_tokens r).2)
    end.
Proof.
  induction s as [|c s IH]; simpl; [reflexivity|].
  destruct (Ascii.eqb c Ascii.Space).
  - destruct (key_tokens s); reflexivity.
  - rewrite IH. destruct (strchr_space s) as [t [r|]]; reflexivity.
Qed.

Lemma add_binding_leaf `{mle_h} `{keys_h} `{allocator} h trie fref key_patt sp :
  _editor_init_kmap_add_binding_to_trie h trie fref key_patt [] sp
  = match key_patt_input key_patt with
    | None => (MLE_ERR, h)
    | Some inp =>
        (MLE_OK, alter (set_leaf fref sp) (trie_find_or_add h trie inp).1
                   (trie_find_or_add h trie inp).2)
    end.
Proof.
  simpl. destruct (key_patt_input key_patt); [|reflexivity].
  destruct (trie_find_or_add h trie k). reflexivity.
Qed.

Lemma add_binding_step `{mle_h} `{keys_h} `{allocator} h trie fref key_patt k ks sp :
  _editor_init_kmap_add_binding_to_trie h trie fref key_patt (k :: ks) sp
  = match key_patt_input key_patt with
    | None => (MLE_ERR, h)
    | Some inp =>
        let r := _editor_init_kmap_add_binding_to_trie
                   (trie_find_or_add h trie inp).2
                   (trie_find_or_add h trie inp).1 fref k ks sp in
        match r.1 with
        | MLE_OK => (MLE_OK, r.2)
        | MLE_ERR => (MLE_ERR, delete (trie_find_or_add h trie inp).1 r.2)
        end
    end.
Proof.
  simpl. destruct (key_patt_input key_patt); [|reflexivity].
  destruct (trie_find_or_add h trie k0). simpl.
  destruct (_editor_init_kmap_add_binding_to_trie g p fref k ks sp) as [[|] ?];
    reflexivity.
Qed.

(** The insertion succeeds exactly when every token is the name of an
    input. *)
Lemma add_binding_rc `{mle_h} `{keys_h} `{allocator} fref sp next_key :
  forall h trie key_patt,
  (_editor_init_kmap_add_binding_to_trie h trie fref key_patt next_key sp).1 = MLE_OK
  <-> Forall (fun t => is_Some (key_patt_input t)) (key_patt :: next_key).
Proof.
  induction next_key as [|k ks IH]; intros h trie key_patt.
  - rewrite add_binding_leaf.
    destruct (key_patt_input key_patt) as [inp|] eqn:E; simpl.
    + split; [intros _; constructor; [rewrite E; eauto | constructor] | reflexivity].
    + split; [discriminate|]. intros Hf. inversion Hf as [|? ? [? Hx] ?].
      congruence.
  - rewrite add_binding_step.
    destruct (key_patt_input key_patt) as [inp|] eqn:E; cbv zeta.
    + specialize (IH (trie_find_or_add h trie inp).2 (trie_find_or_add h trie inp).1 k).
      destruct (_editor_init_kmap_add_binding_to_trie _ _ fref k ks sp) as [[|] h2];
        simpl in *.
      * split; [intros _; constructor; [rewrite E; eauto|apply IH; reflexivity]
               | reflexivity].
      * split; [discriminate|]. intros Hf. inversion Hf; subst.
        apply IH. assumption.
    + split; [discriminate|]. intros Hf. inversion Hf as [|? ? [? Hx] ?].
      congruence.
Qed.

Lemma trie_extends_refl h leaf : trie_extends h h leaf.
Proof. intros p b Hp. exists b. repeat split; auto. Qed.

Lemma trie_extends_trans h1 h2 h3 leaf :
  trie_extends h1 h2 leaf -> trie_extends h2 h3 leaf -> trie_extends h1 h3 leaf.
Proof.
  intros H12 H23 p b Hp.
  destruct (H12 p b Hp) as (b2 & Hp2 & Hi2 & Hc2 & Hf2).
  destruct (H23 p b2 Hp2) as (b3 & Hp3 & Hi3 & Hc3 & Hf3).
  exists b3. split; [exact Hp3|]. split; [congruence|].
  split; [etransitivity; eassumption|].
  intros Hne. destruct (Hf2 Hne), (Hf3 Hne). split; congruence.
Qed.

Lemma trie_extends_edge h h' leaf p inp n :
  trie_extends h h' leaf ->
  node_children h (Some p) !! inp = Some n ->
  node_children h' (Some p) !! inp = Some n.
Proof.
  intros Hext. unfold node_children.
  destruct (h !! p) as [b|] eqn:Hp; [|rewrite lookup_empty; discriminate].
  destruct (Hext p b Hp) as (b' & -> & _ & Hc & _).
  intros Hn. eapply lookup_weaken; eassumption.
Qed.

Lemma trie_extends_walk h h' leaf path :
  trie_extends h h' leaf ->
  forall p m, trie_walk h p path = Some m -> trie_walk h' p path = Some m.
Proof.
  intros Hext. induction path as [|inp path IH]; intros p m; cbn [trie_walk]; [auto|].
  destruct (node_children h (Some p) !! inp) as [n|] eqn:E; [|discriminate].
  rewrite (trie_extends_edge _ _ _ _ _ _ Hext E). apply IH.
Qed.

(** The node found or added: it is a node of the new store, the edge to it
    is in the table, and the old store is extended. *)
Lemma trie_find_or_add_spec `{allocator} h trie inp :
  is_Some (h !! trie) -> trie_closed h ->
  let r := trie_find_or_add h trie inp in
  node_children r.2 (Some trie) !! inp = Some r.1 /\
  is_Some (r.2 !! r.1) /\
  trie_closed r.2 /\
  (forall leaf, trie_extends h r.2 leaf) /\
  (forall p b, r.2 !! p = Some b -> h !! p = None -> p = r.1 /\ b = Kbinding inp ∅ None None) /\
  (h !! r.1 = None \/ node_children h (Some trie) !! inp = Some r.1).
Proof.
  intros [tb Ht] Hcl. unfold trie_find_or_add.
  destruct (node_children h (Some trie) !! inp) as [n|] eqn:E; simpl.
  - split; [exact E|]. split.
    { unfold node_children in E. rewrite Ht in E. eapply Hcl; eassumption. }
    split; [exact Hcl|]. split; [intros leaf; apply trie_extends_refl|].
    split; [intros p b Hp Hn; congruence|]. right. reflexivity.
  - pose proof (calloc_fresh h) as Hfr. remember (calloc_kbinding h) as n eqn:Hn0.
    clear Hn0.
    assert (Hne : n <> trie) by (intros ->; congruence).
    assert (Ht1 : alter (add_child inp n) trie (<[n:=Kbinding inp ∅ None None]> h) !! trie
                  = Some (add_child inp n tb)).
    { rewrite lookup_alter_eq, lookup_insert_ne by exact Hne. rewrite Ht. reflexivity. }
    assert (Hn1 : alter (add_child inp n) trie (<[n:=Kbinding inp ∅ None None]> h) !! n
                  = Some (Kbinding inp ∅ None None)).
    { rewrite lookup_alter_ne by congruence. apply lookup_insert_eq. }
    split. { unfold node_children. rewrite Ht1. simpl. apply lookup_insert_eq. }
    split. { rewrite Hn1. eauto. }
    split.
    { intros p b i c Hp Hc.
      destruct (decide (p = trie)) as [->|Hpt].
      - rewrite Ht1 in Hp. injection Hp as <-. simpl in Hc.
        destruct (decide (i = inp)) as [->|Hi].
        + rewrite lookup_insert_eq in Hc. injection Hc as <-. rewrite Hn1. eauto.
        + rewrite lookup_insert_ne in Hc by congruence.
          destruct (Hcl _ _ _ _ Ht Hc) as [cb Hcb].
          assert (c <> n) by congruence.
          destruct (decide (c = trie)) as [->|Hct]; [rewrite Ht1; eauto|].
          rewrite lookup_alter_ne, lookup_insert_ne by congruence. eauto.
      - rewrite lookup_alter_ne in Hp by congruence.
        destruct (decide (p = n)) as [->|Hpn].
        + rewrite lookup_insert_eq in Hp. injection Hp as <-. simpl in Hc.
          rewrite lookup_empty in Hc. discriminate.
        + rewrite lookup_insert_ne in Hp by congruence.
          destruct (Hcl _ _ _ _ Hp Hc) as [cb Hcb].
          assert (c <> n) by congruence.
          destruct (decide (c = trie)) as [->|Hct]; [rewrite Ht1; eauto|].
          rewrite lookup_alter_ne, lookup_insert_ne by congruence. eauto. }
    split.
    { intros leaf p b Hp.
      destruct (decide (p = trie)) as [->|Hpt].
      - rewrite Ht in Hp. injection Hp as <-. exists (add_child inp n tb).
        split; [exact Ht1|]. split; [reflexivity|]. split; [|auto].
        simpl. apply insert_subseteq. unfold node_children in E. rewrite Ht in E. exact E.
      - exists b. assert (p <> n) by congruence.
        rewrite lookup_alter_ne, lookup_insert_ne by congruence. auto. }
    split; [|left; exact Hfr].
    intros p b Hp Hn.
    destruct (decide (p = trie)) as [->|Hpt]; [congruence|].
    rewrite lookup_alter_ne in Hp by congruence.
    destruct (decide (p = n)) as [->|Hpn].
    + rewrite lookup_insert_eq in Hp. injection Hp as <-. auto.
    + rewrite lookup_insert_ne in Hp by congruence. congruence.
Qed.

Lemma set_leaf_closed h n fref sp :
  trie_closed h -> trie_closed (alter (set_leaf fref sp) n h).
Proof.
  intros Hcl p b i c Hp Hc.
  assert (exists b0, h !! p = Some b0 /\ children b0 = children b) as (b0 & Hp0 & Hc0).
  { destruct (decide (p = n)) as [->|Hne].
    - rewrite lookup_alter_eq in Hp. destruct (h !! n) as [b0|]; [|discriminate].
      injection Hp as <-. eauto.
    - rewrite lookup_alter_ne in Hp by congruence. eauto. }
  rewrite <- Hc0 in Hc. destruct (Hcl _ _ _ _ Hp0 Hc) as [cb Hcb].
  destruct (decide (c = n)) as [->|Hne].
  - rewrite lookup_alter_eq, Hcb. eauto.
  - rewrite lookup_alter_ne by congruence. eauto.
Qed.

Lemma set_leaf_extends h n fref sp :
  trie_extends h (alter (set_leaf fref sp) n h) n.
Proof.
  intros p b Hp. destruct (decide (p = n)) as [->|Hne].
  - exists (set_leaf fref sp b). rewrite lookup_alter_eq, Hp.
    repeat split; try reflexivity. congruence. congruence.
  - exists b. rewrite lookup_alter_ne by congruence. auto.
Qed.

(** What a successful insertion builds. *)
Lemma add_binding_ok `{mle_h} `{keys_h} `{allocator} fref sp next_key :
  forall h trie key_patt inputs,
  is_Some (h !! trie) -> trie_closed h ->
  Forall2 (fun t i => key_patt_input t = Some i) (key_patt :: next_key) inputs ->
  let r := _editor_init_kmap_add_binding_to_trie h trie fref key_patt next_key sp in
  r.1 = MLE_OK /\ trie_closed r.2 /\
  exists leaf b,
    trie_walk r.2 trie inputs = Some leaf /\
    r.2 !! leaf = Some b /\ funcref b = Some fref /\ static_param b = sp /\
    trie_extends h r.2 leaf /\
    (forall p b', r.2 !! p = Some b' -> h !! p = None -> p <> leaf ->
       funcref b' = None /\ static_param b' = None).
Proof.
  induction next_key as [|k ks IH]; intros h trie key_patt inputs Ht Hcl Hf.
  - inversion Hf as [|? i1 ? rest Hi Hrest]; subst. inversion Hrest; subst.
    rewrite add_binding_leaf, Hi. cbv zeta.
    destruct (trie_find_or_add_spec h trie i1 Ht Hcl)
      as (Hedge & [nb Hn] & Hcl1 & Hext & Hnew & _).
    set (n := (trie_find_or_add h trie i1).1) in *.
    set (h1 := (trie_find_or_add h trie i1).2) in *.
    cbn [fst snd]. split; [reflexivity|]. split; [apply set_leaf_closed, Hcl1|].
    exists n, (set_leaf fref sp nb).
    split.
    { cbn [trie_walk]. erewrite trie_extends_edge; [reflexivity| |exact Hedge].
      apply set_leaf_extends. }
    split; [rewrite lookup_alter_eq, Hn; reflexivity|].
    split; [reflexivity|]. split; [reflexivity|].
    split.
    { eapply trie_extends_trans; [apply Hext|apply set_leaf_extends]. }
    intros p b' Hp Hnone Hne. rewrite lookup_alter_ne in Hp by congruence.
    destruct (Hnew _ _ Hp Hnone) as [-> _]. congruence.
  - inversion Hf as [|? i1 ? rest Hi Hrest]; subst.
    rewrite add_binding_step, Hi. cbv zeta.
    destruct (trie_find_or_add_spec h trie i1 Ht Hcl)
      as (Hedge & Hn & Hcl1 & Hext & Hnew & _).
    set (n := (trie_find_or_add h trie i1).1) in *.
    set (h1 := (trie_find_or_add h trie i1).2) in *.
    destruct (IH h1 n k rest Hn Hcl1 Hrest)
      as (Hrc & Hcl2 & leaf & b & Hwalk & Hleaf & Hfr & Hsp & Hext2 & Hnew2).
    rewrite Hrc. cbn [fst snd]. split; [reflexivity|]. split; [exact Hcl2|].
    exists leaf, b.
    split.
    { cbn [trie_walk]. erewrite trie_extends_edge; [exact Hwalk|exact Hext2|exact Hedge]. }
    split; [exact Hleaf|]. split; [exact Hfr|]. split; [exact Hsp|].
    split; [eapply trie_extends_trans; [apply Hext|exact Hext2]|].
    intros p b' Hp Hnone Hne.
    destruct (h1 !! p) as [b1|] eqn:Hp1.
    + destruct (Hnew _ _ Hp1 Hnone) as [-> ->].
      destruct (Hext2 _ _ Hp1) as (b2 & Hp2 & _ & _ & Hsame).
      rewrite Hp in Hp2. injection Hp2 as <-.
      destruct (Hsame Hne) as [-> ->]. auto.
    + eapply Hnew2; eassumption.
Qed.

Lemma set_leaf_lookup (h : gmap ptr kbinding_t) n fref sp p b :
  alter (set_leaf fref sp) n h !! p = Some b ->
  exists b0, h !! p = Some b0 /\ children b0 = children b.
Proof.
  destruct (decide (p = n)) as [->|Hne].
  - rewrite lookup_alter_eq. destruct (h !! n) as [b0|]; [|discriminate].
    intros [= <-]. eauto.
  - rewrite lookup_alter_ne by congruence. eauto.
Qed.

Lemma set_leaf_injective (h : gmap ptr kbinding_t) n fref sp :
  edge_injective h -> edge_injective (alter (set_leaf fref sp) n h).
Proof.
  intros Hinj p b i c p' b' i' Hp Hc Hp' Hc'.
  destruct (set_leaf_lookup _ _ _ _ _ _ Hp) as (b0 & Hp0 & E0).
  destruct (set_leaf_lookup _ _ _ _ _ _ Hp') as (b0' & Hp0' & E0').
  rewrite <- E0 in Hc. rewrite <- E0' in Hc'. eapply Hinj; eassumption.
Qed.

Lemma set_leaf_no_edge_to (h : gmap ptr kbinding_t) n fref sp root :
  no_edge_to h root -> no_edge_to (alter (set_leaf fref sp) n h) root.
Proof.
  intros Hno p b i Hp.
  destruct (set_leaf_lookup _ _ _ _ _ _ Hp) as (b0 & Hp0 & E0).
  rewrite <- E0. eapply Hno; eassumption.
Qed.

(** An edge of the store after [trie_find_or_add] is an edge of the store
    before it, or the edge just added. *)
Lemma trie_find_or_add_edges `{allocator} h trie inp p b i c :
  (trie_find_or_add h trie inp).2 !! p = Some b -> children b !! i = Some c ->
  (exists b0, h !! p = Some b0 /\ children b0 !! i = Some c) \/
  (p = trie /\ i = inp /\ c = (trie_find_or_add h trie inp).1 /\ h !! c = None).
Proof.
  unfold trie_find_or_add.
  destruct (node_children h (Some trie) !! inp) as [n|] eqn:E; simpl.
  - intros Hp Hc. left. eauto.
  - pose proof (calloc_fresh h) as Hfr. remember (calloc_kbinding h) as n eqn:Hn0.
    clear Hn0. intros Hp Hc.
    destruct (decide (p = trie)) as [->|Hpt].
    + rewrite lookup_alter_eq in Hp.
      destruct (decide (trie = n)) as [->|Hne].
      * rewrite lookup_insert_eq in Hp. injection Hp as <-. simpl in Hc.
        destruct (decide (i = inp)) as [->|Hi].
        -- rewrite lookup_insert_eq in Hc. injection Hc as <-. right. auto.
        -- rewrite lookup_insert_ne, lookup_empty in Hc by congruence. discriminate.
      * rewrite lookup_insert_ne in Hp by congruence.
        destruct (h !! trie) as [tb|] eqn:Ht; [|discriminate].
        injection Hp as <-. simpl in Hc.
        destruct (decide (i = inp)) as [->|Hi].
        -- rewrite lookup_insert_eq in Hc. injection Hc as <-. right. auto.
        -- rewrite lookup_insert_ne in Hc by congruence. left. eauto.
    + rewrite lookup_alter_ne in Hp by congruence.
      destruct (decide (p = n)) as [->|Hpn].
      * rewrite lookup_insert_eq in Hp. injection Hp as <-. simpl in Hc.
        rewrite lookup_empty in Hc. discriminate.
      * rewrite lookup_insert_ne in Hp by congruence. left. eauto.
Qed.

Lemma trie_find_or_add_injective `{allocator} h trie inp :
  trie_closed h -> edge_injective h ->
  edge_injective (trie_find_or_add h trie inp).2.
Proof.
  intros Hcl Hinj p b i c p' b' i' Hp Hc Hp' Hc'.
  destruct (trie_find_or_add_edges _ _ _ _ _ _ _ Hp Hc)
    as [(b0 & Hp0 & Hc0)|(-> & -> & -> & Hfr)];
  destruct (trie_find_or_add_edges _ _ _ _ _ _ _ Hp' Hc')
    as [(b0' & Hp0' & Hc0')|(-> & -> & E & Hfr')].
  - eapply Hinj; eassumption.
  - destruct (Hcl _ _ _ _ Hp0 Hc0) as [? Hx]. congruence.
  - destruct (Hcl _ _ _ _ Hp0' Hc0') as [? Hx]. congruence.
  - auto.
Qed.

Lemma trie_find_or_add_no_edge_to `{allocator} h trie inp root :
  is_Some (h !! root) -> no_edge_to h root ->
  no_edge_to (trie_find_or_add h trie inp).2 root.
Proof.
  intros [rb Hr] Hno p b i Hp Hc.
  destruct (trie_find_or_add_edges _ _ _ _ _ _ _ Hp Hc)
    as [(b0 & Hp0 & Hc0)|(-> & -> & E & Hfr)].
  - eapply Hno; eassumption.
  - congruence.
Qed.

(** A successful insertion keeps the shape of the trie: the root keeps
    having no edge to it and no node gets a second edge to it. *)
Lemma add_binding_shape `{mle_h} `{keys_h} `{allocator} fref sp root next_key :
  forall h trie key_patt,
  is_Some (h !! trie) -> is_Some (h !! root) ->
  trie_closed h -> edge_injective h -> no_edge_to h root ->
  let r := _editor_init_kmap_add_binding_to_trie h trie fref key_patt next_key sp in
  r.1 = MLE_OK -> edge_injective r.2 /\ no_edge_to r.2 root.
Proof.
  induction next_key as [|k ks IH]; intros h trie key_patt Ht Hr Hcl Hinj Hno.
  - rewrite add_binding_leaf.
    destruct (key_patt_input key_patt) as [inp|]; [|discriminate].
    cbn [fst snd]. intros _. split.
    + apply set_leaf_injective, trie_find_or_add_injective; assumption.
    + apply set_leaf_no_edge_to, trie_find_or_add_no_edge_to; assumption.
  - rewrite add_binding_step.
    destruct (key_patt_input key_patt) as [inp|]; [|discriminate].
    cbv zeta.
    destruct (trie_find_or_add_spec h trie inp Ht Hcl)
      as (Hedge & Hn & Hcl1 & Hext & Hnew & _).
    assert (Hr1 : is_Some ((trie_find_or_add h trie inp).2 !! root)).
    { destruct Hr as [rb Hr]. destruct (Hext root _ _ Hr) as (b' & -> & _). eauto. }
    specialize (IH (trie_find_or_add h trie inp).2 (trie_find_or_add h trie inp).1 k
                  Hn Hr1 Hcl1
                  (trie_find_or_add_injective _ _ _ Hcl Hinj)
                  (trie_find_or_add_no_edge_to _ _ _ _ Hr Hno)).
    cbv zeta in IH.
    destruct (_editor_init_kmap_add_binding_to_trie _ _ fref k ks sp) as [[|] h2];
      cbn [fst snd] in *; [|discriminate].
    intros _. apply IH. reflexivity.
Qed.

Lemma trie_find_or_add_edge `{allocator} h trie inp :
  is_Some (h !! trie) ->
  node_children (trie_find_or_add h trie inp).2 (Some trie) !! inp
  = Some (trie_find_or_add h trie inp).1.
Proof.
  intros [tb Ht]. unfold trie_find_or_add.
  destruct (node_children h (Some trie) !! inp) as [n|] eqn:E; simpl; [exact E|].
  pose proof (calloc_fresh h) as Hfr.
  assert (Hne : calloc_kbinding h <> trie) by congruence.
  rewrite lookup_alter_eq, lookup_insert_ne, Ht by exact Hne. simpl.
  apply lookup_insert_eq.
Qed.

Lemma trie_find_or_add_other `{allocator} h trie inp p b :
  h !! p = Some b -> no_edge_to h p -> p <> trie ->
  (trie_find_or_add h trie inp).2 !! p = Some b /\
  (trie_find_or_add h trie inp).1 <> p.
Proof.
  intros Hp Hno Hne. unfold trie_find_or_add.
  destruct (node_children h (Some trie) !! inp) as [n|] eqn:E; simpl.
  - split; [exact Hp|]. intros ->. unfold node_children in E.
    destruct (h !! trie) as [tb|] eqn:Ht; [|rewrite lookup_empty in E; discriminate].
    exact (Hno _ _ _ Ht E).
  - pose proof (calloc_fresh h) as Hfr.
    assert (Hn : calloc_kbinding h <> p) by congruence.
    rewrite lookup_alter_ne, lookup_insert_ne by congruence. auto.
Qed.

(** A node that no edge leads to is out of reach of an insertion that
    starts elsewhere, whether the insertion succeeds or not. *)
Lemma add_binding_frame `{mle_h} `{keys_h} `{allocator} fref sp p b next_key :
  forall h trie key_patt,
  h !! p = Some b -> no_edge_to h p -> p <> trie ->
  (_editor_init_kmap_add_binding_to_trie h trie fref key_patt next_key sp).2 !! p
  = Some b.
Proof.
  induction next_key as [|k ks IH]; intros h trie key_patt Hp Hno Hne.
  - rewrite add_binding_leaf.
    destruct (key_patt_input key_patt) as [inp|]; [|exact Hp]. cbn [snd].
    destruct (trie_find_or_add_other h trie inp p b Hp Hno Hne) as [Hp1 Hn].
    rewrite lookup_alter_ne by exact Hn. exact Hp1.
  - rewrite add_binding_step.
    destruct (key_patt_input key_patt) as [inp|]; [|exact Hp]. cbv zeta.
    destruct (trie_find_or_add_other h trie inp p b Hp Hno Hne) as [Hp1 Hn].
    assert (Hno1 : no_edge_to (trie_find_or_add h trie inp).2 p)
      by (apply trie_find_or_add_no_edge_to; eauto).
    specialize (IH _ (trie_find_or_add h trie inp).1 k Hp1 Hno1 (not_eq_sym Hn)).
    destruct (_editor_init_kmap_add_binding_to_trie _ _ fref k ks sp) as [[|] h2];
      cbn [fst snd] in *; [exact IH|].
    rewrite lookup_delete_ne by exact Hn. exact IH.
Qed.

(** X10. A failed insertion leaves a dangling edge.  When the first token
    of a pattern is the name of an input and a later one is not,
    [_editor_init_kmap_add_binding_to_trie] returns [MLE_ERR] after
    freeing the node of the first token, whether that node was new or
    already carried other bindings, while the table of the keymap keeps
    its edge to the freed node.  When already the first token is not the
    name of an input, the store is left as it was. *)
Theorem add_binding_failure_dangles `{mle_h} `{keys_h} `{allocator}
    h trie fref key_patt next_key sp :
  is_Some (h !! trie) -> no_edge_to h trie ->
  ~ Forall (fun t => is_Some (key_patt_input t)) (key_patt :: next_key) ->
  let r := _editor_init_kmap_add_binding_to_trie h trie fref key_patt next_key sp in
  r.1 = MLE_ERR /\
  match key_patt_input key_patt with
  | None => r.2 = h
  | Some inp =>
      exists n, node_children r.2 (Some trie) !! inp = Some n /\ r.2 !! n = None
  end.
Proof.
  intros Ht Hno Hbad. cbv zeta. split.
  { pose proof (add_binding_rc fref sp next_key h trie key_patt) as Hrc.
    destruct (_editor_init_kmap_add_binding_to_trie h trie fref key_patt next_key sp).1;
      [|reflexivity].
    exfalso. apply Hbad, Hrc. reflexivity. }
  destruct (key_patt_input key_patt) as [inp|] eqn:E.
  - destruct next_key as [|k ks].
    { exfalso. apply Hbad. constructor; [rewrite E; eauto|constructor]. }
    rewrite add_binding_step, E. cbv zeta.
    pose proof (trie_find_or_add_edge h trie inp Ht) as Hedge.
    set (n := (trie_find_or_add h trie inp).1) in *.
    set (h1 := (trie_find_or_add h trie inp).2) in *.
    assert (Hn : n <> trie).
    { intros Heq. unfold node_children in Hedge.
      destruct (h1 !! trie) as [tb1|] eqn:Ht1; [|rewrite lookup_empty in Hedge; discriminate].
      rewrite Heq in Hedge.
      exact (trie_find_or_add_no_edge_to h trie inp trie Ht Hno _ _ _ Ht1 Hedge). }
    assert (Hrc : (_editor_init_kmap_add_binding_to_trie h1 n fref k ks sp).1 = MLE_ERR).
    { pose proof (add_binding_rc fref sp ks h1 n k) as Hrc.
      destruct (_editor_init_kmap_add_binding_to_trie h1 n fref k ks sp).1; [|reflexivity].
      exfalso. apply Hbad. constructor; [rewrite E; eauto|]. apply Hrc. reflexivity. }
    rewrite Hrc. cbn [snd]. exists n. split; [|apply lookup_delete_eq].
    unfold node_children in *.
    destruct (h1 !! trie) as [tb1|] eqn:Ht1; [|rewrite lookup_empty in Hedge; discriminate].
    rewrite lookup_delete_ne by exact Hn.
    rewrite (add_binding_frame fref sp trie tb1 ks h1 n k Ht1
               (trie_find_or_add_no_edge_to h trie inp trie Ht Hno) (not_eq_sym Hn)).
    exact Hedge.
  - destruct next_key; simpl; rewrite E; reflexivity.
Qed.

Lemma add_binding_failure_dangles_witness :
  let r := @_editor_init_kmap_add_binding_to_trie sample_h sample_keys sample_alloc
             chord_trie 1%positive "cmd_user" "M-y" [""%string] None in
  r.1 = MLE_ERR /\
  exists n, node_children r.2 (Some 1%positive) !! key_M_y = Some n /\ r.2 !! n = None.
Proof.
  apply (@add_binding_failure_dangles sample_h sample_keys sample_alloc
           chord_trie 1%positive "cmd_user" "M-y" [""%string] None).
  - vm_compute. eauto.
  - intros q b inp Hq Hc.
    assert (Hall : map_Forall (fun _ b => map_Forall (fun _ n => n <> 1%positive) (children b))
                     chord_trie)
      by (apply (bool_decide_unpack _); vm_compute; exact I).
    exact (Hall q b Hq inp 1%positive Hc eq_refl).
  - intros Hf. inversion Hf as [|? ? _ Hf2]. inversion Hf2 as [|? ? [i Hi] _].
    vm_compute in Hi. discriminate.
Defined.

Lemma trie_walk_app h p path inp :
  trie_walk h p (path ++ [inp])
  = match trie_walk h p path with
    | Some q => node_children h (Some q) !! inp
    | None => None
    end.
Proof.
  revert p. induction path as [|i path IH]; intros p; cbn [trie_walk app].
  - destruct (node_children h (Some p) !! inp); reflexivity.
  - destruct (node_children h (Some p) !! i); [apply IH|reflexivity].
Qed.

Lemma node_children_edge h p inp n :
  node_children h (Some p) !! inp = Some n ->
  exists b, h !! p = Some b /\ children b !! inp = Some n.
Proof.
  unfold node_children. destruct (h !! p) as [b|]; [eauto|].
  rewrite lookup_empty. discriminate.
Qed.

(** In a shaped trie two key sequences that lead to the same node are the
    same sequence. *)
Lemma trie_walk_injective h root :
  no_edge_to h root -> edge_injective h ->
  forall path1 path2 m,
  trie_walk h root path1 = Some m -> trie_walk h root path2 = Some m ->
  path1 = path2.
Proof.
  intros Hno Hinj path1. induction path1 as [|i1 path1 IH] using rev_ind;
    intros path2 m H1 H2.
  - cbn in H1. injection H1 as <-.
    destruct path2 as [|i2 path2] using rev_ind; [reflexivity|].
    rewrite trie_walk_app in H2.
    destruct (trie_walk h root path2) as [q|]; [|discriminate].
    destruct (node_children_edge _ _ _ _ H2) as (b & Hq & Hc).
    destruct (Hno _ _ _ Hq Hc).
  - rewrite trie_walk_app in H1.
    destruct (trie_walk h root path1) as [q1|] eqn:W1; [|discriminate].
    destruct (node_children_edge _ _ _ _ H1) as (b1 & Hq1 & Hc1).
    destruct path2 as [|i2 path2] using rev_ind.
    + cbn in H2. injection H2 as <-. destruct (Hno _ _ _ Hq1 Hc1).
    + rewrite trie_walk_app in H2.
      destruct (trie_walk h root path2) as [q2|] eqn:W2; [|discriminate].
      destruct (node_children_edge _ _ _ _ H2) as (b2 & Hq2 & Hc2).
      destruct (Hinj _ _ _ _ _ _ _ Hq1 Hc1 Hq2 Hc2) as [-> ->].
      rewrite (IH path2 q2 eq_refl W2). reflexivity.
Qed.

(** The edges of the store after a successful insertion are edges of the
    store before it, or lead to a node that the insertion added. *)
Lemma add_binding_edges `{mle_h} `{keys_h} `{allocator} fref sp next_key :
  forall h trie key_patt,
  is_Some (h !! trie) -> trie_closed h ->
  let r := _editor_init_kmap_add_binding_to_trie h trie fref key_patt next_key sp in
  r.1 = MLE_OK ->
  forall p b i c, r.2 !! p = Some b -> children b !! i = Some c ->
    (exists b0, h !! p = Some b0 /\ children b0 !! i = Some c) \/ h !! c = None.
Proof.
  induction next_key as [|k ks IH]; intros h trie key_patt Ht Hcl.
  - rewrite add_binding_leaf.
    destruct (key_patt_input key_patt) as [inp|]; [|discriminate].
    cbn [fst snd]. intros _ p b i c Hp Hc.
    destruct (set_leaf_lookup _ _ _ _ _ _ Hp) as (b0 & Hp0 & E0).
    rewrite <- E0 in Hc.
    destruct (trie_find_or_add_edges _ _ _ _ _ _ _ Hp0 Hc)
      as [?|(_ & _ & _ & ?)]; auto.
  - rewrite add_binding_step.
    destruct (key_patt_input key_patt) as [inp|]; [|discriminate].
    cbv zeta.
    destruct (trie_find_or_add_spec h trie inp Ht Hcl)
      as (Hedge & Hn & Hcl1 & Hext & Hnew & _).
    specialize (IH (trie_find_or_add h trie inp).2 (trie_find_or_add h trie inp).1 k
                  Hn Hcl1).
    cbv zeta in IH.
    destruct (_editor_init_kmap_add_binding_to_trie _ _ fref k ks sp) as [[|] h2];
      cbn [fst snd] in *; [|discriminate].
    intros _ p b i c Hp Hc.
    destruct (IH eq_refl p b i c Hp Hc) as [(b1 & Hp1 & Hc1)|Hnone].
    + destruct (trie_find_or_add_edges _ _ _ _ _ _ _ Hp1 Hc1)
        as [?|(_ & _ & _ & ?)]; auto.
    + right. destruct (h !! c) as [cb|] eqn:Hc0; [|reflexivity].
      destruct (Hext c _ _ Hc0) as (cb' & Hcb' & _). congruence.
Qed.

(** The trie of a keymap just created has the shape. *)
Lemma new_kmap_trie_shaped : trie_shaped new_kmap_trie 1%positive.
Proof.
  assert (Hno : forall p b inp n, new_kmap_trie !! p = Some b ->
            children b !! inp = Some n -> False).
  { intros p b inp n Hp Hc. unfold new_kmap_trie in Hp.
    apply lookup_singleton_Some in Hp as [_ <-]. simpl in Hc.
    rewrite lookup_empty in Hc. discriminate. }
  split; [eexists; apply lookup_singleton_eq|].
  split; [intros p b inp n Hp Hc; destruct (Hno _ _ _ _ Hp Hc)|].
  split; [intros p b inp Hp Hc; destruct (Hno _ _ _ _ Hp Hc)|].
  intros p b inp n p' b' inp' Hp Hc. destruct (Hno _ _ _ _ Hp Hc).
Qed.

(** X11. Insert, then look up.  When every token of a key pattern is the
    name of an input, [_editor_init_kmap_add_binding_to_trie] returns
    [MLE_OK], and in the store it returns the descent from the root of the
    keymap along these inputs ends at a node that carries the command and
    the static parameter just bound, whatever was bound to the sequence
    before; every edge of the new store leads to a node. *)
Theorem add_binding_then_walk `{mle_h} `{keys_h} `{allocator}
    h trie fref key_patt next_key sp inputs :
  is_Some (h !! trie) -> trie_closed h ->
  Forall2 (fun t i => key_patt_input t = Some i) (key_patt :: next_key) inputs ->
  let r := _editor_init_kmap_add_binding_to_trie h trie fref key_patt next_key sp in
  r.1 = MLE_OK /\
  trie_funcref r.2 trie inputs = Some fref /\
  trie_static_param r.2 trie inputs = sp /\
  trie_closed r.2.
Proof.
  intros Ht Hcl Hf.
  destruct (add_binding_ok fref sp next_key h trie key_patt inputs Ht Hcl Hf)
    as (Hrc & Hcl' & leaf & b & Hw & Hl & Hfr & Hsp & _).
  cbv zeta. unfold trie_funcref, trie_static_param. rewrite Hw, Hl. auto.
Qed.

Lemma add_binding_then_walk_witness :
  let r := @_editor_init_kmap_add_binding_to_trie sample_h sample_keys sample_alloc
             new_kmap_trie 1%positive "cmd_move_bol" "M-y" ["u"%string]
             (Some "up"%string) in
  r.1 = MLE_OK /\
  trie_funcref r.2 1%positive [key_M_y; key_u] = Some "cmd_move_bol"%string /\
  trie_static_param r.2 1%positive [key_M_y; key_u] = Some "up"%string /\
  trie_closed r.2.
Proof.
  apply (@add_binding_then_walk sample_h sample_keys sample_alloc new_kmap_trie
           1%positive "cmd_move_bol" "M-y" ["u"%string] (Some "up"%string)
           [key_M_y; key_u]).
  - apply new_kmap_trie_shaped.
  - apply new_kmap_trie_shaped.
  - repeat constructor.
Defined.

(** A node of the old store that a key sequence leads to in the new store
    is led to by the same sequence in the old store. *)
Lemma add_binding_walk_back `{mle_h} `{keys_h} `{allocator}
    h trie fref key_patt next_key sp root :
  is_Some (h !! trie) -> trie_closed h ->
  let r := _editor_init_kmap_add_binding_to_trie h trie fref key_patt next_key sp in
  r.1 = MLE_OK ->
  forall path m, trie_walk r.2 root path = Some m -> is_Some (h !! m) ->
    trie_walk h root path = Some m.
Proof.
  intros Ht Hcl r Hrc path.
  induction path as [|i path IH] using rev_ind; intros m Hw Hm; [exact Hw|].
  rewrite trie_walk_app in Hw |- *.
  destruct (trie_walk r.2 root path) as [q|] eqn:Wq; [|discriminate].
  destruct (node_children_edge _ _ _ _ Hw) as (b & Hq & Hc).
  destruct (add_binding_edges fref sp next_key h trie key_patt Ht Hcl Hrc _ _ _ _ Hq Hc)
    as [(b0 & Hq0 & Hc0)|Hnone].
  - rewrite (IH q eq_refl) by eauto. unfold node_children. rewrite Hq0. exact Hc0.
  - destruct Hm as [? Hm]. congruence.
Qed.

(** In a shaped trie an insertion is the update at one key sequence of
    the commands and static parameters bound to the sequences. *)
Lemma add_binding_spec `{mle_h} `{keys_h} `{allocator}
    h root fref key_patt next_key sp inputs :
  trie_shaped h root ->
  Forall2 (fun t i => key_patt_input t = Some i) (key_patt :: next_key) inputs ->
  let r := _editor_init_kmap_add_binding_to_trie h root fref key_patt next_key sp in
  (forall path,
     trie_funcref r.2 root path
     = (if decide (path = inputs) then Some fref else trie_funcref h root path) /\
     trie_static_param r.2 root path
     = (if decide (path = inputs) then sp else trie_static_param h root path)) /\
  trie_shaped r.2 root.
Proof.
  intros (Hr & Hcl & Hno & Hinj) Hf.
  destruct (add_binding_ok fref sp next_key h root key_patt inputs Hr Hcl Hf)
    as (Hrc & Hcl' & leaf & b & Hw & Hl & Hfr & Hsp & Hext & Hnew).
  destruct (add_binding_shape fref sp root next_key h root key_patt Hr Hr Hcl Hinj Hno Hrc)
    as (Hinj' & Hno').
  pose proof (add_binding_walk_back h root fref key_patt next_key sp root Hr Hcl Hrc)
    as Hback.
  cbv zeta in *.
  set (h' := (_editor_init_kmap_add_binding_to_trie h root fref key_patt next_key sp).2)
    in *.
  split.
  2:{ split; [|auto]. destruct Hr as [rb Hr].
      destruct (Hext root rb Hr) as (b' & -> & _). eauto. }
  intros path. unfold trie_funcref, trie_static_param.
  destruct (decide (path = inputs)) as [->|Hne]; [rewrite Hw, Hl; auto|].
  destruct (trie_walk h' root path) as [m|] eqn:Wm.
  - assert (Hml : m <> leaf).
    { intros ->. apply Hne. eapply trie_walk_injective; eassumption. }
    destruct (h !! m) as [mb|] eqn:Hm.
    + rewrite (Hback path m Wm) by eauto. rewrite Hm.
      destruct (Hext m mb Hm) as (mb' & -> & _ & _ & Hsame).
      destruct (Hsame Hml) as [-> ->]. auto.
    + assert (Hold : trie_walk h root path = None \/
                     exists n, trie_walk h root path = Some n /\ h !! n = None).
      { destruct (trie_walk h root path) as [n|] eqn:Wn; [right|left; reflexivity].
        exists n. split; [reflexivity|].
        rewrite (trie_extends_walk _ _ _ _ Hext _ _ Wn) in Wm. congruence. }
      assert (Hnone : (match h' !! m with Some b0 => funcref b0 | None => None end) = None
                      /\ (match h' !! m with Some b0 => static_param b0 | None => None end)
                         = None).
      { destruct (h' !! m) as [mb'|] eqn:Hm'; [|auto].
        destruct (Hnew m mb' Hm' Hm Hml) as [-> ->]. auto. }
      destruct Hnone as [-> ->].
      destruct Hold as [->|(n & -> & ->)]; auto.
  - destruct (trie_walk h root path) as [n|] eqn:Wn; [|auto].
    rewrite (trie_extends_walk _ _ _ _ Hext _ _ Wn) in Wm. discriminate.
Qed.

(** * Key sequences through the loop *)

(** A keystroke that is no digit, with an empty numeric buffer, is looked
    up by its exact edge first. *)
Lemma get_kbinding_node_exact_edge `{mle_h} h node inp lc n :
  is_digit_ch (ch inp) = false -> numeric lc = [] ->
  node_children h node !! inp = Some n ->
  _editor_get_kbinding_node h node inp lc false = (Some n, false, lc).
Proof.
  intros Hd Hn He. unfold _editor_get_kbinding_node.
  rewrite Hd. unfold numeric_len. rewrite Hn. simpl. rewrite He. reflexivity.
Qed.

Lemma get_command_exact `{mle_h} h km rest inp lc sp n :
  is_digit_ch (ch inp) = false -> numeric lc = [] ->
  node_children h (Some (start_node km lc)) !! inp = Some n ->
  _editor_get_command h (km :: rest) inp None lc sp
  = let lc0 := set_binding_node None (set_need_more_input false lc) in
    match h !! n with
    | Some b =>
        match funcref b with
        | Some f => (Some f, lc0, static_param b)
        | None =>
            if bool_decide (children b = ∅) then (None, lc0, sp)
            else (None, set_binding_node (Some n) (set_need_more_input true lc0), sp)
        end
    | None => (None, lc0, sp)
    end.
Proof.
  intros Hd Hn He. unfold _editor_get_command. cbn [get_command_loop].
  assert (Hnode : (if match binding_node lc with None => true | Some _ => false end
                   then Some (bindings km) else binding_node lc)
                  = Some (start_node km lc)).
  { unfold start_node. destruct (binding_node lc); reflexivity. }
  rewrite Hnode.
  rewrite (get_kbinding_node_exact_edge h _ inp _ n Hd); [|destruct lc; exact Hn|exact He].
  cbv zeta. destruct (h !! n) as [b|]; [|reflexivity].
  destruct (funcref b); [reflexivity|].
  destruct (bool_decide (children b = ∅)); reflexivity.
Qed.

(** The turn of a keystroke that leads to an inner node. *)
Lemma exact_turn_more `{mle_h} {W} `{commands W} (st : loop_state W)
    km rest inp n b user :
  st_kmap_tail st = km :: rest ->
  is_digit_ch (ch inp) = false -> numeric (st_loop_ctx st) = [] ->
  node_children (st_kbindings st) (Some (start_node km (st_loop_ctx st))) !! inp
  = Some n ->
  st_kbindings st !! n = Some b -> funcref b = None -> children b <> ∅ ->
  exists ctx1 lc1,
    editor_loop_turn inp user st
    = (NeedMoreInput,
       LoopState (st_kbindings st) (st_kmap_tail st) (st_func_map st) (st_tty st)
         ctx1 lc1 (st_world st)) /\
    binding_node lc1 = Some n /\ numeric lc1 = [] /\
    numeric_params lc1 = numeric_params (st_loop_ctx st) /\
    wildcard_params lc1 = wildcard_params (st_loop_ctx st).
Proof.
  intros Hkt Hd Hn He Hb Hf Hc.
  destruct st as [h kt fm tty ctx lc w].
  cbn [st_kbindings st_kmap_tail st_func_map st_tty st_ctx st_loop_ctx st_world] in *.
  subst kt. unfold editor_loop_turn, editor_loop_dispatch.
  cbn [st_kbindings st_kmap_tail st_func_map st_tty st_ctx st_loop_ctx st_world].
  replace (input (set_input inp user ctx)) with inp by (destruct ctx; reflexivity).
  rewrite (get_command_exact h km rest inp lc _ n Hd Hn He).
  cbv zeta. rewrite Hb, Hf.
  rewrite bool_decide_eq_false_2 by exact Hc.
  cbn [need_more_input set_binding_node set_need_more_input].
  do 2 eexists. split; [reflexivity|].
  destruct lc; cbn in *. auto.
Qed.

(** The turn of a keystroke that leads to a bound node. *)
Lemma exact_turn_run `{mle_h} {W} `{commands W} (st : loop_state W)
    km rest inp n b f fn fm' user :
  st_kmap_tail st = km :: rest ->
  is_digit_ch (ch inp) = false -> numeric (st_loop_ctx st) = [] ->
  node_children (st_kbindings st) (Some (start_node km (st_loop_ctx st))) !! inp
  = Some n ->
  st_kbindings st !! n = Some b -> funcref b = Some f ->
  _editor_resolve_funcref (st_func_map st) f = (Some fn, fm') ->
  exists ctx_c lc_c st',
    editor_loop_turn inp user st = (Executed f fn ctx_c lc_c, st') /\
    ctx_static_param ctx_c = static_param b /\ input ctx_c = inp /\
    numeric_params lc_c = numeric_params (st_loop_ctx st) /\
    wildcard_params lc_c = wildcard_params (st_loop_ctx st).
Proof.
  intros Hkt Hd Hn He Hb Hf Hres.
  destruct st as [h kt fm tty ctx lc w].
  cbn [st_kbindings st_kmap_tail st_func_map st_tty st_ctx st_loop_ctx st_world] in *.
  subst kt. unfold editor_loop_turn, editor_loop_dispatch.
  cbn [st_kbindings st_kmap_tail st_func_map st_tty st_ctx st_loop_ctx st_world].
  replace (input (set_input inp user ctx)) with inp by (destruct ctx; reflexivity).
  rewrite (get_command_exact h km rest inp lc _ n Hd Hn He).
  cbv zeta. rewrite Hb, Hf, Hres.
  match goal with
  | |- context [if ?c then _editor_ingest_paste ?a1 ?a2 ?a3 ?a4 ?a5 ?a6 else _] =>
      destruct (ingest_paste_loop_frame a1 a2 a3 a4 (set_pastebuf [] a5) a6 eq_refl eq_refl)
        as (Hlc & Hsp & Hin);
      destruct c eqn:Hc
  end.
  - unfold _editor_ingest_paste.
    match goal with
    | |- context [ingest_paste_loop ?a1 ?a2 ?a3 ?a4 ?a5 ?a6] =>
        destruct (ingest_paste_loop a1 a2 a3 a4 a5 a6) as [[tty2 ctx2] lc2] eqn:Hing
    end.
    cbn [fst snd] in Hlc, Hsp, Hin. subst lc2.
    do 3 eexists. split; [reflexivity|].
    rewrite Hsp, Hin. destruct ctx, lc; cbn. auto.
  - do 3 eexists. split; [reflexivity|].
    destruct ctx, lc; cbn. auto.
Qed.

Lemma exact_chord_turns `{mle_h} {W} `{commands W} (path : list kinput_t) :
  forall (st : loop_state W) km rest leaf lb f fn fm' user,
  st_kmap_tail st = km :: rest ->
  numeric (st_loop_ctx st) = [] ->
  Forall (fun i => is_digit_ch (ch i) = false) path ->
  path <> [] ->
  trie_walk (st_kbindings st) (start_node km (st_loop_ctx st)) path = Some leaf ->
  st_kbindings st !! leaf = Some lb -> funcref lb = Some f ->
  (forall pre, pre <> [] -> pre `prefix_of` path -> pre <> path ->
     trie_funcref (st_kbindings st) (start_node km (st_loop_ctx st)) pre = None) ->
  _editor_resolve_funcref (st_func_map st) f = (Some fn, fm') ->
  exists ctx_c lc_c st2,
    editor_loop_turns path user st
    = (replicate (length path - 1) NeedMoreInput ++ [Executed f fn ctx_c lc_c], st2) /\
    ctx_static_param ctx_c = static_param lb /\
    numeric_params lc_c = numeric_params (st_loop_ctx st) /\
    wildcard_params lc_c = wildcard_params (st_loop_ctx st).
Proof.
  induction path as [|i path IH];
    intros st km rest leaf lb f fn fm' user Hkt Hnum Hd Hne Hw Hl Hf Hpre Hres;
    [congruence|].
  inversion Hd as [|? ? Hdi Hdp]; subst.
  cbn [trie_walk] in Hw.
  destruct (node_children (st_kbindings st) (Some (start_node km (st_loop_ctx st))) !! i)
    as [n|] eqn:He; [|discriminate].
  destruct path as [|i2 path].
  - (* the last keystroke *)
    cbn [trie_walk] in Hw. injection Hw as ->.
    destruct (exact_turn_run st km rest i leaf lb f fn fm' user Hkt Hdi Hnum He Hl Hf Hres)
      as (ctx_c & lc_c & st' & Ht & Hsp & _ & Hnp & Hwp).
    exists ctx_c, lc_c, st'. cbn [editor_loop_turns length replicate app Nat.sub].
    rewrite Ht. auto.
  - (* an inner keystroke *)
    assert (Hn : exists b, st_kbindings st !! n = Some b /\ children b <> ∅).
    { cbn [trie_walk] in Hw.
      destruct (node_children (st_kbindings st) (Some n) !! i2) as [n2|] eqn:He2;
        [|discriminate].
      destruct (node_children_edge _ _ _ _ He2) as (b & Hb & Hc).
      exists b. split; [exact Hb|]. intros Hemp. rewrite Hemp, lookup_empty in Hc.
      discriminate. }
    destruct Hn as (b & Hb & Hc).
    assert (Hfb : funcref b = None).
    { specialize (Hpre [i]). unfold trie_funcref in Hpre. cbn [trie_walk] in Hpre.
      rewrite He, Hb in Hpre. apply Hpre; [discriminate| |discriminate].
      exists (i2 :: path). reflexivity. }
    destruct (exact_turn_more st km rest i n b user Hkt Hdi Hnum He Hb Hfb Hc)
      as (ctx1 & lc1 & Ht & Hbn & Hnum1 & Hnp1 & Hwp1).
    set (st1 := LoopState (st_kbindings st) (st_kmap_tail st) (st_func_map st)
                  (st_tty st) ctx1 lc1 (st_world st)) in *.
    assert (Hstart : start_node km (st_loop_ctx st1) = n).
    { unfold start_node. cbn. rewrite Hbn. reflexivity. }
    destruct (IH st1 km rest leaf lb f fn fm' user) as (ctx_c & lc_c & st2 & Hts & Hsp & Hnp & Hwp).
    + exact Hkt.
    + exact Hnum1.
    + exact Hdp.
    + discriminate.
    + rewrite Hstart. exact Hw.
    + exact Hl.
    + exact Hf.
    + intros pre Hpne Hpp Hpn. rewrite Hstart.
      specialize (Hpre (i :: pre)). unfold trie_funcref in Hpre |- *.
      cbn [trie_walk] in Hpre. rewrite He in Hpre. apply Hpre.
      * discriminate.
      * destruct Hpp as [k Hk]. exists k. rewrite Hk. reflexivity.
      * congruence.
    + exact Hres.
    + exists ctx_c, lc_c, st2.
      change (editor_loop_turns (i :: i2 :: path) user st)
        with (let '(o, s1) := editor_loop_turn i user st in
              let '(os, s2) := editor_loop_turns (i2 :: path) user s1 in
              (o :: os, s2)).
      rewrite Ht. fold st1. rewrite Hts.
      split; [|rewrite <- Hnp1, <- Hwp1; auto].
      cbn [length]. replace (S (S (length path)) - 1)%nat with (S (S (length path) - 1))
        by lia. reflexivity.
Qed.

Lemma register_cmd_null fm name :
  (editor_register_cmd fm name None).2 = name /\
  is_Some ((editor_register_cmd fm name None).1 !! name) /\
  (forall other, other <> name ->
     (editor_register_cmd fm name None).1 !! other = fm !! other) /\
  (forall fr, fm !! name = Some fr -> (editor_register_cmd fm name None).1 = fm).
Proof.
  unfold editor_register_cmd. destruct (fm !! name) as [fr|] eqn:E; cbn [fst snd].
  - repeat split; eauto.
  - split; [reflexivity|]. split; [rewrite lookup_insert_eq; eauto|].
    split; [|discriminate].
    intros other Hne. apply lookup_insert_ne. congruence.
Qed.

(** X12. Binding a pattern changes one binding and no other.  In a keymap
    whose trie has the shape that [_editor_init_kmap] and successful
    insertions give it, [_editor_init_kmap_add_binding] of a pattern whose
    tokens are all names of inputs makes the command and the static
    parameter of the pattern's key sequence the ones given, leaves those
    of every other key sequence of the keymap as they were, and keeps the
    shape; in the registry the command name gets an entry if it had none,
    and the entries of all other names stay as they were. *)
Theorem init_kmap_add_binding_pointwise `{mle_h} `{keys_h} `{allocator}
    fm h kmap cmd_name key_patt sp inputs :
  trie_shaped h (bindings kmap) ->
  Forall2 (fun t i => key_patt_input t = Some i)
    ((key_tokens key_patt).1 :: (key_tokens key_patt).2) inputs ->
  let r := _editor_init_kmap_add_binding fm h kmap cmd_name key_patt sp in
  (forall path,
     trie_funcref r.2 (bindings kmap) path
     = (if decide (path = inputs) then Some cmd_name
        else trie_funcref h (bindings kmap) path) /\
     trie_static_param r.2 (bindings kmap) path
     = (if decide (path = inputs) then sp
        else trie_static_param h (bindings kmap) path)) /\
  trie_shaped r.2 (bindings kmap) /\
  is_Some (r.1 !! cmd_name) /\
  (forall other, other <> cmd_name -> r.1 !! other = fm !! other).
Proof.
  intros Hsh Hf. unfold _editor_init_kmap_add_binding.
  destruct (register_cmd_null fm cmd_name) as (Hname & Hreg & Hother & _).
  destruct (editor_register_cmd fm cmd_name None) as [fm1 fref].
  cbn [fst snd] in *. subst fref.
  destruct (key_tokens key_patt) as [t ts]. cbn [fst snd] in *.
  destruct (add_binding_spec h (bindings kmap) cmd_name t ts sp inputs Hsh Hf)
    as (Hpt & Hsh').
  auto.
Qed.

Lemma init_kmap_add_binding_pointwise_witness :
  let r := @_editor_init_kmap_add_binding sample_h sample_keys sample_alloc
             sample_func_map new_kmap_trie kmap_normal "cmd_move_bol" "M-y u"
             (Some "up"%string) in
  (forall path,
     trie_funcref r.2 (bindings kmap_normal) path
     = (if decide (path = [key_M_y; key_u]) then Some "cmd_move_bol"%string
        else trie_funcref new_kmap_trie (bindings kmap_normal) path) /\
     trie_static_param r.2 (bindings kmap_normal) path
     = (if decide (path = [key_M_y; key_u]) then Some "up"%string
        else trie_static_param new_kmap_trie (bindings kmap_normal) path)) /\
  trie_shaped r.2 (bindings kmap_normal) /\
  is_Some (r.1 !! "cmd_move_bol"%string) /\
  (forall other, other <> "cmd_move_bol"%string -> r.1 !! other = sample_func_map !! other).
Proof.
  apply (@init_kmap_add_binding_pointwise sample_h sample_keys sample_alloc
           sample_func_map new_kmap_trie kmap_normal "cmd_move_bol" "M-y u"
           (Some "up"%string) [key_M_y; key_u]).
  - apply new_kmap_trie_shaped.
  - repeat constructor.
Defined.

(** X13. A bound key sequence typed key by key.  With the loop at rest on
    a keymap (no pending node, empty numeric buffer), a sequence of
    keystrokes that are no digits, that is bound in the trie of the keymap
    on top of the stack to a command that resolves, and none of whose
    proper prefixes is bound, takes one turn per keystroke: every turn but
    the last reports need-more-input and runs nothing, and the last one
    runs the command, with the static parameter of the binding and with
    the parameter vectors as they were. *)
Theorem exact_chord `{mle_h} {W} `{commands W} (st : loop_state W)
    km rest path f fn fm' user :
  st_kmap_tail st = km :: rest ->
  binding_node (st_loop_ctx st) = None ->
  numeric (st_loop_ctx st) = [] ->
  Forall (fun i => is_digit_ch (ch i) = false) path ->
  trie_funcref (st_kbindings st) (bindings km) path = Some f ->
  path <> [] ->
  (forall pre, pre <> [] -> pre `prefix_of` path -> pre <> path ->
     trie_funcref (st_kbindings st) (bindings km) pre = None) ->
  _editor_resolve_funcref (st_func_map st) f = (Some fn, fm') ->
  exists ctx_c lc_c st2,
    editor_loop_turns path user st
    = (replicate (length path - 1) NeedMoreInput ++ [Executed f fn ctx_c lc_c], st2) /\
    ctx_static_param ctx_c = trie_static_param (st_kbindings st) (bindings km) path /\
    numeric_params lc_c = numeric_params (st_loop_ctx st) /\
    wildcard_params lc_c = wildcard_params (st_loop_ctx st).
Proof.
  intros Hkt Hbn Hnum Hd Hfr Hne Hpre Hres.
  assert (Hstart : start_node km (st_loop_ctx st) = bindings km)
    by (unfold start_node; rewrite Hbn; reflexivity).
  unfold trie_funcref, trie_static_param in *.
  destruct (trie_walk (st_kbindings st) (bindings km) path) as [leaf|] eqn:Hw;
    [|discriminate].
  destruct (st_kbindings st !! leaf) as [lb|] eqn:Hl; [|discriminate].
  apply (exact_chord_turns path st km rest leaf lb f fn fm' user); try assumption.
  - rewrite Hstart. exact Hw.
  - rewrite Hstart. exact Hpre.
Qed.

Lemma exact_chord_witness :
  exists ctx_c lc_c st2,
    @editor_loop_turns sample_h unit commands_idle [key_M_y; key_u] true
      (LoopState chord_trie [kmap_normal] sample_func_map [] sample_ctx loop_ctx_zero tt)
    = (replicate (length [key_M_y; key_u] - 1) NeedMoreInput
         ++ [Executed "cmd_move_bol" (fn_extern 1) ctx_c lc_c], st2) /\
    ctx_static_param ctx_c = trie_static_param chord_trie (bindings kmap_normal)
                               [key_M_y; key_u] /\
    numeric_params lc_c = numeric_params loop_ctx_zero /\
    wildcard_params lc_c = wildcard_params loop_ctx_zero.
Proof.
  apply (@exact_chord sample_h unit commands_idle
           (LoopState chord_trie [kmap_normal] sample_func_map [] sample_ctx
              loop_ctx_zero tt)
           kmap_normal [] [key_M_y; key_u] "cmd_move_bol"%string (fn_extern 1)
           sample_func_map true).
  - reflexivity.
  - reflexivity.
  - reflexivity.
  - repeat constructor.
  - vm_compute. reflexivity.
  - discriminate.
  - intros pre Hne [k Hk] Hneq.
    destruct pre as [|i1 [|i2 pre]]; [congruence| |].
    + injection Hk as <- _. vm_compute. reflexivity.
    + injection Hk as <- <- Hk. destruct pre; [congruence|discriminate].
  - vm_compute. reflexivity.
Defined.

(** X14. Bind, then type.  After [_editor_init_kmap_add_binding] has bound
    a pattern to a command that is registered with a function, in the
    keymap on top of the stack, typing the pattern's keys (none of them a
    digit, no proper prefix of the sequence bound before) with the loop at
    rest takes one turn per key, the last of which runs that function with
    the static parameter of the binding; the turns before it run
    nothing. *)
Theorem bind_then_type `{mle_h} `{keys_h} `{allocator} {W} `{commands W}
    (st : loop_state W) km rest cmd_name key_patt sp inputs fr fn user :
  st_kmap_tail st = km :: rest ->
  binding_node (st_loop_ctx st) = None ->
  numeric (st_loop_ctx st) = [] ->
  trie_shaped (st_kbindings st) (bindings km) ->
  Forall2 (fun t i => key_patt_input t = Some i)
    ((key_tokens key_patt).1 :: (key_tokens key_patt).2) inputs ->
  Forall (fun i => is_digit_ch (ch i) = false) inputs ->
  (forall pre, pre <> [] -> pre `prefix_of` inputs -> pre <> inputs ->
     trie_funcref (st_kbindings st) (bindings km) pre = None) ->
  st_func_map st !! cmd_name = Some fr -> func fr = Some fn ->
  let r := _editor_init_kmap_add_binding (st_func_map st) (st_kbindings st) km
             cmd_name key_patt sp in
  let st1 := LoopState r.2 (st_kmap_tail st) r.1 (st_tty st) (st_ctx st)
               (st_loop_ctx st) (st_world st) in
  exists ctx_c lc_c st2,
    editor_loop_turns inputs user st1
    = (replicate (length inputs - 1) NeedMoreInput
         ++ [Executed cmd_name fn ctx_c lc_c], st2) /\
    ctx_static_param ctx_c = sp.
Proof.
  intros Hkt Hbn Hnum Hsh Hf Hd Hpre Hfm Hfn.
  unfold _editor_init_kmap_add_binding.
  destruct (register_cmd_null (st_func_map st) cmd_name) as (Hname & _ & _ & Hsame).
  specialize (Hsame fr Hfm).
  destruct (editor_register_cmd (st_func_map st) cmd_name None) as [fm1 fref].
  cbn [fst snd] in *. subst fref fm1.
  destruct (key_tokens key_patt) as [t ts]. cbn [fst snd] in *.
  destruct (add_binding_spec (st_kbindings st) (bindings km) cmd_name t ts sp inputs
              Hsh Hf) as (Hpt & Hsh').
  cbv zeta in *.
  set (h1 := (_editor_init_kmap_add_binding_to_trie (st_kbindings st) (bindings km)
                cmd_name t ts sp).2) in *.
  assert (Hne : inputs <> []).
  { inversion Hf; discriminate. }
  assert (Hleaf : trie_funcref h1 (bindings km) inputs = Some cmd_name).
  { destruct (Hpt inputs) as [-> _]. rewrite decide_True by reflexivity. reflexivity. }
  assert (Hspl : trie_static_param h1 (bindings km) inputs = sp).
  { destruct (Hpt inputs) as [_ ->]. rewrite decide_True by reflexivity. reflexivity. }
  unfold trie_funcref in Hleaf. unfold trie_static_param in Hspl.
  destruct (trie_walk h1 (bindings km) inputs) as [leaf|] eqn:Hw; [|discriminate].
  destruct (h1 !! leaf) as [lb|] eqn:Hl; [|discriminate].
  set (st1 := LoopState h1 (st_kmap_tail st) (st_func_map st) (st_tty st) (st_ctx st)
                 (st_loop_ctx st) (st_world st)).
  assert (Hw1 : trie_walk (st_kbindings st1) (start_node km (st_loop_ctx st1)) inputs
                = Some leaf).
  { unfold start_node. cbn. rewrite Hbn. exact Hw. }
  assert (Hpre1 : forall pre, pre <> [] -> pre `prefix_of` inputs -> pre <> inputs ->
            trie_funcref (st_kbindings st1) (start_node km (st_loop_ctx st1)) pre = None).
  { intros pre Hp1 Hp2 Hp3. unfold start_node. cbn. rewrite Hbn.
    destruct (Hpt pre) as [-> _]. rewrite decide_False by exact Hp3.
    apply Hpre; assumption. }
  assert (Hres : _editor_resolve_funcref (st_func_map st1) cmd_name
                 = (Some fn, st_func_map st)).
  { change (st_func_map st1) with (st_func_map st).
    unfold _editor_resolve_funcref, funcref_p. rewrite Hfm, Hfn. reflexivity. }
  destruct (exact_chord_turns inputs st1 km rest leaf lb cmd_name fn (st_func_map st)
              user Hkt Hnum Hd Hne Hw1 Hl Hleaf Hpre1 Hres)
    as (ctx_c & lc_c & st2 & Hts & Hsp & _).
  - exists ctx_c, lc_c, st2. split; [exact Hts|]. congruence.
Qed.

Lemma bind_then_type_witness :
  let r := @_editor_init_kmap_add_binding sample_h sample_keys sample_alloc
             sample_func_map new_kmap_trie kmap_normal "cmd_move_bol" "M-y u"
             (Some "up"%string) in
  let st1 := LoopState r.2 [kmap_normal] r.1 [] sample_ctx loop_ctx_zero tt in
  exists ctx_c lc_c st2,
    @editor_loop_turns sample_h unit commands_idle [key_M_y; key_u] true st1
    = (replicate (length [key_M_y; key_u] - 1) NeedMoreInput
         ++ [Executed "cmd_move_bol" (fn_extern 1) ctx_c lc_c], st2) /\
    ctx_static_param ctx_c = Some "up"%string.
Proof.
  apply (@bind_then_type sample_h sample_keys sample_alloc unit commands_idle
           (LoopState new_kmap_trie [kmap_normal] sample_func_map [] sample_ctx
              loop_ctx_zero tt)
           kmap_normal [] "cmd_move_bol" "M-y u" (Some "up"%string)
           [key_M_y; key_u] (Funcref "cmd_move_bol" (Some (fn_extern 1))) (fn_extern 1)
           true).
  - reflexivity.
  - reflexivity.
  - reflexivity.
  - apply new_kmap_trie_shaped.
  - repeat constructor.
  - repeat constructor.
  - intros pre Hne _ _. destruct pre; [congruence|reflexivity].
  - vm_compute. reflexivity.
  - reflexivity.
Defined.

(** * Keymaps from definitions *)

Lemma init_kmap_add_binding_eq `{mle_h} `{keys_h} `{allocator}
    fm h kmap cmd_name key_patt sp :
  _editor_init_kmap_add_binding fm h kmap cmd_name key_patt sp
  = ((editor_register_cmd fm cmd_name None).1,
     (_editor_init_kmap_add_binding_to_trie h (bindings kmap) cmd_name
        (key_tokens key_patt).1 (key_tokens key_patt).2 sp).2).
Proof.
  unfold _editor_init_kmap_add_binding.
  destruct (register_cmd_null fm cmd_name) as (Hname & _).
  destruct (editor_register_cmd fm cmd_name None) as [fm1 fref].
  cbn [fst snd] in *. subst fref.
  destruct (key_tokens key_patt). reflexivity.
Qed.

(** Nodes outside the part of the store that an insertion starts in are
    out of its reach: when the insertion starts at a node that is not in
    [old], and no edge leads from outside [old] into it, the nodes of [old]
    stay as they are, whether the insertion succeeds or not. *)
Lemma add_binding_region `{mle_h} `{keys_h} `{allocator}
    (old : gmap ptr kbinding_t) fref sp next_key :
  forall h trie key_patt,
  old !! trie = None ->
  (forall p b, old !! p = Some b -> h !! p = Some b) ->
  (forall p b i c, h !! p = Some b -> old !! p = None ->
     children b !! i = Some c -> old !! c = None) ->
  let r := _editor_init_kmap_add_binding_to_trie h trie fref key_patt next_key sp in
  (forall p b, old !! p = Some b -> r.2 !! p = Some b) /\
  (forall p b i c, r.2 !! p = Some b -> old !! p = None ->
     children b !! i = Some c -> old !! c = None).
Proof.
  induction next_key as [|k ks IH]; intros h trie key_patt Ht Hold Hreg.
  - rewrite add_binding_leaf.
    destruct (key_patt_input key_patt) as [inp|]; [|auto]. cbn [snd].
    assert (Hn : old !! (trie_find_or_add h trie inp).1 = None).
    { unfold trie_find_or_add.
      destruct (node_children h (Some trie) !! inp) as [n|] eqn:E; cbn [fst].
      - destruct (node_children_edge _ _ _ _ E) as (b & Hb & Hc). eauto.
      - pose proof (calloc_fresh h) as Hfr.
        destruct (old !! calloc_kbinding h) as [ob|] eqn:Ho; [|reflexivity].
        rewrite (Hold _ _ Ho) in Hfr. discriminate. }
    split.
    + intros p b Hp. assert (p <> (trie_find_or_add h trie inp).1) by congruence.
      rewrite lookup_alter_ne by congruence.
      unfold trie_find_or_add.
      destruct (node_children h (Some trie) !! inp); cbn [snd]; [auto|].
      assert (p <> trie) by congruence.
      assert (p <> calloc_kbinding h).
      { intros ->. pose proof (calloc_fresh h) as Hfr. rewrite (Hold _ _ Hp) in Hfr.
        discriminate. }
      rewrite lookup_alter_ne, lookup_insert_ne by congruence. auto.
    + intros p b i c Hp Hop Hc.
      destruct (set_leaf_lookup _ _ _ _ _ _ Hp) as (b0 & Hp0 & E0).
      rewrite <- E0 in Hc.
      destruct (trie_find_or_add_edges _ _ _ _ _ _ _ Hp0 Hc)
        as [(b1 & Hp1 & Hc1)|(-> & -> & -> & _)]; [eauto|exact Hn].
  - rewrite add_binding_step.
    destruct (key_patt_input key_patt) as [inp|]; [|auto]. cbv zeta.
    assert (Hn : old !! (trie_find_or_add h trie inp).1 = None).
    { unfold trie_find_or_add.
      destruct (node_children h (Some trie) !! inp) as [n|] eqn:E; cbn [fst].
      - destruct (node_children_edge _ _ _ _ E) as (b & Hb & Hc). eauto.
      - pose proof (calloc_fresh h) as Hfr.
        destruct (old !! calloc_kbinding h) as [ob|] eqn:Ho; [|reflexivity].
        rewrite (Hold _ _ Ho) in Hfr. discriminate. }
    assert (Hold1 : forall p b, old !! p = Some b ->
              (trie_find_or_add h trie inp).2 !! p = Some b).
    { intros p b Hp. unfold trie_find_or_add.
      destruct (node_children h (Some trie) !! inp); cbn [snd]; [auto|].
      assert (p <> trie) by congruence.
      assert (p <> calloc_kbinding h).
      { intros ->. pose proof (calloc_fresh h) as Hfr. rewrite (Hold _ _ Hp) in Hfr.
        discriminate. }
      rewrite lookup_alter_ne, lookup_insert_ne by congruence. auto. }
    assert (Hreg1 : forall p b i c, (trie_find_or_add h trie inp).2 !! p = Some b ->
              old !! p = None -> children b !! i = Some c -> old !! c = None).
    { intros p b i c Hp Hop Hc.
      destruct (trie_find_or_add_edges _ _ _ _ _ _ _ Hp Hc)
        as [(b1 & Hp1 & Hc1)|(-> & -> & -> & _)]; [eauto|exact Hn]. }
    destruct (IH _ _ k Hn Hold1 Hreg1) as (Hold2 & Hreg2).
    destruct (_editor_init_kmap_add_binding_to_trie _ _ fref k ks sp) as [[|] h2];
      cbn [fst snd] in *; [auto|].
    split.
    + intros p b Hp. rewrite lookup_delete_ne by congruence. auto.
    + intros p b i c Hp Hop Hc.
      apply lookup_delete_Some in Hp as [_ Hp]. eauto.
Qed.

Lemma register_cmd_keeps fm name opt_func other :
  is_Some (fm !! other) -> is_Some ((editor_register_cmd fm name opt_func).1 !! other).
Proof.
  intros [fr Hfr]. unfold editor_register_cmd.
  destruct (fm !! name) as [r|] eqn:E; cbn [fst].
  - destruct opt_func; [|eauto].
    destruct (decide (other = name)) as [->|Hne].
    + rewrite lookup_insert_eq. eauto.
    + rewrite lookup_insert_ne by congruence. eauto.
  - destruct (decide (other = name)) as [->|Hne]; [congruence|].
    rewrite lookup_insert_ne by congruence. eauto.
Qed.

Lemma register_cmd_registers fm name opt_func :
  is_Some ((editor_register_cmd fm name opt_func).1 !! name).
Proof.
  unfold editor_register_cmd.
  destruct (fm !! name) as [r|] eqn:E; cbn [fst].
  - destruct opt_func; [rewrite lookup_insert_eq|]; eauto.
  - rewrite lookup_insert_eq. eauto.
Qed.

(** The loop over the definitions builds the table of the definitions on
    top of what the trie holds. *)
Lemma init_kmap_defs_table `{mle_h} `{keys_h} `{allocator}
    (old : gmap ptr kbinding_t) kmap defs :
  forall fm h inputss (table : gmap (list kinput_t) (string * option string)),
  trie_shaped h (bindings kmap) ->
  Forall2 (fun d inputs =>
             Forall2 (fun t i => key_patt_input t = Some i)
               ((key_tokens (def_key_patt d)).1 :: (key_tokens (def_key_patt d)).2)
               inputs) defs inputss ->
  (forall path,
     trie_funcref h (bindings kmap) path = fst <$> table !! path /\
     trie_static_param h (bindings kmap) path = table !! path ≫= snd) ->
  old !! bindings kmap = None ->
  (forall p b, old !! p = Some b -> h !! p = Some b) ->
  (forall p b i c, h !! p = Some b -> old !! p = None ->
     children b !! i = Some c -> old !! c = None) ->
  let r := init_kmap_defs fm h kmap defs in
  let table' := foldl (fun t e => <[e.1 := e.2]> t) table
                  (zip_with def_entry defs inputss) in
  trie_shaped r.2 (bindings kmap) /\
  (forall path,
     trie_funcref r.2 (bindings kmap) path = fst <$> table' !! path /\
     trie_static_param r.2 (bindings kmap) path = table' !! path ≫= snd) /\
  (forall p b, old !! p = Some b -> r.2 !! p = Some b) /\
  (forall name, is_Some (fm !! name) -> is_Some (r.1 !! name)) /\
  Forall (fun d => is_Some (r.1 !! def_name d)) defs.
Proof.
  induction defs as [|d defs IH]; intros fm h inputss table Hsh Hf Htab Hroot Hold Hreg.
  - inversion Hf; subst. cbn [init_kmap_defs zip_with foldl fst snd]. cbv zeta.
    split; [exact Hsh|]. split; [exact Htab|]. split; [exact Hold|].
    split; [auto|constructor].
  - inversion Hf as [|? inputs ? inputss' Hd Hrest]; subst.
    cbn [init_kmap_defs zip_with foldl].
    destruct (editor_register_cmd fm (def_name d) (def_func d)) as [fm1 ref] eqn:Er.
    rewrite init_kmap_add_binding_eq.
    destruct (add_binding_spec h (bindings kmap) (def_name d)
                (key_tokens (def_key_patt d)).1 (key_tokens (def_key_patt d)).2
                (def_static_param d) inputs Hsh Hd) as (Hpt & Hsh').
    destruct (add_binding_region old (def_name d) (def_static_param d)
                (key_tokens (def_key_patt d)).2 h (bindings kmap)
                (key_tokens (def_key_patt d)).1 Hroot Hold Hreg) as (Hold' & Hreg').
    cbv zeta in Hpt, Hsh', Hold', Hreg'.
    set (h2 := (_editor_init_kmap_add_binding_to_trie h (bindings kmap) (def_name d)
                  (key_tokens (def_key_patt d)).1 (key_tokens (def_key_patt d)).2
                  (def_static_param d)).2) in *.
    set (fm2 := (editor_register_cmd fm1 (def_name d) None).1).
    assert (Hd1 : is_Some (fm1 !! def_name d)).
    { pose proof (register_cmd_registers fm (def_name d) (def_func d)) as Hx.
      rewrite Er in Hx. exact Hx. }
    destruct (IH fm2 h2 inputss' (<[inputs := (def_name d, def_static_param d)]> table)
                Hsh' Hrest) as (Hsh2 & Htab2 & Hold2 & Hfm2 & Hall2); try assumption.
    { intros path. destruct (Hpt path) as [-> ->].
      destruct (decide (path = inputs)) as [->|Hne].
      - rewrite !lookup_insert_eq. split; reflexivity.
      - rewrite !lookup_insert_ne by congruence. apply Htab. }
    cbv zeta. split; [exact Hsh2|]. split; [exact Htab2|]. split; [exact Hold2|].
    assert (Hkeep : forall name, is_Some (fm !! name) -> is_Some (fm2 !! name)).
    { intros name Hn. apply register_cmd_keeps.
      pose proof (register_cmd_keeps fm (def_name d) (def_func d) name Hn) as Hx.
      rewrite Er in Hx. exact Hx. }
    split; [intros name Hn; apply Hfm2, Hkeep, Hn|].
    constructor; [|exact Hall2].
    apply Hfm2. apply register_cmd_keeps. exact Hd1.
Qed.

(** X15. A keymap is the table of its definitions.  [_editor_init_kmap]
    with definitions whose key patterns are all made of names of inputs
    builds, at a fresh root, a trie in which every key sequence is bound to
    the command and the static parameter of the last definition that has
    this sequence, and to nothing if there is none.  The trie has the
    shape that insertions keep, the nodes of the keymaps built before are
    untouched, the keymap carries the name, the fallthru flag and the
    default command given, is added at the end of the table of keymaps,
    and the commands it names are all in the registry. *)
Theorem init_kmap_table `{mle_h} `{keys_h} `{allocator}
    fm h kmap_map name dflt fallthru defs inputss :
  trie_closed h -> edge_injective h ->
  Forall2 (fun d inputs =>
             Forall2 (fun t i => key_patt_input t = Some i)
               ((key_tokens (def_key_patt d)).1 :: (key_tokens (def_key_patt d)).2)
               inputs) defs inputss ->
  let r := _editor_init_kmap fm h kmap_map name dflt fallthru defs in
  let kmap := r.2 in
  let table := bindings_table (zip_with def_entry defs inputss) in
  h !! bindings kmap = None /\
  trie_shaped r.1.1.2 (bindings kmap) /\
  (forall path,
     trie_funcref r.1.1.2 (bindings kmap) path = fst <$> table !! path /\
     trie_static_param r.1.1.2 (bindings kmap) path = table !! path ≫= snd) /\
  (forall p b, h !! p = Some b -> r.1.1.2 !! p = Some b) /\
  r.1.2 = kmap_map ++ [kmap] /\
  kname kmap = name /\ allow_fallthru kmap = fallthru /\
  default_funcref kmap = fst <$> dflt /\
  Forall (fun d => is_Some (r.1.1.1 !! def_name d)) defs /\
  (forall dname, fst <$> dflt = Some dname -> is_Some (r.1.1.1 !! dname)).
Proof.
  intros Hcl Hinj Hf. unfold _editor_init_kmap.
  pose proof (calloc_fresh h) as Hfr.
  remember (calloc_kbinding h) as root eqn:Hroot. clear Hroot.
  set (h0 := <[root := Kbinding (Kinput 0 0 0) ∅ None None]> h) in *.
  assert (Hdflt : exists fm0 d0,
            match dflt with
            | Some (dname, dfunc) =>
                let '(fm', ref) := editor_register_cmd fm dname dfunc in (fm', Some ref)
            | None => (fm, None)
            end = (fm0, d0) /\ d0 = fst <$> dflt /\
            (forall dname, fst <$> dflt = Some dname -> is_Some (fm0 !! dname))).
  { destruct dflt as [[dname dfunc]|]; cbn.
    - pose proof (register_cmd_registers fm dname dfunc) as Hreg.
      assert (Hn : (editor_register_cmd fm dname dfunc).2 = dname).
      { unfold editor_register_cmd. destruct (fm !! dname); reflexivity. }
      destruct (editor_register_cmd fm dname dfunc) as [fm' ref]. cbn in *. subst ref.
      exists fm', (Some dname). split; [reflexivity|]. split; [reflexivity|].
      intros ? [= <-]. exact Hreg.
    - exists fm, None. split; [reflexivity|]. split; [reflexivity|]. discriminate. }
  destruct Hdflt as (fm0 & d0 & -> & -> & Hdreg).
  cbv beta iota zeta.
  match goal with
  | |- context [init_kmap_defs fm0 ?h0' ?k defs] => set (kmap := k) in *
  end.
  assert (Hedge0 : forall p b i c, h0 !! p = Some b -> children b !! i = Some c ->
            h !! p = Some b).
  { intros p b i c Hp Hc. unfold h0 in Hp.
    destruct (decide (p = root)) as [->|Hne].
    - rewrite lookup_insert_eq in Hp. injection Hp as <-. cbn in Hc.
      rewrite lookup_empty in Hc. discriminate.
    - rewrite lookup_insert_ne in Hp by congruence. exact Hp. }
  assert (Hsh0 : trie_shaped h0 (bindings kmap)).
  { cbn [bindings kmap]. split; [unfold h0; rewrite lookup_insert_eq; eauto|].
    split.
    { intros p b i c Hp Hc. pose proof (Hedge0 _ _ _ _ Hp Hc) as Hp0.
      destruct (Hcl _ _ _ _ Hp0 Hc) as [cb Hcb]. unfold h0.
      rewrite lookup_insert_ne by congruence. eauto. }
    split.
    { intros p b i Hp Hc. pose proof (Hedge0 _ _ _ _ Hp Hc) as Hp0.
      destruct (Hcl _ _ _ _ Hp0 Hc) as [cb Hcb]. congruence. }
    intros p b i c p' b' i' Hp Hc Hp' Hc'.
    eapply Hinj; eauto. }
  assert (Htab0 : forall path,
            trie_funcref h0 (bindings kmap) path
            = fst <$> (∅ : gmap (list kinput_t) (string * option string)) !! path /\
            trie_static_param h0 (bindings kmap) path
            = (∅ : gmap (list kinput_t) (string * option string)) !! path ≫= snd).
  { intros path. rewrite lookup_empty. cbn [bindings kmap fmap option_fmap option_map mbind option_bind].
    unfold trie_funcref, trie_static_param.
    destruct path as [|i path]; cbn [trie_walk].
    - unfold h0. rewrite lookup_insert_eq. auto.
    - unfold node_children, h0. rewrite lookup_insert_eq. cbn [children].
      rewrite lookup_empty. auto. }
  destruct (init_kmap_defs_table h kmap defs fm0 h0 inputss ∅ Hsh0 Hf Htab0)
    as (Hsh & Htab & Hold & Hfm & Hall).
  { exact Hfr. }
  { intros p b Hp. unfold h0. rewrite lookup_insert_ne by congruence. exact Hp. }
  { intros p b i c Hp Hnone Hc. rewrite (Hedge0 _ _ _ _ Hp Hc) in Hnone. discriminate. }
  cbv zeta in Hsh, Htab, Hold, Hfm, Hall.
  destruct (init_kmap_defs fm0 h0 kmap defs) as [fm1 h1].
  cbn [fst snd] in *.
  split; [exact Hfr|]. split; [exact Hsh|]. split; [exact Htab|].
  split; [exact Hold|]. split; [reflexivity|]. split; [reflexivity|].
  split; [reflexivity|]. split; [reflexivity|]. split; [exact Hall|].
  intros dname Hd. apply Hfm, Hdreg, Hd.
Qed.

Lemma init_kmap_table_witness :
  let defs := [KbindingDef "cmd_move_bol" (Some (fn_extern 1)) "M-y u" (Some "up"%string);
               KbindingDef "cmd_user" None "C-a" None;
               KbindingDef "cmd_move_relative" None "M-y u" None] in
  let inputss := [[key_M_y; key_u]; [key_C_a]; [key_M_y; key_u]] in
  let r := @_editor_init_kmap sample_h sample_keys sample_alloc ∅ ∅ []
             "mle_sample" (Some ("cmd_insert_data"%string, Some fn_cmd_insert_data))
             0 defs in
  let kmap := r.2 in
  let table := bindings_table (zip_with def_entry defs inputss) in
  (∅ : gmap ptr kbinding_t) !! bindings kmap = None /\
  trie_shaped r.1.1.2 (bindings kmap) /\
  (forall path,
     trie_funcref r.1.1.2 (bindings kmap) path = fst <$> table !! path /\
     trie_static_param r.1.1.2 (bindings kmap) path = table !! path ≫= snd) /\
  (forall p b, (∅ : gmap ptr kbinding_t) !! p = Some b -> r.1.1.2 !! p = Some b) /\
  r.1.2 = [] ++ [kmap] /\
  kname kmap = "mle_sample"%string /\ allow_fallthru kmap = 0 /\
  default_funcref kmap
  = fst <$> Some ("cmd_insert_data"%string, Some fn_cmd_insert_data) /\
  Forall (fun d => is_Some (r.1.1.1 !! def_name d)) defs /\
  (forall dname,
     fst <$> Some ("cmd_insert_data"%string, Some fn_cmd_insert_data) = Some dname ->
     is_Some (r.1.1.1 !! dname)).
Proof.
  apply (@init_kmap_table sample_h sample_keys sample_alloc ∅ ∅ [] "mle_sample"
           (Some ("cmd_insert_data"%string, Some fn_cmd_insert_data)) 0
           [KbindingDef "cmd_move_bol" (Some (fn_extern 1)) "M-y u" (Some "up"%string);
            KbindingDef "cmd_user" None "C-a" None;
            KbindingDef "cmd_move_relative" None "M-y u" None]
           [[key_M_y; key_u]; [key_C_a]; [key_M_y; key_u]]).
  - intros p b inp n Hp. rewrite lookup_empty in Hp. discriminate.
  - intros p b inp n p' b' inp' Hp. rewrite lookup_empty in Hp. discriminate.
  - repeat constructor.
Defined.

(** * Bindings and keymaps from strings *)

Lemma append_cons c (a b : string) : String c a +:+ b = String c (a +:+ b).
Proof. reflexivity. Qed.

Lemma append_nil (b : string) : EmptyString +:+ b = b.
Proof. reflexivity. Qed.

Lemma strtok_rest_field (a b : string) :
  comma_free a = true ->
  strtok_rest (a +:+ comma +:+ b) = (a, strtoks b).
Proof.
  induction a as [|c a IH]; intros Hc.
  - rewrite append_nil. unfold comma. rewrite append_cons, append_nil.
    cbn [strtok_rest]. rewrite Ascii.eqb_refl. reflexivity.
  - cbn [comma_free] in Hc. apply andb_true_iff in Hc as [Hc Ha].
    apply negb_true_iff in Hc. rewrite append_cons. cbn [strtok_rest].
    rewrite Hc, (IH Ha). reflexivity.
Qed.

Lemma strtok_rest_last (a : string) :
  comma_free a = true -> strtok_rest a = (a, []).
Proof.
  induction a as [|c a IH]; cbn [comma_free strtok_rest]; [reflexivity|].
  intros Hc. apply andb_true_iff in Hc as [Hc Ha].
  apply negb_true_iff in Hc. rewrite Hc, (IH Ha). reflexivity.
Qed.

(** The first token of a string that starts with a field. *)
Lemma strtoks_field (a b : string) :
  comma_free a = true -> a <> EmptyString ->
  strtoks (a +:+ comma +:+ b) = a :: strtoks b.
Proof.
  destruct a as [|c a]; [congruence|]. intros Hc _.
  cbn [comma_free] in Hc. apply andb_true_iff in Hc as [Hc Ha].
  apply negb_true_iff in Hc. rewrite append_cons. cbn [strtoks].
  rewrite Hc, (strtok_rest_field a b Ha). reflexivity.
Qed.

Lemma strtoks_last (a : string) :
  comma_free a = true -> a <> EmptyString -> strtoks a = [a].
Proof.
  destruct a as [|c a]; [congruence|]. cbn [comma_free strtoks]. intros Hc _.
  apply andb_true_iff in Hc as [Hc Ha]. apply negb_true_iff in Hc.
  rewrite Hc, (strtok_rest_last a Ha). reflexivity.
Qed.

(** No token is empty and no token has a comma. *)
Lemma strtoks_tokens (s : string) :
  Forall (fun t => comma_free t = true /\ t <> EmptyString) (strtoks s) /\
  (comma_free (strtok_rest s).1 = true /\
   Forall (fun t => comma_free t = true /\ t <> EmptyString) (strtok_rest s).2).
Proof.
  induction s as [|c s [IH1 [IH2 IH3]]]; cbn [strtoks strtok_rest fst snd comma_free];
    [auto|].
  destruct (Ascii.eqb c comma_char) eqn:Ec; cbn [fst snd comma_free].
  - auto.
  - destruct (strtok_rest s) as [t ts]. cbn [fst snd] in *.
    assert (Hct : comma_free (String c t) = true).
    { cbn [comma_free]. rewrite Ec, IH2. reflexivity. }
    split; [constructor; [split; [exact Hct|discriminate]|exact IH3]|].
    split; [exact Hct|exact IH3].
Qed.

(** X16. A binding given as a string.  On [<cmd>,<key>] and on
    [<cmd>,<key>,<param>], with fields that are not empty and hold no
    comma, [_editor_init_kmap_add_binding_by_str] does what
    [_editor_init_kmap_add_binding] does on the fields, the static
    parameter being [<param>] or NULL, and it returns [MLE_OK] whether the
    key pattern could be inserted or not; on any string it returns
    [MLE_OK] exactly when the string has two fields or more, and it
    changes nothing when it returns [MLE_ERR]. *)
Theorem add_binding_by_str_fields `{mle_h} `{keys_h} `{allocator}
    fm h kmap cmd key_patt (param : option string) :
  comma_free cmd = true -> cmd <> EmptyString ->
  comma_free key_patt = true -> key_patt <> EmptyString ->
  (forall p, param = Some p -> comma_free p = true /\ p <> EmptyString) ->
  let str := cmd +:+ comma +:+ key_patt
             +:+ match param with Some p => comma +:+ p | None => EmptyString end in
  _editor_init_kmap_add_binding_by_str fm h kmap str
  = (MLE_OK, (_editor_init_kmap_add_binding fm h kmap cmd key_patt param).1,
     (_editor_init_kmap_add_binding fm h kmap cmd key_patt param).2) /\
  (forall s,
     ((_editor_init_kmap_add_binding_by_str fm h kmap s).1.1 = MLE_OK
      <-> (2 <= length (strtoks s))%nat) /\
     ((_editor_init_kmap_add_binding_by_str fm h kmap s).1.1 = MLE_ERR ->
      _editor_init_kmap_add_binding_by_str fm h kmap s = (MLE_ERR, fm, h))).
Proof.
  intros Hc Hcn Hk Hkn Hp. cbv zeta. split.
  - unfold _editor_init_kmap_add_binding_by_str.
    rewrite (strtoks_field cmd _ Hc Hcn).
    destruct param as [p|].
    + destruct (Hp p eq_refl) as [Hpc Hpn].
      rewrite (strtoks_field key_patt _ Hk Hkn), (strtoks_last p Hpc Hpn).
      cbn [head]. destruct (_editor_init_kmap_add_binding fm h kmap cmd key_patt (Some p)).
      reflexivity.
    + assert (Hnil : key_patt +:+ EmptyString = key_patt).
      { clear. induction key_patt as [|c k IH]; [reflexivity|].
        rewrite append_cons, IH. reflexivity. }
      rewrite Hnil, (strtoks_last key_patt Hk Hkn).
      cbn [head]. destruct (_editor_init_kmap_add_binding fm h kmap cmd key_patt None).
      reflexivity.
  - intros s. unfold _editor_init_kmap_add_binding_by_str.
    destruct (strtoks s) as [|a0 [|a1 rest]]; cbn [length fst snd].
    + split; [split; [discriminate|lia]|reflexivity].
    + split; [split; [discriminate|lia]|reflexivity].
    + destruct (_editor_init_kmap_add_binding fm h kmap a0 a1 (head rest)).
      cbn [fst snd]. split; [split; [lia|reflexivity]|discriminate].
Qed.

Lemma add_binding_by_str_fields_witness :
  @_editor_init_kmap_add_binding_by_str sample_h sample_keys sample_alloc
    sample_func_map new_kmap_trie kmap_normal
    ("cmd_move_bol" +:+ comma +:+ "M-y u" +:+ (comma +:+ "up"))
  = (MLE_OK,
     (@_editor_init_kmap_add_binding sample_h sample_keys sample_alloc sample_func_map
        new_kmap_trie kmap_normal "cmd_move_bol" "M-y u" (Some "up"%string)).1,
     (@_editor_init_kmap_add_binding sample_h sample_keys sample_alloc sample_func_map
        new_kmap_trie kmap_normal "cmd_move_bol" "M-y u" (Some "up"%string)).2).
Proof.
  apply (@add_binding_by_str_fields sample_h sample_keys sample_alloc sample_func_map
           new_kmap_trie kmap_normal "cmd_move_bol" "M-y u" (Some "up"%string)).
  - reflexivity.
  - discriminate.
  - reflexivity.
  - discriminate.
  - intros p [= <-]. split; [reflexivity|discriminate].
Defined.

(** X17. A keymap given as a string.  [_editor_init_kmap_by_str] reads
    [<name>,<default_cmd>,<allow_fallthru>] as a keymap with that default
    command, registered without a function, and reads
    [<name>,<allow_fallthru>] as a keymap without default command: the
    second field is the fallthru flag when there is no third.  The keymap
    is created without bindings; with fewer than two fields nothing is
    created and [MLE_ERR] is returned. *)
Theorem init_kmap_by_str_fields `{mle_h} `{keys_h} `{allocator} `{stdlib_h}
    fm h kmap_map name (dflt : option string) fallthru :
  comma_free name = true -> name <> EmptyString ->
  comma_free fallthru = true -> fallthru <> EmptyString ->
  (forall d, dflt = Some d -> comma_free d = true /\ d <> EmptyString) ->
  let str := name +:+ comma
             +:+ match dflt with Some d => d +:+ comma | None => EmptyString end
             +:+ fallthru in
  _editor_init_kmap_by_str fm h kmap_map str
  = (MLE_OK,
     Some (_editor_init_kmap fm h kmap_map name
             (match dflt with Some d => Some (d, None) | None => None end)
             (atoi fallthru) [])) /\
  (forall s, (length (strtoks s) < 2)%nat ->
     _editor_init_kmap_by_str fm h kmap_map s = (MLE_ERR, None)).
Proof.
  intros Hn Hnn Hf Hfn Hd. cbv zeta. split.
  - unfold _editor_init_kmap_by_str.
    rewrite (strtoks_field name _ Hn Hnn).
    destruct dflt as [d|].
    + destruct (Hd d eq_refl) as [Hdc Hdn].
      assert (Hassoc : (d +:+ comma) +:+ fallthru = d +:+ comma +:+ fallthru).
      { clear. induction d as [|c d IH]; [reflexivity|].
        rewrite !append_cons, IH. reflexivity. }
      rewrite Hassoc, (strtoks_field d _ Hdc Hdn), (strtoks_last fallthru Hf Hfn).
      reflexivity.
    + rewrite append_nil, (strtoks_last fallthru Hf Hfn). reflexivity.
  - intros s Hlen. unfold _editor_init_kmap_by_str.
    destruct (strtoks s) as [|a0 [|a1 rest]]; cbn [length] in Hlen;
      [reflexivity|reflexivity|lia].
Qed.

Lemma init_kmap_by_str_fields_witness :
  @_editor_init_kmap_by_str sample_h sample_keys sample_alloc sample_stdlib
    sample_func_map ∅ [] ("mle_user" +:+ comma +:+ ("cmd_user" +:+ comma) +:+ "1")
  = (MLE_OK,
     Some (@_editor_init_kmap sample_h sample_keys sample_alloc sample_func_map ∅ []
             "mle_user" (Some ("cmd_user"%string, None)) (@atoi sample_stdlib "1") [])).
Proof.
  apply (@init_kmap_by_str_fields sample_h sample_keys sample_alloc sample_stdlib
           sample_func_map ∅ [] "mle_user" (Some "cmd_user"%string) "1").
  - reflexivity.
  - discriminate.
  - reflexivity.
  - discriminate.
  - intros d [= <-]. split; [reflexivity|discriminate].
Defined.

(** * Macros: recording turns, the toggle key, macros from strings *)

Lemma record_macro_input_cap m k :
  macro_name (_editor_record_macro_input m k) = macro_name m /\
  inputs_len (_editor_record_macro_input m k) = inputs_len m + 1 /\
  inputs_len (_editor_record_macro_input m k)
  <= inputs_cap (_editor_record_macro_input m k).
Proof.
  unfold _editor_record_macro_input, inputs_len, macro_inputs.
  destruct (inputs m) as [l|] eqn:E; cbn [inputs inputs_cap macro_name].
  - rewrite length_app. cbn [length].
    split; [reflexivity|]. split; [lia|].
    destruct (inputs_cap m <? Z.of_nat (length l) + 1) eqn:Ec.
    + lia.
    + apply Z.ltb_ge in Ec. lia.
  - cbn. split; [reflexivity|]. split; lia.
Qed.

(** While a macro is recorded, the macro of [editor_get_input]'s result is
    the old one with the acquired input recorded. *)
Lemma editor_get_input_records s r m i :
  is_recording_macro s = true -> macro_record s = Some r ->
  macros s !! r = Some m ->
  editor_get_input s = Some i ->
  macros i = <[r := _editor_record_macro_input m (input (ictx i))]> (macros s) /\
  macro_record i = Some r /\ is_recording_macro i = true.
Proof.
  intros Hrec Hr Hm. unfold editor_get_input. rewrite Hrec, Hr, Hm.
  repeat (case_match; simplify_eq/=); intros; simplify_eq/=; auto.
Qed.

Lemma drop_last_recorded m k :
  macro_inputs (drop_last_input (_editor_record_macro_input m k)) = macro_inputs m /\
  macro_name (drop_last_input (_editor_record_macro_input m k)) = macro_name m /\
  inputs_len (drop_last_input (_editor_record_macro_input m k))
  <= inputs_cap (drop_last_input (_editor_record_macro_input m k)).
Proof.
  destruct (record_macro_input_cap m k) as (Hn & Hl & Hc).
  pose proof (record_macro_input_inputs m k) as Hi.
  unfold drop_last_input.
  assert (Hpos : (0 <? inputs_len (_editor_record_macro_input m k)) = true).
  { apply Z.ltb_lt. rewrite Hl. unfold inputs_len. lia. }
  rewrite Hpos.
  unfold macro_inputs in Hi |- *. unfold inputs_len, macro_inputs in Hc |- *.
  cbn [inputs macro_name inputs_cap].
  destruct (inputs (_editor_record_macro_input m k)) as [l|] eqn:E.
  - rewrite Hi, removelast_last. rewrite Hi in Hc.
    rewrite length_app in Hc. cbn [length] in Hc.
    split; [reflexivity|]. split; [exact Hn|].
    destruct (inputs m); cbn [length] in *; lia.
  - unfold _editor_record_macro_input in E.
    destruct (inputs m); discriminate.
Qed.

(** X18. A turn of the loop while a macro is recorded.  The input that
    [editor_get_input] acquires, from the terminal or from a macro being
    replayed, is appended to the recording; when it is the toggle key,
    [_editor_maybe_toggle_macro] takes it off again, files the macro in
    the table of macros and ends the recording, so that the stored macro
    holds the inputs recorded before the toggle key and not the key
    itself; otherwise the recording goes on and the turn proceeds to the
    dispatch.  In both cases the macro keeps its name and its length is
    within its capacity. *)
Theorem macro_recording_turn `{macro_collab} s r m i :
  is_recording_macro (ms_input s) = true ->
  macro_record (ms_input s) = Some r ->
  macros (ms_input s) !! r = Some m ->
  editor_get_input (ms_input s) = Some i ->
  exists s' m',
    loop_get_input s
    = Some (bool_decide (input (ictx i) = macro_toggle_key s), s') /\
    macros (ms_input s') !! r = Some m' /\
    macro_name m' = macro_name m /\
    inputs_len m' <= inputs_cap m' /\
    macro_toggle_key s' = macro_toggle_key s /\
    if decide (input (ictx i) = macro_toggle_key s)
    then macro_inputs m' = macro_inputs m /\
         macro_map s' = macro_map s ++ [r] /\
         is_recording_macro (ms_input s') = false /\
         macro_record (ms_input s') = None
    else macro_inputs m' = macro_inputs m ++ [input (ictx i)] /\
         macro_map s' = macro_map s /\
         is_recording_macro (ms_input s') = true /\
         macro_record (ms_input s') = Some r /\
         ms_input s' = i.
Proof.
  intros Hrec Hr Hm Hi.
  destruct (editor_get_input_records _ _ _ _ Hrec Hr Hm Hi) as (Hms & Hr' & Hrec').
  unfold loop_get_input. rewrite Hi. unfold _editor_maybe_toggle_macro.
  cbn [ms_input macro_toggle_key macro_map].
  destruct (decide (input (ictx i) = macro_toggle_key s)) as [Hk|Hk].
  - rewrite bool_decide_eq_false_2 by (intros Hne; exact (Hne Hk)).
    rewrite (bool_decide_eq_true_2 _ Hk).
    rewrite Hrec', Hr'.
    destruct (drop_last_recorded m (input (ictx i))) as (Hin & Hn & Hc).
    do 2 eexists. split; [reflexivity|].
    cbn [ms_input macro_toggle_key macro_map set_recording set_macros macros
         is_recording_macro macro_record].
    rewrite Hms, lookup_alter_eq, lookup_insert_eq. cbn [fmap option_fmap option_map].
    split; [reflexivity|]. repeat split; assumption.
  - rewrite (bool_decide_eq_true_2 _ Hk).
    rewrite (bool_decide_eq_false_2 _ Hk).
    destruct (record_macro_input_cap m (input (ictx i))) as (Hn & _ & Hc).
    do 2 eexists. split; [reflexivity|].
    cbn [ms_input macro_toggle_key macro_map].
    rewrite Hms, lookup_insert_eq.
    split; [reflexivity|].
    rewrite record_macro_input_inputs. repeat split; assumption.
Qed.

Lemma macro_recording_turn_witness :
  exists s' m',
    @loop_get_input sample_macros sample_macro_state
    = Some (bool_decide (key_M_m = macro_toggle_key sample_macro_state), s') /\
    macros (ms_input s') !! 1%positive = Some m' /\
    macro_name m' = Some "rec"%string /\
    inputs_len m' <= inputs_cap m' /\
    macro_toggle_key s' = key_M_m /\
    macro_inputs m' = [key_u; key_x] /\
    macro_map s' = [] ++ [1%positive] /\
    is_recording_macro (ms_input s') = false /\
    macro_record (ms_input s') = None.
Proof.
  destruct (@macro_recording_turn sample_macros sample_macro_state 1%positive
              (Kmacro (Some "rec"%string) (Some [key_u; key_x]) 8)
              (InputState
                 (list_to_map
                    [(1%positive,
                      Kmacro (Some "rec"%string) (Some [key_u; key_x; key_M_m]) 8)])
                 (Some 1%positive) true None 0 []
                 (CmdCtx key_M_m None true [] false (Kinput 0 0 0)))
              eq_refl eq_refl eq_refl eq_refl)
    as (s' & m' & Hl & Hm & Hn & Hc & Hk & Hrest).
  exists s', m'. repeat split; try assumption; apply Hrest.
Defined.

(** X19. Setting the toggle key.  [editor_set_macro_toggle_key] returns
    what [_editor_key_to_input] returns; after a success the toggle
    reacts to the input that the key name stands for and to no other;
    after a failure the toggle key is the zero input, whatever it was
    before.  The key names accepted are the names of [keys.h] and, for a
    name that is not among them, the names whose first character (after
    an [M-] that is followed by more) decodes to a code point above 0;
    the empty name is refused. *)
Theorem set_macro_toggle_key_spec `{keys_h} `{macro_collab} s key :
  let r := editor_set_macro_toggle_key s key in
  r.1 = (_editor_key_to_input key).1 /\
  ms_input r.2 = ms_input s /\ macro_map r.2 = macro_map s /\
  (r.1 = MLE_OK ->
   forall inp, (_editor_maybe_toggle_macro r.2 inp).1 = true
               <-> inp = (_editor_key_to_input key).2) /\
  (r.1 = MLE_ERR -> macro_toggle_key r.2 = Kinput 0 0 0) /\
  (key = EmptyString -> r.1 = MLE_ERR) /\
  (forall inp, key_def_lookup key MLE_KEY_DEFS = Some inp -> key <> EmptyString ->
     r.1 = MLE_OK /\ macro_toggle_key r.2 = inp).
Proof.
  cbv zeta. unfold editor_set_macro_toggle_key.
  destruct (_editor_key_to_input key) as [rc inp0] eqn:E. cbn [fst snd ms_input macro_map].
  split; [reflexivity|]. split; [reflexivity|]. split; [reflexivity|].
  split.
  { intros _ inp. unfold _editor_maybe_toggle_macro. cbn [macro_toggle_key].
    destruct (decide (inp = inp0)) as [->|Hne].
    - rewrite bool_decide_eq_false_2 by (intros Hx; exact (Hx eq_refl)).
      split; [reflexivity|]. intros _.
      repeat (case_match; simplify_eq/=); reflexivity.
    - rewrite (bool_decide_eq_true_2 _ Hne). cbn. split; [discriminate|congruence]. }
  split.
  { intros ->. unfold _editor_key_to_input in E.
    repeat (case_match; simplify_eq/=); reflexivity. }
  split.
  { intros ->. cbn in E. congruence. }
  intros inp Hl Hne. unfold _editor_key_to_input in E.
  destruct key as [|c key]; [congruence|].
  cbn [String.length Nat.ltb Nat.leb] in E. rewrite Hl in E. injection E as <- <-.
  auto.
Qed.

Lemma set_macro_toggle_key_spec_witness :
  let r := @editor_set_macro_toggle_key sample_keys sample_macro_state "M-y" in
  r.1 = MLE_OK /\
  forall inp, (@_editor_maybe_toggle_macro sample_macros r.2 inp).1 = true
              <-> inp = key_M_y.
Proof.
  destruct (@set_macro_toggle_key_spec sample_keys sample_macros sample_macro_state "M-y")
    as (Hrc & _ & _ & Hok & _).
  split; [exact Hrc|]. apply Hok. exact Hrc.
Defined.

Lemma add_macro_inputs_ok `{keys_h} tokens :
  forall macro inputs,
  Forall2 (fun t i => _editor_key_to_input t = (MLE_OK, i)) tokens inputs ->
  exists m',
    add_macro_inputs macro tokens = Some m' /\
    macro_inputs m' = macro_inputs macro ++ inputs /\
    macro_name m' = macro_name macro /\
    (tokens <> [] -> inputs_len m' <= inputs_cap m').
Proof.
  induction tokens as [|t tokens IH]; intros macro inputs Hf.
  - inversion Hf; subst. exists macro. rewrite app_nil_r. cbn [add_macro_inputs].
    split; [reflexivity|]. split; [reflexivity|]. split; [reflexivity|congruence].
  - inversion Hf as [|? i ? inputs' Hi Hrest]; subst.
    cbn [add_macro_inputs]. rewrite Hi.
    destruct (IH (_editor_record_macro_input macro i) inputs' Hrest)
      as (m' & Hm & Hin & Hn & Hc).
    destruct (record_macro_input_cap macro i) as (Hn1 & _ & Hc1).
    exists m'. split; [exact Hm|].
    rewrite Hin, record_macro_input_inputs, <- app_assoc.
    split; [reflexivity|]. split; [congruence|].
    intros _. destruct tokens as [|t2 tokens]; [|apply Hc; discriminate].
    cbn in Hm. injection Hm as <-. exact Hc1.
Qed.

Lemma add_macro_inputs_bad `{keys_h} tokens :
  forall macro,
  Exists (fun t => (_editor_key_to_input t).1 = MLE_ERR) tokens ->
  add_macro_inputs macro tokens = None.
Proof.
  induction tokens as [|t tokens IH]; intros macro He; [inversion He|].
  cbn [add_macro_inputs].
  destruct (_editor_key_to_input t) as [[|] i] eqn:E; [|reflexivity].
  apply IH. inversion He as [? ? Hx|]; subst; [|assumption].
  rewrite E in Hx. discriminate.
Qed.

(** X20. A macro given as a string.  On a string whose comma-separated
    fields are a name followed by at least one key name, all of them names
    of keys, [_editor_add_macro_by_str] returns [MLE_OK] and adds, at a
    fresh address and at the end of the table of macros, a macro with
    that name whose inputs are the keys in order, its length within its
    capacity; the other macros are untouched.  With no key after the
    name, or with a field that is not the name of a key, it returns
    [MLE_ERR] and changes nothing. *)
Theorem add_macro_by_str_fields `{keys_h} `{macro_collab} s str name tokens :
  strtoks str = name :: tokens ->
  let r := _editor_add_macro_by_str s str in
  (forall inputs,
     tokens <> [] ->
     Forall2 (fun t i => _editor_key_to_input t = (MLE_OK, i)) tokens inputs ->
     exists a m,
       r.1 = MLE_OK /\
       macros (ms_input s) !! a = None /\
       macros (ms_input r.2) = <[a := m]> (macros (ms_input s)) /\
       macro_name m = Some name /\ macro_inputs m = inputs /\
       inputs_len m <= inputs_cap m /\
       macro_map r.2 = macro_map s ++ [a]) /\
  (tokens = [] \/ Exists (fun t => (_editor_key_to_input t).1 = MLE_ERR) tokens ->
   r = (MLE_ERR, s)).
Proof.
  intros Hs. cbv zeta. unfold _editor_add_macro_by_str. rewrite Hs. split.
  - intros inputs Hne Hf.
    destruct (add_macro_inputs_ok tokens (Kmacro (Some name) None 0) inputs Hf)
      as (m' & -> & Hin & Hn & Hc).
    destruct tokens as [|t tokens]; [congruence|].
    exists (calloc_kmacro (macros (ms_input s))), m'. cbn [fst snd ms_input macro_map].
    split; [reflexivity|]. split; [apply calloc_kmacro_fresh|].
    split; [reflexivity|]. split; [exact Hn|]. split; [exact Hin|].
    split; [apply Hc; discriminate|reflexivity].
  - intros [-> | He]; [reflexivity|].
    rewrite (add_macro_inputs_bad tokens _ He). reflexivity.
Qed.

Lemma add_macro_by_str_fields_witness :
  exists a m,
    (@_editor_add_macro_by_str sample_keys sample_macros sample_macro_state
       "x,M-y,u").1 = MLE_OK /\
    macros (ms_input sample_macro_state) !! a = None /\
    macros (ms_input (@_editor_add_macro_by_str sample_keys sample_macros
                        sample_macro_state "x,M-y,u").2)
    = <[a := m]> (macros (ms_input sample_macro_state)) /\
    macro_name m = Some "x"%string /\ macro_inputs m = [key_M_y; key_u] /\
    inputs_len m <= inputs_cap m /\
    macro_map (@_editor_add_macro_by_str sample_keys sample_macros
                 sample_macro_state "x,M-y,u").2
    = macro_map sample_macro_state ++ [a].
Proof.
  destruct (@add_macro_by_str_fields sample_keys sample_macros sample_macro_state
              "x,M-y,u" "x" ["M-y"%string; "u"%string] eq_refl) as [Hok _].
  apply (Hok [key_M_y; key_u]).
  - discriminate.
  - repeat constructor.
Defined.

(** * The rc file *)

Lemma find_newline_line l rest off :
  rc_line l -> find_newline (l ++ 10 :: rest) off = Some (off + length l)%nat.
Proof.
  intros Hl. revert off. induction Hl as [|c l [Hc1 Hc2] Hl IH]; intros off; cbn.
  - f_equal. lia.
  - destruct (Z.eqb_spec c 10); [congruence|].
    destruct (Z.eqb_spec c 0); [congruence|].
    rewrite IH. f_equal. lia.
Qed.

Lemma find_newline_none l rest off :
  rc_line l -> find_newline (l ++ 0 :: rest) off = None.
Proof.
  intros Hl. revert off. induction Hl as [|c l [Hc1 Hc2] Hl IH]; intros off; cbn.
  - reflexivity.
  - destruct (Z.eqb_spec c 10); [congruence|].
    destruct (Z.eqb_spec c 0); [congruence|]. apply IH.
Qed.

Lemma c_string_line l rest :
  rc_line l -> c_string (l ++ 0 :: rest) = l.
Proof.
  induction 1 as [|c l [Hc1 Hc2] Hl IH]; cbn.
  - reflexivity.
  - rewrite bool_decide_eq_false_2 by exact Hc2. rewrite IH. reflexivity.
Qed.

Lemma rc_line_removelast l : rc_line l -> rc_line (removelast l).
Proof.
  intros Hl. destruct l as [|c l] using rev_ind; [constructor|].
  rewrite removelast_last. apply Forall_app in Hl as [Hl _]. exact Hl.
Qed.

(** The pass that counts. *)
Lemma rc_pass_count ls last :
  Forall rc_line ls -> rc_line last ->
  forall done fuel fargc fargv,
  (length ls + (if decide (last = []) then 0 else 1) <= fuel)%nat ->
  (rc_pass fuel (done ++ rc_lines ls ++ last ++ [0%Z])
     (length done + length (rc_lines ls ++ last)) (length done) false fargc fargv).1.2
  = fargc + Z.of_nat (length ls + (if decide (last = []) then 0 else 1)).
Proof.
  intros Hls Hlast. induction Hls as [|l ls Hl Hls IH]; intros done fuel fargc fargv Hfuel.
  - cbn [rc_lines map concat app length] in *.
    destruct (decide (last = [])) as [->|Hne].
    + cbn [length]. rewrite Nat.add_0_r.
      destruct fuel; cbn [rc_pass]; [cbn; lia|].
      rewrite Nat.ltb_irrefl. cbn. lia.
    + destruct fuel as [|fuel]; [cbn in Hfuel; lia|]. cbn [rc_pass].
      assert (Hlt : (length done <? length done + length last)%nat = true).
      { apply Nat.ltb_lt. destruct last; [congruence|cbn; lia]. }
      rewrite Hlt. unfold strchr_newline. rewrite drop_app_length.
      rewrite (find_newline_none last [] _ Hlast).
      replace (length done + length last - 1 + 1)%nat
        with (length done + length last)%nat
        by (destruct last; [congruence|cbn; lia]).
      destruct fuel; cbn [rc_pass]; [cbn; lia|].
      rewrite Nat.ltb_irrefl. cbn. lia.
  - destruct fuel as [|fuel]; [cbn in Hfuel; lia|]. cbn [rc_pass].
    cbn [rc_lines map concat].
    fold (rc_lines ls).
    assert (Hlt : (length done <? length done
                     + length (((l ++ [10%Z]) ++ rc_lines ls) ++ last))%nat = true).
    { apply Nat.ltb_lt. rewrite !length_app. cbn. lia. }
    rewrite Hlt. unfold strchr_newline.
    replace (done ++ ((l ++ [10%Z]) ++ rc_lines ls) ++ last ++ [0%Z])
      with (done ++ l ++ 10%Z :: (rc_lines ls ++ last ++ [0%Z]))
      by (rewrite <- !app_assoc; reflexivity).
    rewrite drop_app_length, (find_newline_line l _ _ Hl).
    replace (done ++ l ++ 10%Z :: (rc_lines ls ++ last ++ [0%Z]))
      with ((done ++ l ++ [10%Z]) ++ rc_lines ls ++ last ++ [0%Z])
      by (rewrite <- !app_assoc; reflexivity).
    replace (length done + length (((l ++ [10%Z]) ++ rc_lines ls) ++ last))%nat
      with (length (done ++ l ++ [10%Z]) + length (rc_lines ls ++ last))%nat
      by (rewrite !length_app; cbn; lia).
    replace (length done + length l + 1)%nat with (length (done ++ l ++ [10%Z]))
      by (rewrite !length_app; cbn; lia).
    rewrite IH by (cbn in Hfuel; lia).
    cbn [length]. lia.
Qed.

Lemma insert_middle (done l : list Z) c rest x :
  <[(length done + length l)%nat := x]> (done ++ l ++ c :: rest)
  = done ++ l ++ x :: rest.
Proof.
  rewrite insert_app_r. f_equal.
  replace (length l) with (length l + 0)%nat by lia.
  rewrite insert_app_r. reflexivity.
Qed.

(** The pass that cuts the lines. *)
Lemma rc_pass_write ls last :
  Forall rc_line ls -> rc_line last ->
  forall done fuel fargc fargv,
  (length ls + (if decide (last = []) then 0 else 1) <= fuel)%nat ->
  exists tl starts,
    rc_pass fuel (done ++ rc_lines ls ++ last ++ [0%Z])
      (length done + length (rc_lines ls ++ last)) (length done) true fargc fargv
    = (done ++ tl,
       fargc + Z.of_nat (length ls + (if decide (last = []) then 0 else 1)),
       fargv ++ starts) /\
    map (fun b => c_string (drop b (done ++ tl))) starts
    = ls ++ (if decide (last = []) then [] else [removelast last]).
Proof.
  intros Hls Hlast. induction Hls as [|l ls Hl Hls IH]; intros done fuel fargc fargv Hfuel.
  - cbn [rc_lines map concat app length] in *.
    destruct (decide (last = [])) as [->|Hne].
    + exists [0%Z], []. cbn [length app]. rewrite Nat.add_0_r, app_nil_r.
      split; [|reflexivity].
      destruct fuel; cbn [rc_pass]; rewrite ?Nat.ltb_irrefl; f_equal; f_equal; lia.
    + destruct fuel as [|fuel]; [cbn in Hfuel; lia|]. cbn [rc_pass].
      assert (Hlt : (length done <? length done + length last)%nat = true).
      { apply Nat.ltb_lt. destruct last; [congruence|cbn; lia]. }
      rewrite Hlt. unfold strchr_newline. rewrite drop_app_length.
      rewrite (find_newline_none last [] _ Hlast).
      destruct last as [|c last _] using rev_ind; [congruence|].
      rewrite removelast_last.
      replace (length done + length (last ++ [c]) - 1)%nat
        with (length done + length last)%nat by (rewrite length_app; cbn; lia).
      replace (done ++ (last ++ [c]) ++ [0%Z]) with (done ++ last ++ c :: [0%Z])
        by (rewrite <- !app_assoc; reflexivity).
      rewrite insert_middle.
      exists (last ++ [0%Z; 0%Z]), [length done].
      split.
      * replace (length done + length last + 1)%nat
          with (length done + length (last ++ [c]))%nat
          by (rewrite length_app; cbn; lia).
        destruct fuel; cbn [rc_pass]; rewrite ?Nat.ltb_irrefl; f_equal; f_equal; lia.
      * cbn [map]. rewrite drop_app_length.
        apply Forall_app in Hlast as [Hlast _].
        rewrite (c_string_line last [0%Z] Hlast). reflexivity.
  - destruct fuel as [|fuel]; [cbn in Hfuel; lia|]. cbn [rc_pass].
    cbn [rc_lines map concat].
    fold (rc_lines ls).
    assert (Hlt : (length done <? length done
                     + length (((l ++ [10%Z]) ++ rc_lines ls) ++ last))%nat = true).
    { apply Nat.ltb_lt. rewrite !length_app. cbn. lia. }
    rewrite Hlt. unfold strchr_newline.
    replace (done ++ ((l ++ [10%Z]) ++ rc_lines ls) ++ last ++ [0%Z])
      with (done ++ l ++ 10%Z :: (rc_lines ls ++ last ++ [0%Z]))
      by (rewrite <- !app_assoc; reflexivity).
    rewrite drop_app_length, (find_newline_line l _ _ Hl).
    rewrite insert_middle.
    replace (done ++ l ++ 0%Z :: (rc_lines ls ++ last ++ [0%Z]))
      with ((done ++ l ++ [0%Z]) ++ rc_lines ls ++ last ++ [0%Z])
      by (rewrite <- !app_assoc; reflexivity).
    replace (length done + length (((l ++ [10%Z]) ++ rc_lines ls) ++ last))%nat
      with (length (done ++ l ++ [0%Z]) + length (rc_lines ls ++ last))%nat
      by (rewrite !length_app; cbn; lia).
    replace (length done + length l + 1)%nat with (length (done ++ l ++ [0%Z]))
      by (rewrite !length_app; cbn; lia).
    destruct (IH (done ++ l ++ [0%Z]) fuel (fargc + 1) (fargv ++ [length done]))
      as (tl & starts & Hpass & Hread); [cbn in Hfuel; lia|].
    exists (l ++ [0%Z] ++ tl), (length done :: starts).
    replace (done ++ l ++ [0%Z] ++ tl) with ((done ++ l ++ [0%Z]) ++ tl)
      by (rewrite <- !app_assoc; reflexivity).
    split.
    + rewrite Hpass. f_equal; [f_equal; cbn [length]; lia|].
      rewrite <- app_assoc. reflexivity.
    + cbn [map]. rewrite Hread. cbn [app]. f_equal.
      rewrite <- !app_assoc, drop_app_length. cbn [app].
      apply c_string_line. exact Hl.
Qed.

(** X21. The arguments read from an rc file.  For a file made of lines,
    each ended by a newline, followed by a last piece without newline
    (no byte of the file being NUL): an empty file gives no argument and
    [_editor_init_from_args] is not called; otherwise it is called with
    ["mle"] followed by the lines, one argument each, and, when the last
    piece is not empty, that is when the file does not end with a newline,
    by the last piece without its last byte. *)
Theorem rc_argv_lines ls last :
  Forall rc_line ls -> rc_line last ->
  rc_argv (rc_lines ls ++ last)
  = if decide (ls = [] /\ last = []) then None
    else Some ([109; 108; 101] :: ls
                 ++ (if decide (last = []) then [] else [removelast last])).
Proof.
  intros Hls Hlast. unfold rc_argv.
  pose proof (rc_pass_count ls last Hls Hlast [] (length (rc_lines ls ++ last)) 1 [])
    as Hcount.
  assert (Hfuel : (length ls + (if decide (last = []) then 0 else 1)
                   <= length (rc_lines ls ++ last))%nat).
  { rewrite length_app. unfold rc_lines.
    assert (Hlen : (length ls <= length (concat (map (fun l => l ++ [10%Z]) ls)))%nat).
    { clear. induction ls as [|l ls IH]; cbn; [lia|].
      rewrite !length_app. cbn. lia. }
    destruct (decide (last = [])); [lia|]. destruct last; [congruence|cbn; lia]. }
  specialize (Hcount Hfuel).
  destruct (rc_pass_write ls last Hls Hlast [] (length (rc_lines ls ++ last)) 1 [] Hfuel)
    as (tl & starts & Hwrite & Hread).
  cbn [length app Nat.add] in Hcount, Hwrite, Hread.
  rewrite <- !app_assoc.
  destruct (rc_pass (length (rc_lines ls ++ last)) (rc_lines ls ++ last ++ [0])
              (length (rc_lines ls ++ last)) 0 false 1 []) as [[m1 c1] v1].
  cbn [fst snd] in Hcount. subst c1.
  rewrite Hwrite. cbn [app]. rewrite Hread.
  destruct (decide (ls = [] /\ last = [])) as [[-> ->]|Hne].
  - reflexivity.
  - assert (Hpos : (0 < length ls + (if decide (last = []) then 0 else 1))%nat).
    { destruct ls; [|cbn; lia]. destruct (decide (last = [])); [|lia].
      exfalso. apply Hne. auto. }
    destruct (1 + Z.of_nat (length ls + (if decide (last = []) then 0 else 1)) <? 2)
      eqn:Elt; [apply Z.ltb_lt in Elt; lia|reflexivity].
Qed.

Lemma rc_argv_lines_witness :
  rc_argv (rc_lines [[45; 98]] ++ [45; 116; 32; 52])
  = Some [[109; 108; 101]; [45; 98]; [45; 116; 32]].
Proof.
  apply (rc_argv_lines [[45; 98]] [45; 116; 32; 52]).
  - repeat constructor; discriminate.
  - repeat constructor; discriminate.
Defined.

(** * Closing a view *)

Lemma set_active_member `{view_collab} e p :
  prompt e = None -> p ∈ all_bviews e ->
  let e' := (editor_set_active e (Some p)).2 in
  active e' = Some p /\ bviews e' = bviews e /\ all_bviews e' = all_bviews e /\
  top_bviews e' = top_bviews e /\ prompt e' = None /\
  (MLE_BVIEW_IS_EDIT e (Some p) = true -> active_edit e' = Some p).
Proof.
  intros Hp Hin. cbv zeta. unfold editor_set_active.
  assert (Hex : editor_bview_exists e (Some p) = true).
  { apply bview_exists_loop_spec. eauto. }
  rewrite Hex. cbn [negb].
  rewrite bool_decide_eq_false_2 by (rewrite Hp; intros Hx; exact (Hx eq_refl)).
  change (MLE_BVIEW_IS_EDIT
            (Editor (bviews e) (all_bviews e) (top_bviews e) (Some p)
               (active_edit e) (active_edit_root e) (prompt e)) (Some p))
    with (MLE_BVIEW_IS_EDIT e (Some p)).
  destruct (MLE_BVIEW_IS_EDIT e (Some p)); cbn; repeat split; auto; discriminate.
Qed.

Lemma ring_neighbour_member (l : list ptr) (i : nat) p :
  l !! i = Some p -> p ∈ l.
Proof. apply list_elem_of_lookup_2. Qed.

(** X22. Closing a view hands the focus to a neighbour.  With no prompt
    open, [editor_close_bview] of a top-level view that has no split
    child returns [MLE_OK] after closing that one view.  The view that is
    active afterwards is the previous view of [all_bviews] if that is
    another view and an EDIT view, else the next one under the same
    condition, else a view opened for the purpose, which is then the
    first of [all_bviews]; no other view is added.  The closed view is
    gone from the store and from both lists, all other views are still
    listed, and the active view is a listed EDIT view, also recorded as
    [active_edit]. *)
Theorem close_bview_keeps_edit_focus `{view_collab} fuel e bview :
  prompt e = None ->
  bview ∈ all_bviews e ->
  bview_field e bview split_child = None ->
  bview_field e bview split_parent = None ->
  (bview_new e).1 ∉ all_bviews e ->
  let takes_focus (q : option ptr) :=
    bool_decide (q <> None) && bool_decide (q <> Some bview)
    && MLE_BVIEW_IS_EDIT e q in
  exists e' a,
    editor_close_bview (S fuel) e bview = Some (MLE_OK, e', 1%nat) /\
    active e'
    = (if takes_focus (all_prev e bview) then all_prev e bview
       else if takes_focus (all_next e bview) then all_next e bview
       else Some (bview_new e).1) /\
    all_bviews e'
    = (if takes_focus (all_prev e bview) || takes_focus (all_next e bview)
       then [] else [(bview_new e).1])
      ++ filter (fun x => x <> bview) (all_bviews e) /\
    active e' = Some a /\ a <> bview /\ a ∈ all_bviews e' /\
    MLE_BVIEW_IS_EDIT e' (Some a) = true /\
    active_edit e' = Some a /\
    (bview ∉ all_bviews e') /\ (bview ∉ top_bviews e') /\ bviews e' !! bview = None /\
    (forall v, v ∈ all_bviews e -> v <> bview -> v ∈ all_bviews e') /\
    prompt e' = None.
Proof.
  intros Hp Hin Hchild Hparent Hfresh takes_focus. subst takes_focus. cbv beta.
  unfold editor_close_bview. cbn [_editor_close_bview_inner].
  assert (Hex : editor_bview_exists e (Some bview) = true).
  { apply bview_exists_loop_spec. eauto. }
  rewrite Hex. cbn [negb]. rewrite Hchild, Hparent.
  set (prev := all_prev e bview). set (next := all_next e bview).
  assert (Hmem : forall q, q = prev \/ q = next -> forall a, q = Some a -> a ∈ all_bviews e).
  { intros q Hq a ->. unfold prev, next, all_prev, all_next in Hq.
    destruct (ring_index (all_bviews e) bview);
      destruct Hq as [Hq|Hq]; try discriminate;
      symmetry in Hq; eapply ring_neighbour_member; eassumption. }
  assert (Hfinish : forall e2 a,
            active e2 = Some a -> a <> bview -> a ∈ all_bviews e2 ->
            MLE_BVIEW_IS_EDIT e2 (Some a) = true -> active_edit e2 = Some a ->
            prompt e2 = None ->
            bview_field e2 bview split_parent = None ->
            (forall v, v ∈ all_bviews e -> v ∈ all_bviews e2) ->
            let e' := Editor (delete bview (bviews e2))
                        (filter (fun x => x <> bview) (all_bviews e2))
                        (filter (fun x => x <> bview) (top_bviews e2))
                        (active e2) (active_edit e2) (active_edit_root e2) (prompt e2) in
            active e' = Some a /\ a <> bview /\ a ∈ all_bviews e' /\
            MLE_BVIEW_IS_EDIT e' (Some a) = true /\
            active_edit e' = Some a /\
            (bview ∉ all_bviews e') /\ (bview ∉ top_bviews e') /\ bviews e' !! bview = None /\
            (forall v, v ∈ all_bviews e -> v <> bview -> v ∈ all_bviews e') /\
            prompt e' = None).
  { intros e2 a Ha Hne Hain Hed Hae Hpr _ Hkeep. cbn.
    split; [exact Ha|]. split; [exact Hne|].
    split; [apply list_elem_of_filter; auto|].
    split.
    { unfold MLE_BVIEW_IS_EDIT in *. cbn. rewrite lookup_delete_ne by congruence.
      exact Hed. }
    split; [exact Hae|].
    split; [intros Hx; apply list_elem_of_filter in Hx as [Hx _]; congruence|].
    split; [intros Hx; apply list_elem_of_filter in Hx as [Hx _]; congruence|].
    split; [apply lookup_delete_eq|].
    split; [|exact Hpr].
    intros v Hv Hvn. apply list_elem_of_filter. auto. }
  destruct (bool_decide (prev <> None) && bool_decide (prev <> Some bview)
            && MLE_BVIEW_IS_EDIT e prev) eqn:Eprev.
  - (* the previous view takes the focus *)
    apply andb_true_iff in Eprev as [Eprev Hed].
    apply andb_true_iff in Eprev as [Hsome Hnb].
    apply bool_decide_eq_true in Hsome. apply bool_decide_eq_true in Hnb.
    destruct prev as [a|] eqn:Ea; [|congruence].
    assert (Hain : a ∈ all_bviews e) by (apply (Hmem (Some a)); auto).
    destruct (set_active_member e a Hp Hain) as (Hact & Hbv & Hall & Htop & Hpr & Hae).
    set (e2 := (editor_set_active e (Some a)).2) in *.
    assert (Hpar2 : bview_field e2 bview split_parent = None).
    { unfold bview_field in *. rewrite Hbv. exact Hparent. }
    rewrite Hpar2.
    do 2 eexists. split; [reflexivity|].
    split; [cbn [active]; exact Hact|].
    split; [cbn [all_bviews orb app]; rewrite Hall; reflexivity|].
    apply (Hfinish e2 a Hact).
    + congruence.
    + rewrite Hall. exact Hain.
    + unfold MLE_BVIEW_IS_EDIT in *. rewrite Hbv. exact Hed.
    + apply Hae. exact Hed.
    + exact Hpr.
    + exact Hpar2.
    + intros v Hv. rewrite Hall. exact Hv.
  - destruct (bool_decide (next <> None) && bool_decide (next <> Some bview)
              && MLE_BVIEW_IS_EDIT e next) eqn:Enext.
    + (* the next view takes the focus *)
      apply andb_true_iff in Enext as [Enext Hed].
      apply andb_true_iff in Enext as [Hsome Hnb].
      apply bool_decide_eq_true in Hsome. apply bool_decide_eq_true in Hnb.
      destruct next as [a|] eqn:Ea; [|congruence].
      assert (Hain : a ∈ all_bviews e) by (apply (Hmem (Some a)); auto).
      destruct (set_active_member e a Hp Hain) as (Hact & Hbv & Hall & Htop & Hpr & Hae).
      set (e2 := (editor_set_active e (Some a)).2) in *.
      assert (Hpar2 : bview_field e2 bview split_parent = None).
      { unfold bview_field in *. rewrite Hbv. exact Hparent. }
      rewrite Hpar2.
      do 2 eexists. split; [reflexivity|].
      split; [cbn [active]; exact Hact|].
      split; [cbn [all_bviews orb app]; rewrite Hall; reflexivity|].
      apply (Hfinish e2 a Hact).
      * congruence.
      * rewrite Hall. exact Hain.
      * unfold MLE_BVIEW_IS_EDIT in *. rewrite Hbv. exact Hed.
      * apply Hae. exact Hed.
      * exact Hpr.
      * exact Hpar2.
      * intros v Hv. rewrite Hall. exact Hv.
    + (* a view is opened for the purpose *)
      unfold editor_open_bview.
      destruct (bview_new e) as [p fv] eqn:Enew. cbn [fst snd] in Hfresh |- *.
      cbn [bviews all_bviews top_bviews active active_edit active_edit_root prompt].
      match goal with
      | |- context [editor_set_active ?x (Some p)] => set (e1 := x) in *
      end.
      assert (Hpb : p <> bview) by congruence.
      assert (Hp1 : prompt e1 = None) by exact Hp.
      assert (Hin1 : p ∈ all_bviews e1) by (unfold e1; cbn; constructor).
      destruct (set_active_member e1 p Hp1 Hin1) as (Hact & Hbv & Hall & Htop & Hpr & Hae).
      set (e2 := (editor_set_active e1 (Some p)).2) in *.
      assert (Hed1 : MLE_BVIEW_IS_EDIT e1 (Some p) = true).
      { unfold MLE_BVIEW_IS_EDIT, e1. cbn. rewrite lookup_insert_eq. cbn.
        apply bool_decide_eq_true. reflexivity. }
      assert (Hpar2 : bview_field e2 bview split_parent = None).
      { unfold bview_field in *. rewrite Hbv. unfold e1. cbn.
        rewrite lookup_insert_ne by congruence. exact Hparent. }
      rewrite Hpar2.
      do 2 eexists. split; [reflexivity|].
      split; [cbn [active]; exact Hact|].
      split.
      { cbn [all_bviews orb app]. rewrite Hall. unfold e1. cbn [all_bviews].
        rewrite filter_cons_True by exact Hpb. reflexivity. }
      apply (Hfinish e2 p Hact Hpb).
      * rewrite Hall. exact Hin1.
      * unfold MLE_BVIEW_IS_EDIT in *. rewrite Hbv. exact Hed1.
      * apply Hae. exact Hed1.
      * exact Hpr.
      * exact Hpar2.
      * intros v Hv. rewrite Hall. unfold e1. cbn. constructor. exact Hv.
Qed.

Lemma close_bview_keeps_edit_focus_witness :
  exists e' a,
    @editor_close_bview sample_views 1 editor_without_prompt 3%positive
    = Some (MLE_OK, e', 1%nat) /\
    active e' = Some 1%positive /\
    all_bviews e' = [1%positive] /\
    active e' = Some a /\ a <> 3%positive /\ a ∈ all_bviews e' /\
    MLE_BVIEW_IS_EDIT e' (Some a) = true /\
    active_edit e' = Some a /\
    (3%positive ∉ all_bviews e') /\ (3%positive ∉ top_bviews e') /\
    bviews e' !! 3%positive = None /\
    (forall v, v ∈ all_bviews editor_without_prompt -> v <> 3%positive ->
               v ∈ all_bviews e') /\
    prompt e' = None.
Proof.
  apply (@close_bview_keeps_edit_focus sample_views 0 editor_without_prompt 3%positive).
  - reflexivity.
  - apply (bool_decide_unpack _). vm_compute. exact I.
  - reflexivity.
  - reflexivity.
  - apply (bool_decide_unpack _). vm_compute. exact I.
Defined.

(** * Quoting an argument for the shell *)

Lemma escape_loop_done `{termbox_h} str l fuel x cmd :
  (l <= x)%nat -> escape_loop fuel str l x cmd = cmd.
Proof.
  intros Hx. destruct fuel; cbn [escape_loop]; [reflexivity|].
  destruct (Nat.ltb_spec x l); [lia|reflexivity].
Qed.

Lemma escape_loop_head `{termbox_h} str l fuel :
  forall x c cmd, exists rest, escape_loop fuel str l x (c :: cmd) = c :: rest.
Proof.
  induction fuel as [|fuel IH]; intros x c cmd; cbn [escape_loop]; [eauto|].
  repeat case_match; rewrite <- ?app_comm_cons; eauto.
Qed.

(** The loop when no byte of the argument announces a character that runs
    past the argument. *)
Lemma escape_loop_length `{termbox_h} (str : nat -> Z) (l : nat) :
  (forall i, (i < l)%nat -> Z.of_nat i + tb_utf8_char_length (str i) <= Z.of_nat l) ->
  forall fuel x cmd,
  (length (escape_loop fuel str l x cmd) <= length cmd + 4 * (l - x))%nat.
Proof.
  intros Hin. induction fuel as [|fuel IH]; intros x cmd; cbn [escape_loop]; [lia|].
  destruct (Nat.ltb_spec x l) as [Hx|Hx]; [|lia].
  destruct (Z.ltb_spec (tb_utf8_char_length (str x)) 0) as [Hneg|Hneg].
  { specialize (IH (S x) cmd). lia. }
  destruct (Z.ltb_spec 1 (tb_utf8_char_length (str x))) as [Hmulti|Hone].
  { specialize (IH (x + Z.to_nat (tb_utf8_char_length (str x)))%nat
                  (cmd ++ map str (seq x (Z.to_nat (tb_utf8_char_length (str x)))))).
    rewrite length_app, length_map, length_seq in IH.
    specialize (Hin x Hx). lia. }
  destruct (str x =? 39).
  - specialize (IH (S x) (cmd ++ [39; 92; 39; str x])).
    rewrite length_app in IH. cbn [length] in IH. lia.
  - specialize (IH (S x) (cmd ++ [str x])).
    rewrite length_app in IH. cbn [length] in IH. lia.
Qed.

Lemma escape_loop_ext `{termbox_h} (str : nat -> Z) (l : nat) :
  (forall i, (i < l)%nat -> Z.of_nat i + tb_utf8_char_length (str i) <= Z.of_nat l) ->
  forall str' fuel,
  (forall i, (i < l)%nat -> str' i = str i) ->
  forall x cmd, escape_loop fuel str' l x cmd = escape_loop fuel str l x cmd.
Proof.
  intros Hin str' fuel Heq. induction fuel as [|fuel IH]; intros x cmd; cbn [escape_loop];
    [reflexivity|].
  destruct (Nat.ltb_spec x l) as [Hx|Hx]; [|reflexivity].
  rewrite (Heq x Hx).
  destruct (Z.ltb_spec (tb_utf8_char_length (str x)) 0) as [Hneg|Hneg]; [apply IH|].
  destruct (Z.ltb_spec 1 (tb_utf8_char_length (str x))) as [Hmulti|Hone].
  { rewrite IH. f_equal. f_equal. apply map_ext_in. intros i Hi.
    apply in_seq in Hi. apply Heq. specialize (Hin x Hx). lia. }
  destruct (str x =? 39); apply IH.
Qed.

Lemma escape_loop_no_nul `{termbox_h} (str : nat -> Z) (l : nat) :
  (forall i, (i < l)%nat -> Z.of_nat i + tb_utf8_char_length (str i) <= Z.of_nat l) ->
  forall fuel,
  (forall i, (i < l)%nat -> str i <> 0) ->
  forall x cmd, 0 ∉ cmd -> 0 ∉ escape_loop fuel str l x cmd.
Proof.
  intros Hin fuel Hnn. induction fuel as [|fuel IH]; intros x cmd Hcmd; cbn [escape_loop];
    [exact Hcmd|].
  destruct (Nat.ltb_spec x l) as [Hx|Hx]; [|exact Hcmd].
  destruct (Z.ltb_spec (tb_utf8_char_length (str x)) 0) as [Hneg|Hneg];
    [apply IH; exact Hcmd|].
  destruct (Z.ltb_spec 1 (tb_utf8_char_length (str x))) as [Hmulti|Hone].
  { apply IH. rewrite not_elem_of_app. split; [exact Hcmd|].
    intros Hz. apply list_elem_of_fmap in Hz as (i & Hi & Hs).
    apply elem_of_seq in Hs. symmetry in Hi. revert Hi. apply Hnn.
    specialize (Hin x Hx). lia. }
  pose proof (Hnn x Hx) as Hc.
  destruct (str x =? 39); apply IH; rewrite not_elem_of_app; (split; [exact Hcmd|]);
    rewrite ?not_elem_of_cons; repeat split; try lia; try congruence;
    apply not_elem_of_nil.
Qed.
Lemma escape_loop_bytes `{termbox_h} str l :
  (forall i, (i < l)%nat -> tb_utf8_char_length (str i) = 1) ->
  forall fuel x cmd,
  (l - x <= fuel)%nat ->
  escape_loop fuel str l x cmd
  = cmd ++ concat (map escape_byte (map str (seq x (l - x)))).
Proof.
  intros Hone. induction fuel as [|fuel IH]; intros x cmd Hfuel; cbn [escape_loop].
  - replace (l - x)%nat with 0%nat by lia. cbn. rewrite app_nil_r. reflexivity.
  - destruct (Nat.ltb_spec x l) as [Hx|Hx].
    + rewrite (Hone x Hx).
      change (1 <? 0) with false. change (1 <? 1) with false. cbv iota.
      replace (l - x)%nat with (S (l - S x)) by lia.
      cbn [seq map concat]. unfold escape_byte at 1.
      destruct (str x =? 39); rewrite IH by lia; rewrite <- app_assoc; reflexivity.
    + replace (l - x)%nat with 0%nat by lia. cbn. rewrite app_nil_r. reflexivity.
Qed.

(** X23. The quoted argument.  When no byte of the argument announces a
    character that runs past the [l] bytes of the argument, the bytes
    that [util_escape_shell_arg] writes, the final NUL included, fit the
    [4 * l + 3] bytes allocated and are computed from the argument alone;
    if moreover the argument holds no NUL, the string returned is the
    bytes written before the final NUL, and it begins and ends with a
    single quote.  When every byte of the argument is a character of its
    own, the result is the argument between single quotes with each
    single quote of it replaced by the four bytes that close the quotes,
    give an escaped quote, and open them again.  A character announced
    longer than the argument is copied whole: for an argument of one
    byte that announces [k] bytes, [k] bytes of memory are copied and
    [k + 3] bytes are written, where 7 are allocated. *)
Theorem util_escape_shell_arg_fits `{termbox_h} str l :
  let written := util_escape_shell_arg str l in
  ((forall i, (i < l)%nat ->
      Z.of_nat i + tb_utf8_char_length (str i) <= Z.of_nat l) ->
   Z.of_nat (length written) <= 4 * Z.of_nat l + 3 /\
   (forall str', (forall i, (i < l)%nat -> str' i = str i) ->
      util_escape_shell_arg str' l = written) /\
   ((forall i, (i < l)%nat -> str i <> 0) ->
      written = c_string written ++ [0] /\
      head (c_string written) = Some 39 /\
      last (c_string written) = Some 39 /\
      (2 <= length (c_string written))%nat)) /\
  ((forall i, (i < l)%nat -> tb_utf8_char_length (str i) = 1) ->
   written = [39] ++ concat (map escape_byte (map str (seq 0 l))) ++ [39; 0]) /\
  (forall k, l = 1%nat -> 1 < k -> tb_utf8_char_length (str 0%nat) = k ->
   written = [39] ++ map str (seq 0 (Z.to_nat k)) ++ [39; 0]).
Proof.
  cbv zeta. unfold util_escape_shell_arg. split; [|split].
  - intros Hin. split; [|split].
    + pose proof (escape_loop_length str l Hin l 0%nat [39]) as Hlen.
      rewrite length_app. cbn [length] in *. lia.
    + intros str' Heq. rewrite (escape_loop_ext str l Hin str' l Heq). reflexivity.
    + intros Hnn.
      assert (Hno : 0 ∉ escape_loop l str l 0 [39]).
      { apply escape_loop_no_nul; [exact Hin|exact Hnn|].
        rewrite not_elem_of_cons. split; [lia|apply not_elem_of_nil]. }
      destruct (escape_loop_head str l l 0%nat 39 []) as [rest Hrest].
      assert (Hcs : c_string (escape_loop l str l 0 [39] ++ [39; 0])
                    = escape_loop l str l 0 [39] ++ [39]).
      { rewrite (c_string_app _ _ Hno). reflexivity. }
      rewrite Hcs. split; [rewrite <- app_assoc; reflexivity|].
      split; [rewrite Hrest; reflexivity|].
      split; [apply last_snoc|].
      rewrite Hrest, length_app. cbn [length]. lia.
  - intros Hone. rewrite (escape_loop_bytes str l Hone l 0%nat [39]) by lia.
    rewrite Nat.sub_0_r, <- app_assoc. reflexivity.
  - intros k -> Hk Hlen. cbn [escape_loop]. change (0 <? 1)%nat with true. cbv iota.
    rewrite Hlen.
    destruct (Z.ltb_spec k 0) as [Hneg|_]; [lia|].
    destruct (Z.ltb_spec 1 k) as [_|Hle]; [|lia].
    rewrite <- app_assoc. reflexivity.
Qed.

(** With the table of termbox: the argument [it's] followed by an e with
    acute accent, and the argument of the one byte FC, for which 9 bytes
    are written. *)
Lemma util_escape_shell_arg_fits_witness :
  Z.of_nat (length (@util_escape_shell_arg termbox_utf8 (mem_of sample_arg) 6))
  <= 4 * Z.of_nat 6 + 3 /\
  last (c_string (@util_escape_shell_arg termbox_utf8 (mem_of sample_arg) 6)) = Some 39 /\
  @util_escape_shell_arg termbox_utf8 (mem_of lone_lead_byte) 1
  = [39] ++ map (mem_of lone_lead_byte) (seq 0 6) ++ [39; 0] /\
  4 * Z.of_nat 1 + 3
  < Z.of_nat (length (@util_escape_shell_arg termbox_utf8 (mem_of lone_lead_byte) 1)).
Proof.
  destruct (@util_escape_shell_arg_fits termbox_utf8 (mem_of sample_arg) 6)
    as (Hwithin & _ & _).
  destruct Hwithin as (Hfit & _ & Hstr).
  { intros i Hi. do 6 (destruct i as [|i]; [vm_compute; discriminate|]). lia. }
  destruct Hstr as (_ & _ & Hlast & _).
  { intros i Hi. do 6 (destruct i as [|i]; [vm_compute; discriminate|]). lia. }
  destruct (@util_escape_shell_arg_fits termbox_utf8 (mem_of lone_lead_byte) 1)
    as (_ & _ & Hover).
  split; [exact Hfit|]. split; [exact Hlast|].
  split; [apply (Hover 6); [reflexivity|lia|reflexivity]|].
  vm_compute. reflexivity.
Defined.

(** What lies behind the NUL of the argument: a character copied across
    the NUL ends the string at the NUL. *)
Lemma overrun_c_string (str : nat -> Z) (l : nat) (s : nat -> Z) x k cmd t :
  (forall i, (i < l)%nat -> str i <> 0) -> str l = 0 ->
  (forall i, (i <= l)%nat -> s i = str i) ->
  (x < l)%nat -> (l < x + k)%nat -> 0 ∉ cmd ->
  c_string ((cmd ++ map s (seq x k)) ++ t) = cmd ++ map str (seq x (l - x)).
Proof.
  intros Hnn Hl Hs Hx Hk Hcmd.
  replace k with ((l - x) + S (k - (l - x) - 1))%nat by lia.
  rewrite seq_app, map_app. cbn [seq map].
  replace (x + (l - x))%nat with l by lia.
  rewrite (Hs l) by lia. rewrite Hl.
  rewrite <- !app_assoc.
  rewrite c_string_app by exact Hcmd.
  rewrite c_string_app.
  - cbn [app c_string]. rewrite bool_decide_true by reflexivity.
    rewrite app_nil_r. f_equal. apply map_ext_in. intros i Hi.
    apply in_seq in Hi. apply Hs. lia.
  - intros Hz. apply list_elem_of_fmap in Hz as (i & Hi & Hin).
    apply elem_of_seq in Hin. rewrite Hs in Hi by lia.
    symmetry in Hi. revert Hi. apply Hnn. lia.
Qed.

Lemma escape_loop_c_string `{termbox_h} (str str' : nat -> Z) (l : nat) :
  (forall i, (i < l)%nat -> str i <> 0) -> str l = 0 ->
  (forall i, (i <= l)%nat -> str' i = str i) ->
  forall fuel t x cmd, (x <= l)%nat -> 0 ∉ cmd ->
  c_string (escape_loop fuel str' l x cmd ++ t)
  = c_string (escape_loop fuel str l x cmd ++ t).
Proof.
  intros Hnn Hl Heq fuel t. induction fuel as [|fuel IH]; intros x cmd Hxl Hcmd; cbn [escape_loop];
    [reflexivity|].
  destruct (Nat.ltb_spec x l) as [Hx|Hx]; [|reflexivity].
  rewrite (Heq x) by lia.
  destruct (Z.ltb_spec (tb_utf8_char_length (str x)) 0) as [Hneg|Hneg];
    [apply IH; [lia|exact Hcmd]|].
  destruct (Z.ltb_spec 1 (tb_utf8_char_length (str x))) as [Hmulti|Hone].
  { set (k := Z.to_nat (tb_utf8_char_length (str x))).
    destruct (le_lt_dec (x + k) l) as [Hfit|Hover].
    - replace (map str' (seq x k)) with (map str (seq x k)).
      + apply IH; [exact Hfit|].
        rewrite not_elem_of_app. split; [exact Hcmd|].
        intros Hz. apply list_elem_of_fmap in Hz as (i & Hi & Hin).
        apply elem_of_seq in Hin. symmetry in Hi. revert Hi. apply Hnn. lia.
      + apply map_ext_in. intros i Hi. apply in_seq in Hi.
        symmetry. apply Heq. lia.
    - rewrite !escape_loop_done by lia.
      rewrite (overrun_c_string str l str' x k cmd t Hnn Hl Heq Hx Hover Hcmd).
      rewrite (overrun_c_string str l str x k cmd t Hnn Hl (fun _ _ => eq_refl)
                 Hx Hover Hcmd).
      reflexivity. }
  pose proof (Hnn x Hx) as Hc.
  destruct (str x =? 39); (apply IH; [lia|]); rewrite not_elem_of_app;
    (split; [exact Hcmd|]);
    rewrite ?not_elem_of_cons; repeat split; try lia; try congruence;
    apply not_elem_of_nil.
Qed.
(** X24. The quoted argument of a C string.  When [l] is the length of
    the string at [str], the string that [util_escape_shell_arg] returns
    does not depend on the memory behind the NUL of [str], also when the
    last character is announced longer than what is left and the
    [memcpy] reads that memory: the NUL is copied with it and ends the
    string returned.  The string returned begins with a single quote. *)
Theorem util_escape_shell_arg_string `{termbox_h} str l :
  (forall i, (i < l)%nat -> str i <> 0) -> str l = 0 ->
  (forall str', (forall i, (i <= l)%nat -> str' i = str i) ->
     c_string (util_escape_shell_arg str' l) = c_string (util_escape_shell_arg str l)) /\
  head (c_string (util_escape_shell_arg str l)) = Some 39.
Proof.
  intros Hnn Hl. split.
  - intros str' Heq. unfold util_escape_shell_arg.
    apply (escape_loop_c_string str str' l Hnn Hl Heq); [lia|].
    rewrite not_elem_of_cons. split; [lia|apply not_elem_of_nil].
  - unfold util_escape_shell_arg.
    destruct (escape_loop_head str l l 0%nat 39 []) as [rest ->].
    cbn [app c_string]. rewrite bool_decide_false by lia. reflexivity.
Qed.

(** The string [a] followed by the byte C3, which announces two bytes. *)
Lemma util_escape_shell_arg_string_witness :
  c_string (@util_escape_shell_arg termbox_utf8 (mem_of ([97; 195; 0; 10; 10])) 2)
  = c_string (@util_escape_shell_arg termbox_utf8 (mem_of [97; 195]) 2) /\
  c_string (@util_escape_shell_arg termbox_utf8 (mem_of [97; 195]) 2) = [39; 97; 195].
Proof.
  destruct (@util_escape_shell_arg_string termbox_utf8 (mem_of [97; 195]) 2)
    as (Hsame & _).
  - intros i Hi. do 2 (destruct i as [|i]; [vm_compute; discriminate|]). lia.
  - reflexivity.
  - split; [|vm_compute; reflexivity].
    apply Hsame. intros i Hi.
    do 3 (destruct i as [|i]; [reflexivity|]). lia.
Defined.

(** * Running a shell command *)

Lemma shell_read_loop_chunks chunks :
  Forall chunk_ok chunks ->
  forall tail readbuf,
  shell_read_loop (map ReadBytes chunks ++ tail) readbuf
  = shell_read_loop tail
      (match chunks with
       | [] => readbuf
       | _ => Some (default [] readbuf ++ concat chunks)
       end).
Proof.
  induction 1 as [|c chunks [Hne Hlen] Hok IH]; intros tail readbuf; [reflexivity|].
  cbn [map app shell_read_loop].
  rewrite take_ge by exact Hlen.
  destruct c as [|b c]; [congruence|]. cbn [length Nat.ltb Nat.leb].
  rewrite IH. f_equal.
  destruct chunks; simpl; rewrite ?app_nil_r, <- ?app_assoc; reflexivity.
Qed.

(** X25. The output of a shell run.  When the command delivers its output
    in reads of one to 1024 bytes, [util_shell_exec] hands over these
    bytes in order, as one buffer: with [MLE_OK] when the reads end with
    end of file, and with [MLE_ERR] when they end with a timeout or an
    error of [select] (then the buffer is NULL if nothing was read) or
    with an error of [read].  When [util_popen2] fails it returns
    [MLE_ERR] and stores nothing in [*ret_output]. *)
Theorem util_shell_exec_collects `{shell} cmd chunks tail :
  Forall chunk_ok chunks ->
  shell_turns cmd = map ReadBytes chunks ++ tail ->
  let collected := match chunks with [] => None | _ => Some (concat chunks) end in
  (popen2_ok cmd = false -> util_shell_exec cmd = (MLE_ERR, None)) /\
  (popen2_ok cmd = true ->
   (forall rest, tail = ReadBytes [] :: rest ->
      util_shell_exec cmd = (MLE_OK, Some (Some (concat chunks)))) /\
   (tail = [] -> util_shell_exec cmd = (MLE_ERR, Some collected)) /\
   (forall rest, tail = SelectError :: rest ->
      util_shell_exec cmd = (MLE_ERR, Some collected)) /\
   (forall rest, tail = ReadError :: rest ->
      util_shell_exec cmd = (MLE_ERR, Some (Some (concat chunks))))).
Proof.
  intros Hok Hturns collected. unfold util_shell_exec, MLE_RETURN_ERR. split.
  - intros ->. reflexivity.
  - intros ->. cbn [negb]. rewrite Hturns, (shell_read_loop_chunks _ Hok).
    repeat split.
    + intros rest ->. cbn [shell_read_loop take length Nat.ltb Nat.leb].
      destruct chunks; simpl; rewrite ?app_nil_r; reflexivity.
    + intros ->. subst collected. destruct chunks; reflexivity.
    + intros rest ->. subst collected. destruct chunks; reflexivity.
    + intros rest ->. cbn [shell_read_loop].
      destruct chunks; reflexivity.
Qed.

(** The run of the sample shell: one read, then end of file. *)
Lemma util_shell_exec_collects_witness :
  @util_shell_exec sample_shell [99]
  = (MLE_OK, Some (Some (terms_of [cand_foo; cand_fox]))).
Proof.
  destruct (@util_shell_exec_collects sample_shell [99]
              [terms_of [cand_foo; cand_fox]] [ReadBytes []]) as (_ & Hrun).
  - constructor; [split; [discriminate|vm_compute; lia]|constructor].
  - reflexivity.
  - destruct (Hrun eq_refl) as (Heof & _).
    rewrite (Heof [] eq_refl). vm_compute. reflexivity.
Defined.
